(** * A shallow embedding of the go-mysql client session (client/conn.go)

    The session type [Conn], its connect entry points and its command
    methods are translated from the Go source; the collaborators that
    live in other files (the packet transport, the packet decoders, the
    handshake phases, the protocol constants) are parameters or small
    models, each marked as such. *)

From Stdlib Require Import ZArith Lia List Bool String Ascii.
From Stdlib.Strings Require Import Byte.
From Stdlib Require Import DecimalString DecimalN.
Import ListNotations.

Local Open Scope string_scope.
Local Open Scope Z_scope.

(** ** Go primitives used by the file *)

Module Go.

(** Conversion to [uint32] and [uint16]: the value modulo the width. *)
Definition uint32 (z : Z) : Z := z mod 2 ^ 32.
Definition uint16 (z : Z) : Z := z mod 2 ^ 16.

(** [strings.Contains(s, substr)]. *)
Fixpoint Contains (s substr : string) : bool :=
  if String.prefix substr s then true
  else match s with
       | EmptyString => false
       | String _ s' => Contains s' substr
       end.

(** [strings.Join(elems, sep)]. *)
Definition Join (elems : list string) (sep : string) : string :=
  String.concat sep elems.

(** [fmt.Sprintf("%d", n)] for a non-negative [n]. *)
Definition itoa (n : Z) : string :=
  NilZero.string_of_uint (N.to_uint (Z.to_N n)).

(** [fmt.Sprintf("(%d)", n)]. *)
Definition Sprintf_paren_d (n : Z) : string := "(" ++ itoa n ++ ")".

(** A [switch] on constants: the first case equal to the tag is taken,
    the default otherwise. *)
Fixpoint switch {A : Type} (tag : Z) (cases : list (Z * A)) (default : A) : A :=
  match cases with
  | [] => default
  | (k, v) :: rest => if tag =? k then v else switch tag rest default
  end.

(** [time.Duration] counts nanoseconds. *)
Definition Duration := Z.
Definition Second : Duration := 1000000000.

End Go.

(** ** Protocol constants (package mysql) *)

Module Const.

(** Modelled from the spec: the constants of package mysql are not in
    conn.go; the spec fixes them to the MySQL protocol's well-known
    values, the capability flags being the 32 bits in the order of the
    source's [switch]. *)
Definition CLIENT_LONG_PASSWORD : Z := 1.
Definition CLIENT_FOUND_ROWS : Z := 2.
Definition CLIENT_LONG_FLAG : Z := 4.
Definition CLIENT_CONNECT_WITH_DB : Z := 8.
Definition CLIENT_NO_SCHEMA : Z := 16.
Definition CLIENT_COMPRESS : Z := 32.
Definition CLIENT_ODBC : Z := 64.
Definition CLIENT_LOCAL_FILES : Z := 128.
Definition CLIENT_IGNORE_SPACE : Z := 256.
Definition CLIENT_PROTOCOL_41 : Z := 512.
Definition CLIENT_INTERACTIVE : Z := 1024.
Definition CLIENT_SSL : Z := 2048.
Definition CLIENT_IGNORE_SIGPIPE : Z := 4096.
Definition CLIENT_TRANSACTIONS : Z := 8192.
Definition CLIENT_RESERVED : Z := 16384.
Definition CLIENT_SECURE_CONNECTION : Z := 32768.
Definition CLIENT_MULTI_STATEMENTS : Z := 65536.
Definition CLIENT_MULTI_RESULTS : Z := 131072.
Definition CLIENT_PS_MULTI_RESULTS : Z := 262144.
Definition CLIENT_PLUGIN_AUTH : Z := 524288.
Definition CLIENT_CONNECT_ATTRS : Z := 1048576.
Definition CLIENT_PLUGIN_AUTH_LENENC_CLIENT_DATA : Z := 2097152.
Definition CLIENT_CAN_HANDLE_EXPIRED_PASSWORDS : Z := 4194304.
Definition CLIENT_SESSION_TRACK : Z := 8388608.
Definition CLIENT_DEPRECATE_EOF : Z := 16777216.
Definition CLIENT_OPTIONAL_RESULTSET_METADATA : Z := 33554432.
Definition CLIENT_ZSTD_COMPRESSION_ALGORITHM : Z := 67108864.
Definition CLIENT_QUERY_ATTRIBUTES : Z := 134217728.
Definition MULTI_FACTOR_AUTHENTICATION : Z := 268435456.
Definition CLIENT_CAPABILITY_EXTENSION : Z := 536870912.
Definition CLIENT_SSL_VERIFY_SERVER_CERT : Z := 1073741824.
Definition CLIENT_REMEMBER_OPTIONS : Z := 2147483648.

Definition SERVER_STATUS_IN_TRANS : Z := 0x0001.
Definition SERVER_STATUS_AUTOCOMMIT : Z := 0x0002.
Definition SERVER_MORE_RESULTS_EXISTS : Z := 0x0008.
Definition SERVER_STATUS_NO_GOOD_INDEX_USED : Z := 0x0010.
Definition SERVER_STATUS_NO_INDEX_USED : Z := 0x0020.
Definition SERVER_STATUS_CURSOR_EXISTS : Z := 0x0040.
Definition SERVER_STATUS_LAST_ROW_SEND : Z := 0x0080.
Definition SERVER_STATUS_DB_DROPPED : Z := 0x0100.
Definition SERVER_STATUS_NO_BACKSLASH_ESCAPED : Z := 0x0200.
Definition SERVER_STATUS_METADATA_CHANGED : Z := 0x0400.
Definition SERVER_QUERY_WAS_SLOW : Z := 0x0800.
Definition SERVER_PS_OUT_PARAMS : Z := 0x1000.

(** Packet headers and command bytes. *)
Definition OK_HEADER : byte := x00.
Definition ERR_HEADER : byte := xff.
Definition EOF_HEADER : byte := xfe.
Definition LocalInFile_HEADER : byte := xfb.

Definition COM_QUIT : byte := x01.
Definition COM_INIT_DB : byte := x02.
Definition COM_QUERY : byte := x03.
Definition COM_FIELD_LIST : byte := x04.
Definition COM_PING : byte := x0e.

(** Compression modes of the transport. *)
Definition MYSQL_COMPRESS_NONE : Z := 0.
Definition MYSQL_COMPRESS_ZLIB : Z := 1.
Definition MYSQL_COMPRESS_ZSTD : Z := 2.

Definition DEFAULT_CHARSET : string := "utf8".

End Const.

Import Go Const.

(** ** Flag rendering: [CapabilityString] and [StatusString] *)

Module Flags.

(** The cases of the [switch] in [CapabilityString], in source order. *)
Definition capabilityCases : list (Z * string) :=
  [ (CLIENT_LONG_PASSWORD, "CLIENT_LONG_PASSWORD");
    (CLIENT_FOUND_ROWS, "CLIENT_FOUND_ROWS");
    (CLIENT_LONG_FLAG, "CLIENT_LONG_FLAG");
    (CLIENT_CONNECT_WITH_DB, "CLIENT_CONNECT_WITH_DB");
    (CLIENT_NO_SCHEMA, "CLIENT_NO_SCHEMA");
    (CLIENT_COMPRESS, "CLIENT_COMPRESS");
    (CLIENT_ODBC, "CLIENT_ODBC");
    (CLIENT_LOCAL_FILES, "CLIENT_LOCAL_FILES");
    (CLIENT_IGNORE_SPACE, "CLIENT_IGNORE_SPACE");
    (CLIENT_PROTOCOL_41, "CLIENT_PROTOCOL_41");
    (CLIENT_INTERACTIVE, "CLIENT_INTERACTIVE");
    (CLIENT_SSL, "CLIENT_SSL");
    (CLIENT_IGNORE_SIGPIPE, "CLIENT_IGNORE_SIGPIPE");
    (CLIENT_TRANSACTIONS, "CLIENT_TRANSACTIONS");
    (CLIENT_RESERVED, "CLIENT_RESERVED");
    (CLIENT_SECURE_CONNECTION, "CLIENT_SECURE_CONNECTION");
    (CLIENT_MULTI_STATEMENTS, "CLIENT_MULTI_STATEMENTS");
    (CLIENT_MULTI_RESULTS, "CLIENT_MULTI_RESULTS");
    (CLIENT_PS_MULTI_RESULTS, "CLIENT_PS_MULTI_RESULTS");
    (CLIENT_PLUGIN_AUTH, "CLIENT_PLUGIN_AUTH");
    (CLIENT_CONNECT_ATTRS, "CLIENT_CONNECT_ATTRS");
    (CLIENT_PLUGIN_AUTH_LENENC_CLIENT_DATA, "CLIENT_PLUGIN_AUTH_LENENC_CLIENT_DATA");
    (CLIENT_CAN_HANDLE_EXPIRED_PASSWORDS, "CLIENT_CAN_HANDLE_EXPIRED_PASSWORDS");
    (CLIENT_SESSION_TRACK, "CLIENT_SESSION_TRACK");
    (CLIENT_DEPRECATE_EOF, "CLIENT_DEPRECATE_EOF");
    (CLIENT_OPTIONAL_RESULTSET_METADATA, "CLIENT_OPTIONAL_RESULTSET_METADATA");
    (CLIENT_ZSTD_COMPRESSION_ALGORITHM, "CLIENT_ZSTD_COMPRESSION_ALGORITHM");
    (CLIENT_QUERY_ATTRIBUTES, "CLIENT_QUERY_ATTRIBUTES");
    (MULTI_FACTOR_AUTHENTICATION, "MULTI_FACTOR_AUTHENTICATION");
    (CLIENT_CAPABILITY_EXTENSION, "CLIENT_CAPABILITY_EXTENSION");
    (CLIENT_SSL_VERIFY_SERVER_CERT, "CLIENT_SSL_VERIFY_SERVER_CERT");
    (CLIENT_REMEMBER_OPTIONS, "CLIENT_REMEMBER_OPTIONS") ].

(** The cases of the [switch] in [StatusString], in source order. *)
Definition statusCases : list (Z * string) :=
  [ (SERVER_STATUS_IN_TRANS, "SERVER_STATUS_IN_TRANS");
    (SERVER_STATUS_AUTOCOMMIT, "SERVER_STATUS_AUTOCOMMIT");
    (SERVER_MORE_RESULTS_EXISTS, "SERVER_MORE_RESULTS_EXISTS");
    (SERVER_STATUS_NO_GOOD_INDEX_USED, "SERVER_STATUS_NO_GOOD_INDEX_USED");
    (SERVER_STATUS_NO_INDEX_USED, "SERVER_STATUS_NO_INDEX_USED");
    (SERVER_STATUS_CURSOR_EXISTS, "SERVER_STATUS_CURSOR_EXISTS");
    (SERVER_STATUS_LAST_ROW_SEND, "SERVER_STATUS_LAST_ROW_SEND");
    (SERVER_STATUS_DB_DROPPED, "SERVER_STATUS_DB_DROPPED");
    (SERVER_STATUS_NO_BACKSLASH_ESCAPED, "SERVER_STATUS_NO_BACKSLASH_ESCAPED");
    (SERVER_STATUS_METADATA_CHANGED, "SERVER_STATUS_METADATA_CHANGED");
    (SERVER_QUERY_WAS_SLOW, "SERVER_QUERY_WAS_SLOW");
    (SERVER_PS_OUT_PARAMS, "SERVER_PS_OUT_PARAMS") ].

(** The body of the [switch]: the name appended for one flag. *)
Definition flagName (cases : list (Z * string)) (field : Z) : string :=
  switch field cases (Sprintf_paren_d field).

(** The bit-scan loop shared in shape by both functions:
    [for i := 0; flags != 0; i++ { field := uintW(1 << i); ... }].
    [conv] is the conversion to the flag type.  The loop is run with
    [fuel] iterations at most and returns the names collected and the
    flags not yet cleared; it has left through its condition when the
    latter is 0. *)
Fixpoint scan (conv : Z -> Z) (cases : list (Z * string))
         (fuel : nat) (i : Z) (flags : Z) (names : list string)
  : list string * Z :=
  match fuel with
  | O => (names, flags)
  | S fuel' =>
      if flags =? 0 then (names, flags)
      else
        let field := conv (Z.shiftl 1 i) in
        if Z.land flags field =? 0
        then scan conv cases fuel' (i + 1) flags names
        else
          let flags := Z.lxor flags field in
          scan conv cases fuel' (i + 1) flags (names ++ [flagName cases field])%list
  end.

(** The names collected by [CapabilityString] before they are joined. *)
Definition capabilityNames (capability : Z) : list string :=
  fst (scan uint32 capabilityCases 32 0 capability []).

Definition statusNames (status : Z) : list string :=
  fst (scan uint16 statusCases 16 0 status []).

(** [CapabilityString] and [StatusString] on the field they read. *)
Definition CapabilityString_of (capability : Z) : string :=
  Join (capabilityNames capability) "|".

Definition StatusString_of (status : Z) : string :=
  Join (statusNames status) "|".

(** *** The reader used by the round-trip property

    Stated from the spec's words (re-parsing the rendered names against
    the same bit table); the source has no parser. *)

(** [strings.Split(s, sep)] for a one-character separator. *)
Fixpoint Split (sep : ascii) (s : string) : list string :=
  match s with
  | EmptyString => [EmptyString]
  | String c s' =>
      if Ascii.eqb c sep then EmptyString :: Split sep s'
      else match Split sep s' with
           | [] => [String c EmptyString]
           | w :: ws => String c w :: ws
           end
  end.

(** Removes a final [")"]. *)
Fixpoint dropClose (s : string) : option string :=
  match s with
  | EmptyString => None
  | String c EmptyString => if Ascii.eqb c ")" then Some EmptyString else None
  | String c s' => option_map (String c) (dropClose s')
  end.

(** One name: looked up in the table, else read in the form [(n)]. *)
Definition parseName (cases : list (Z * string)) (s : string) : option Z :=
  match find (fun kv => String.eqb (snd kv) s) cases with
  | Some (k, _) => Some k
  | None =>
      match s with
      | String "(" rest =>
          match dropClose rest with
          | Some digits =>
              option_map (fun u => Z.of_N (N.of_uint u)) (NilZero.uint_of_string digits)
          | None => None
          end
      | _ => None
      end
  end.

Fixpoint parseNames (cases : list (Z * string)) (names : list string) : option Z :=
  match names with
  | [] => Some 0
  | s :: rest =>
      match parseName cases s, parseNames cases rest with
      | Some v, Some acc => Some (Z.lor v acc)
      | _, _ => None
      end
  end.

(** The whole rendering: the empty string is the empty mask. *)
Definition parseFlags (cases : list (Z * string)) (s : string) : option Z :=
  if String.eqb s "" then Some 0 else parseNames cases (Split "|" s).

(** The set bits of [m] below [w], in ascending position. *)
Definition setBits (w : nat) (m : Z) : list nat :=
  filter (fun j => Z.testbit m (Z.of_nat j)) (seq 0 w).

Definition bit (j : nat) : Z := Z.shiftl 1 (Z.of_nat j).

End Flags.

(** ** Errors, results (package mysql) *)

(** Go's [error] values as the session produces and forwards them. *)
Inductive error : Type :=
| ErrBadConn                                  (* mysql.ErrBadConn *)
| ErrMalformPacket                            (* mysql.ErrMalformPacket *)
| MyError (code : Z) (message : string)       (* a server ERR packet, *mysql.MyError *)
| Errorf (message : string)                   (* errors.Errorf / fmt.Errorf / errors.New *)
| Wrapf (message : string) (cause : error)    (* fmt.Errorf("...: %w", err) *)
| OpError (op : string) (waited : Duration)   (* a net.OpError of the dialer *)
| Traced (cause : error).                     (* errors.Trace(err), err non-nil *)

(** [errors.Trace]: nil stays nil. *)
Definition Trace (err : option error) : option error := option_map Traced err.

(** How a Go call ends: it returns, or the goroutine panics.  [OutOfFuel]
    is the model's own: a loop cut by its fuel. *)
Inductive Outcome (A : Type) : Type :=
| Done (a : A)
| Panic (message : string)
| OutOfFuel.
Arguments Done {A} a.
Arguments Panic {A} message.
Arguments OutOfFuel {A}.

Inductive StreamingType : Type := StreamingNone | StreamingSelect | StreamingMultiple.

(** Modelled from the spec: [mysql.Resultset] and [mysql.Result] are declared
    outside conn.go; the spec describes a result as affected rows, last insert
    id, warning count and status flags, or field metadata with rows or a
    streaming marker. *)
Record Resultset : Type := mkResultset {
  Fields : list string;
  Values : list (list (list byte));
  Streaming : StreamingType;
  StreamingDone : bool
}.

Record Result : Type := mkResult {
  Status : Z;
  Warnings : Z;
  InsertId : Z;
  AffectedRows : Z;
  Resultset_ : option Resultset    (* the embedded [*Resultset] *)
}.

(** Modelled from the spec: [mysql.NewResultset(fieldsCount)] is an empty
    resultset with room for [fieldsCount] fields, [mysql.NewResult(rs)] a
    result that holds [rs] and nothing else. *)
Definition NewResultset (fieldsCount : nat) : Resultset :=
  mkResultset (repeat "" fieldsCount) [] StreamingNone false.

Definition NewResult (rs : Resultset) : Result := mkResult 0 0 0 0 (Some rs).

Definition set_Streaming (v : StreamingType) (rs : Resultset) : Resultset :=
  mkResultset (Fields rs) (Values rs) v (StreamingDone rs).
Definition set_StreamingDone (v : bool) (rs : Resultset) : Resultset :=
  mkResultset (Fields rs) (Values rs) (Streaming rs) v.

(** ** The packet transport (package packet) *)

(** One answer of the peer to a read of the session. *)
Inductive ReadResult : Type :=
| ReadErr (e : error)
| ReadData (data : list byte).

(** Modelled from the spec: the raw connection ([net.Conn]) is the dial
    function's result.  It is a script of the peer: the answers to the reads to
    come (a read past the script fails, the peer is gone), the outcomes of the
    writes to come (success past the script), the result of closing; it logs
    the packets handed to it with the outcome of each write. *)
Record RawConn : Type := mkRawConn {
  responses : list ReadResult;
  wscript : list (option error);
  closeErr : option error;
  wlog : list (list byte * option error);
  closed : bool
}.

(** Modelled from the spec: the packet transport ([packet.Conn]) is an
    external collaborator with [ReadPacket], [ReadPacketReuseMem],
    [WritePacket], [Close], a sequence number, a settable compression mode
    and timeouts. *)
Record PacketConn : Type := mkPacketConn {
  raw : RawConn;
  Sequence : Z;
  Compression : Z;
  tls : bool;
  readTimeout : Duration;
  writeTimeout : Duration;
  bufferSize : Z
}.

Definition set_raw (v : RawConn) (t : PacketConn) : PacketConn :=
  mkPacketConn v (Sequence t) (Compression t) (tls t) (readTimeout t) (writeTimeout t)
               (bufferSize t).
Definition set_Sequence (v : Z) (t : PacketConn) : PacketConn :=
  mkPacketConn (raw t) v (Compression t) (tls t) (readTimeout t) (writeTimeout t)
               (bufferSize t).
Definition set_Compression (v : Z) (t : PacketConn) : PacketConn :=
  mkPacketConn (raw t) (Sequence t) v (tls t) (readTimeout t) (writeTimeout t)
               (bufferSize t).

Module Packet.

Definition raw_Close (r : RawConn) : option error * RawConn :=
  (closeErr r, mkRawConn (responses r) (wscript r) (closeErr r) (wlog r) true).

Definition raw_Write (data : list byte) (r : RawConn) : option error * RawConn :=
  let outcome := hd None (wscript r) in
  (outcome,
   mkRawConn (responses r) (tl (wscript r)) (closeErr r)
             (wlog r ++ [(data, outcome)])%list (closed r)).

Definition raw_Read (r : RawConn) : (list byte + error) * RawConn :=
  match responses r with
  | [] => (inr ErrBadConn, r)
  | ReadErr e :: rest =>
      (inr e, mkRawConn rest (wscript r) (closeErr r) (wlog r) (closed r))
  | ReadData data :: rest =>
      (inl data, mkRawConn rest (wscript r) (closeErr r) (wlog r) (closed r))
  end.

Definition NewConnWithTimeout (conn : RawConn) (rt wt : Duration) (bufferSize : Z)
  : PacketConn :=
  mkPacketConn conn 0 MYSQL_COMPRESS_NONE false rt wt bufferSize.

Definition NewTLSConnWithTimeout (conn : RawConn) (rt wt : Duration) : PacketConn :=
  mkPacketConn conn 0 MYSQL_COMPRESS_NONE true rt wt 0.

Definition ResetSequence (t : PacketConn) : PacketConn := set_Sequence 0 t.

Definition nextSequence (t : PacketConn) : Z := (Sequence t + 1) mod 256.

Definition WritePacket (data : list byte) (t : PacketConn) : option error * PacketConn :=
  let (err, r) := raw_Write data (raw t) in
  match err with
  | Some e => (Some e, set_raw r t)
  | None => (None, set_Sequence (nextSequence t) (set_raw r t))
  end.

Definition ReadPacket (t : PacketConn) : (list byte + error) * PacketConn :=
  let (res, r) := raw_Read (raw t) in
  match res with
  | inr e => (inr e, set_raw r t)
  | inl data => (inl data, set_Sequence (nextSequence t) (set_raw r t))
  end.

(** [ReadPacketReuseMem(buf[:0])]: the packet read, in the caller's buffer. *)
Definition ReadPacketReuseMem (t : PacketConn) : (list byte + error) * PacketConn :=
  ReadPacket t.

Definition Close (t : PacketConn) : option error * PacketConn :=
  let (err, r) := raw_Close (raw t) in (err, set_raw r t).

End Packet.

(** ** The session (package client) *)

Record TLSConfig : Type := mkTLSConfig { InsecureSkipVerify : bool }.

Inductive Context : Type :=
| Background
| WithDeadline (parent : Context) (after : Duration).

(** [net.Dialer]. *)
Record NetDialer : Type := mkNetDialer { Timeout : Duration }.

(** [type Dialer func(ctx, network, address) (net.Conn, error)]. *)
Definition Dialer : Type := Context -> string -> string -> RawConn + error.

Definition defaultBufferSize : Z := 65536.

Record Conn : Type := mkConn {
  Conn_ : option PacketConn; (* the embedded [*packet.Conn]; nil until the transport is attached *)
  user : string;
  password : string;
  db : string;
  tlsConfig : option TLSConfig;
  proto : string;
  ReadTimeout : Duration;
  WriteTimeout : Duration;
  BufferSize : Z;
  serverVersion : string;
  capability : Z; (* server capabilities *)
  ccaps : Z; (* client-set capabilities only *)
  attributes : list (string * string);
  status : Z;
  charset : string;
  collation : string; (* the collation to be set on the auth handshake *)
  salt : list byte;
  authPluginName : string;
  connectionID : Z
}.

(** Field assignments [c.f = v]. *)
Definition set_Conn (v : option PacketConn) (c : Conn) : Conn :=
  mkConn v (user c) (password c) (db c) (tlsConfig c) (proto c) (ReadTimeout c)
    (WriteTimeout c) (BufferSize c) (serverVersion c) (capability c) (ccaps c)
    (attributes c) (status c) (charset c) (collation c) (salt c) (authPluginName c)
    (connectionID c).
Definition set_user (v : string) (c : Conn) : Conn :=
  mkConn (Conn_ c) v (password c) (db c) (tlsConfig c) (proto c) (ReadTimeout c)
    (WriteTimeout c) (BufferSize c) (serverVersion c) (capability c) (ccaps c)
    (attributes c) (status c) (charset c) (collation c) (salt c) (authPluginName c)
    (connectionID c).
Definition set_password (v : string) (c : Conn) : Conn :=
  mkConn (Conn_ c) (user c) v (db c) (tlsConfig c) (proto c) (ReadTimeout c)
    (WriteTimeout c) (BufferSize c) (serverVersion c) (capability c) (ccaps c)
    (attributes c) (status c) (charset c) (collation c) (salt c) (authPluginName c)
    (connectionID c).
Definition set_db (v : string) (c : Conn) : Conn :=
  mkConn (Conn_ c) (user c) (password c) v (tlsConfig c) (proto c) (ReadTimeout c)
    (WriteTimeout c) (BufferSize c) (serverVersion c) (capability c) (ccaps c)
    (attributes c) (status c) (charset c) (collation c) (salt c) (authPluginName c)
    (connectionID c).
Definition set_tlsConfig (v : option TLSConfig) (c : Conn) : Conn :=
  mkConn (Conn_ c) (user c) (password c) (db c) v (proto c) (ReadTimeout c)
    (WriteTimeout c) (BufferSize c) (serverVersion c) (capability c) (ccaps c)
    (attributes c) (status c) (charset c) (collation c) (salt c) (authPluginName c)
    (connectionID c).
Definition set_proto (v : string) (c : Conn) : Conn :=
  mkConn (Conn_ c) (user c) (password c) (db c) (tlsConfig c) v (ReadTimeout c)
    (WriteTimeout c) (BufferSize c) (serverVersion c) (capability c) (ccaps c)
    (attributes c) (status c) (charset c) (collation c) (salt c) (authPluginName c)
    (connectionID c).
Definition set_BufferSize (v : Z) (c : Conn) : Conn :=
  mkConn (Conn_ c) (user c) (password c) (db c) (tlsConfig c) (proto c) (ReadTimeout
    c) (WriteTimeout c) v (serverVersion c) (capability c) (ccaps c) (attributes c)
    (status c) (charset c) (collation c) (salt c) (authPluginName c) (connectionID c).
Definition set_serverVersion (v : string) (c : Conn) : Conn :=
  mkConn (Conn_ c) (user c) (password c) (db c) (tlsConfig c) (proto c) (ReadTimeout
    c) (WriteTimeout c) (BufferSize c) v (capability c) (ccaps c) (attributes c)
    (status c) (charset c) (collation c) (salt c) (authPluginName c) (connectionID c).
Definition set_capability (v : Z) (c : Conn) : Conn :=
  mkConn (Conn_ c) (user c) (password c) (db c) (tlsConfig c) (proto c) (ReadTimeout
    c) (WriteTimeout c) (BufferSize c) (serverVersion c) v (ccaps c) (attributes c)
    (status c) (charset c) (collation c) (salt c) (authPluginName c) (connectionID c).
Definition set_ccaps (v : Z) (c : Conn) : Conn :=
  mkConn (Conn_ c) (user c) (password c) (db c) (tlsConfig c) (proto c) (ReadTimeout
    c) (WriteTimeout c) (BufferSize c) (serverVersion c) (capability c) v (attributes
    c) (status c) (charset c) (collation c) (salt c) (authPluginName c) (connectionID
    c).
Definition set_attributes (v : list (string * string)) (c : Conn) : Conn :=
  mkConn (Conn_ c) (user c) (password c) (db c) (tlsConfig c) (proto c) (ReadTimeout
    c) (WriteTimeout c) (BufferSize c) (serverVersion c) (capability c) (ccaps c) v
    (status c) (charset c) (collation c) (salt c) (authPluginName c) (connectionID c).
Definition set_status (v : Z) (c : Conn) : Conn :=
  mkConn (Conn_ c) (user c) (password c) (db c) (tlsConfig c) (proto c) (ReadTimeout
    c) (WriteTimeout c) (BufferSize c) (serverVersion c) (capability c) (ccaps c)
    (attributes c) v (charset c) (collation c) (salt c) (authPluginName c)
    (connectionID c).
Definition set_charset (v : string) (c : Conn) : Conn :=
  mkConn (Conn_ c) (user c) (password c) (db c) (tlsConfig c) (proto c) (ReadTimeout
    c) (WriteTimeout c) (BufferSize c) (serverVersion c) (capability c) (ccaps c)
    (attributes c) (status c) v (collation c) (salt c) (authPluginName c)
    (connectionID c).
Definition set_collation (v : string) (c : Conn) : Conn :=
  mkConn (Conn_ c) (user c) (password c) (db c) (tlsConfig c) (proto c) (ReadTimeout
    c) (WriteTimeout c) (BufferSize c) (serverVersion c) (capability c) (ccaps c)
    (attributes c) (status c) (charset c) v (salt c) (authPluginName c) (connectionID
    c).

(** The zero value made by [new(Conn)]. *)
Definition new_Conn : Conn :=
  mkConn None "" "" "" None "" 0 0 0 "" 0 0 [] 0 "" "" [] "" 0.

(** A method on [*Conn]: it returns a value and leaves the session changed,
    or panics. *)
Definition M (A : Type) : Type := Conn -> Outcome (A * Conn).

Definition ret {A : Type} (a : A) : M A := fun c => Done (a, c).

Definition bind {A B : Type} (m : M A) (k : A -> M B) : M B :=
  fun c =>
    match m c with
    | Done (a, c') => k a c'
    | Panic msg => Panic msg
    | OutOfFuel => OutOfFuel
    end.

Notation "x <- m ;; k" := (bind m (fun x => k))
  (at level 61, m at next level, right associativity).

(** [type Option func(c *Conn) error]. *)
Definition Option : Type := M (option error).

(** The code of the repository and of its libraries that conn.go calls and
    that is not in conn.go. *)
Class Collaborators : Type := {
  (** resp.go: what the decoders of OK packets, ERR packets and resultsets
      make of a packet, a result or an error as Go functions returning
      [(result, err)] give one or the other *)
  decodeOKPacket : Conn -> list byte -> Result + error;
  decodeErrorPacket : Conn -> list byte -> error;
  (** whether the resultset that started with a packet is complete once the
      packets given have been read after it (its column definitions and its
      rows, up to the terminating packet), and what it decodes to then *)
  resultsetComplete : Conn -> list byte -> bool -> list (list byte) -> bool;
  decodeResultset : Conn -> list byte -> bool -> list (list byte) -> Result + error;
  (** auth.go: the phases of the handshake *)
  readInitialHandshake : M (option error);
  writeAuthHandshake : M (option error);
  handleAuthResult : M (option error);
  (** [charset.GetCollationByName]: the ID of the collation *)
  GetCollationByName : string -> Z + error;
  (** [DialContext] of a [net.Dialer] *)
  DialContext : NetDialer -> Dialer;
  (** [runtime.GOOS], [runtime.GOARCH], [runtime.Version()] *)
  runtime_GOOS : string;
  runtime_GOARCH : string;
  runtime_Version : string
}.

Module Client.
Section Methods.

Context {E : Collaborators}.

Definition nilDereference {A : Type} : Outcome A :=
  Panic "invalid memory address or nil pointer dereference".

(** A method of the embedded [*packet.Conn], called on the session. *)
Definition promoted {A : Type} (f : PacketConn -> A * PacketConn) : M A :=
  fun c =>
    match Conn_ c with
    | None => nilDereference
    | Some t => let (a, t') := f t in Done (a, set_Conn (Some t') c)
    end.

Definition ReadPacket : M (list byte + error) := promoted Packet.ReadPacket.
Definition ReadPacketReuseMem : M (list byte + error) := promoted Packet.ReadPacketReuseMem.

(** Modelled from the spec: [writeCommand], [writeCommandStr] (req.go) send
    one command packet, the command byte followed by its argument, as the
    first packet of a new exchange. *)
Definition writeCommand (command : byte) : M (option error) :=
  promoted (fun t => Packet.WritePacket [command] (Packet.ResetSequence t)).

Definition writeCommandStr (command : byte) (arg : string) : M (option error) :=
  promoted (fun t => Packet.WritePacket (command :: list_byte_of_string arg)
                                        (Packet.ResetSequence t)).

(** Modelled from the spec: [handleOKPacket] (resp.go) parses affected rows,
    last insert id, status flags and warning count, and updates the session's
    status flags as a side effect. *)
Definition handleOKPacket (data : list byte) : M (option Result * option error) :=
  fun c =>
    match decodeOKPacket c data with
    | inl r => Done ((Some r, None), set_status (Status r) c)
    | inr e => Done ((None, Some e), c)
    end.

(** Modelled from the spec: [handleErrorPacket] (resp.go) parses the server's
    error code, SQL state and message into an error; the session is not
    changed. *)
Definition handleErrorPacket (data : list byte) : M (option error) :=
  fun c => Done (Some (decodeErrorPacket c data), c).

(** The answers of the peer that the session has not read yet. *)
Definition answers (c : Conn) : list ReadResult :=
  match Conn_ c with
  | None => []
  | Some t => responses (raw t)
  end.

(** Every iteration of a loop that reads takes one of them, so such a loop
    needs no more fuel than their number and one. *)
Definition pending (c : Conn) : nat := List.length (answers c).

(** Modelled from the spec: [readResultset] (resp.go) reads, after the first
    packet, the column-definition packets and the rows up to the terminating
    packet, whose status flags become those of the resultset and of the
    session; a read that fails ends it with the error.  [more] are the packets
    read so far after the first. *)
Fixpoint readResultset_loop (fuel : nat) (data : list byte) (binary : bool)
         (more : list (list byte)) : M (option Result * option error) :=
  match fuel with
  | O => fun _ => OutOfFuel
  | S fuel' =>
      fun c =>
        if resultsetComplete c data binary more then
          match decodeResultset c data binary more with
          | inl r => Done ((Some r, None), set_status (Status r) c)
          | inr e => Done ((None, Some e), c)
          end
        else
          (res <- ReadPacket ;;
           match res with
           | inr err => ret (None, Trace (Some err))
           | inl p => readResultset_loop fuel' data binary (more ++ [p])%list
           end) c
  end.

(** Modelled from the spec: the reading of a resultset starts with no packet
    read after the first; no more packets can be read than the peer has
    answers, which bounds the fuel. *)
Definition readResultset (data : list byte) (binary : bool)
  : M (option Result * option error) :=
  fun c => readResultset_loop (S (pending c)) data binary [] c.

(** Modelled from the spec: [readOK] (resp.go) reads one packet and expects
    an OK. *)
Definition readOK : M (option Result * option error) :=
  res <- ReadPacket ;;
  match res with
  | inr err => ret (None, Trace (Some err))
  | inl data =>
      match data with
      | h :: _ =>
          if Byte.eqb h OK_HEADER then handleOKPacket data
          else if Byte.eqb h ERR_HEADER then
                 err <- handleErrorPacket data ;; ret (None, err)
               else ret (None, Some (Errorf "invalid ok packet"))
      | [] => ret (None, Some (Errorf "invalid ok packet"))
      end
  end.

(** Modelled from the spec: [readResult] (resp.go) reads one packet and
    classifies it by its first byte. *)
Definition readResult (binary : bool) : M (option Result * option error) :=
  res <- ReadPacketReuseMem ;;
  match res with
  | inr err => ret (None, Trace (Some err))
  | inl data =>
      match data with
      | h :: _ =>
          if Byte.eqb h OK_HEADER then handleOKPacket data
          else if Byte.eqb h ERR_HEADER then
                 err <- handleErrorPacket data ;; ret (None, err)
               else if Byte.eqb h LocalInFile_HEADER then ret (None, Some ErrMalformPacket)
                    else readResultset data binary
      | [] => readResultset data binary
      end
  end.

Definition getNetProto (addr : string) : string :=
  let proto := "tcp" in
  if Contains addr "/" then "unix" else proto.

Definition Close : M (option error) := promoted Packet.Close.

Definition Quit : M (option error) :=
  err <- writeCommand COM_QUIT ;;
  match err with
  | Some e => ret (Some e)
  | None => Close
  end.

Definition Ping : M (option error) :=
  err <- writeCommand COM_PING ;;
  match err with
  | Some e => ret (Trace (Some e))
  | None =>
      r <- readOK ;;
      match snd r with
      | Some e => ret (Trace (Some e))
      | None => ret None
      end
  end.

Definition SetCapability (cap : Z) : M unit :=
  fun c => Done (tt, set_ccaps (Z.lor (ccaps c) cap) c).

Definition UnsetCapability (cap : Z) : M unit :=
  fun c => Done (tt, set_ccaps (Z.land (ccaps c) (uint32 (Z.lnot cap))) c).

Definition HasCapability (cap : Z) (c : Conn) : bool :=
  Z.land (ccaps c) cap >? 0.

Definition UseSSL (insecureSkipVerify : bool) : M unit :=
  fun c => Done (tt, set_tlsConfig (Some (mkTLSConfig insecureSkipVerify)) c).

Definition UseDB (dbName : string) : M (option error) :=
  fun c =>
    if String.eqb (db c) dbName then Done (None, c)
    else
      (err <- writeCommandStr COM_INIT_DB dbName ;;
       match err with
       | Some e => ret (Trace (Some e))
       | None =>
           r <- readOK ;;
           match snd r with
           | Some e => ret (Trace (Some e))
           | None => fun c' => Done (None, set_db dbName c')
           end
       end) c.

Definition GetDB (c : Conn) : string := db c.

Definition GetServerVersion (c : Conn) : string := serverVersion c.

Definition exec (query : string) : M (option Result * option error) :=
  err <- writeCommandStr COM_QUERY query ;;
  match err with
  | Some e => ret (None, Trace (Some e))
  | None => readResult false
  end.

Definition SetCollation (collation : string) : M (option error) :=
  fun c =>
    if negb (Nat.eqb (String.length (serverVersion c)) 0)
    then Done (Trace (Some (Errorf "cannot set collation after connection is established")), c)
    else Done (None, set_collation collation c).

Definition GetCollation (c : Conn) : string := collation c.

Definition IsAutoCommit (c : Conn) : bool :=
  Z.land (status c) SERVER_STATUS_AUTOCOMMIT >? 0.

Definition IsInTransaction (c : Conn) : bool :=
  Z.land (status c) SERVER_STATUS_IN_TRANS >? 0.

Definition CapabilityString (c : Conn) : string :=
  Flags.CapabilityString_of (capability c).

Definition StatusString (c : Conn) : string :=
  Flags.StatusString_of (status c).

(** *** ExecuteMultiple *)

(** [type ExecPerResultCallback func(result *Result, err error)].  The
    callback runs on the caller's state [U]; it receives the pointer
    [result], so it also says what it leaves in the pointed result. *)
Definition ExecPerResultCallback (U : Type) : Type :=
  option Result -> option error -> U -> U * (Result -> Result).

(** One iteration of the loop that reached the callback: the packet read,
    the arguments of the invocation, and the pointed result as the
    callback left it. *)
Record Call : Type := mkCall {
  call_packet : list byte;
  call_result : option Result;
  call_err : option error;
  call_left : option Result
}.

(** How the [for] loop is left: by [return nil, errors.Trace(err)] or by
    [break]. *)
Inductive LoopExit : Type :=
| ReturnErr (err : option error)
| Break.

Definition indexOutOfRange {A : Type} : Outcome A :=
  Panic "index out of range [0] with length 0".

(** The [switch bs.B[0]] of the loop. *)
Definition dispatch (B0 : byte) (B : list byte) : M (option Result * option error) :=
  if Byte.eqb B0 OK_HEADER then handleOKPacket B
  else if Byte.eqb B0 ERR_HEADER then
         err <- handleErrorPacket B ;; ret (None, err)
       else if Byte.eqb B0 LocalInFile_HEADER then ret (None, Some ErrMalformPacket)
            else readResultset B false.

(** The [for] loop, cut after [fuel] iterations.  [calls] logs the
    iterations that reached the callback, oldest first. *)
Fixpoint ExecuteMultiple_loop {U : Type} (fuel : nat)
         (perResultCallback : ExecPerResultCallback U) (u : U) (calls : list Call)
  : M (LoopExit * U * list Call) :=
  match fuel with
  | O => fun _ => OutOfFuel
  | S fuel' =>
      res <- ReadPacketReuseMem ;;
      match res with
      | inr err => ret (ReturnErr (Trace (Some err)), u, calls)
      | inl B =>
          match B with
          | [] => fun _ => indexOutOfRange
          | B0 :: _ =>
              r <- dispatch B0 B ;;
              let (result, err) := r : option Result * option error in
              (* call user-defined callback *)
              let (u', touch) := perResultCallback result err u in
              let left := option_map touch result in
              let calls := (calls ++ [mkCall B result err left])%list in
              (* if there was an error of this was the last result, stop looping *)
              match err, left with
              | Some _, _ => ret (Break, u', calls)
              | None, None => fun _ => nilDereference
              | None, Some res =>
                  if Z.land (Status res) SERVER_MORE_RESULTS_EXISTS =? 0
                  then ret (Break, u', calls)
                  else ExecuteMultiple_loop fuel' perResultCallback u' calls
              end
          end
      end
  end.

(** The result returned after the loop: an empty result(set) signaling the
    end of a streaming session of multiple results. *)
Definition streamingDoneResult : Result :=
  let rs := NewResultset 0 in
  let rs := set_Streaming StreamingMultiple rs in
  let rs := set_StreamingDone true rs in
  NewResult rs.

(** What a run of [ExecuteMultiple] returns and did. *)
Record MultiRun (U : Type) : Type := mkMultiRun {
  ret_result : option Result;
  ret_err : option error;
  user_state : U;
  calls : list Call
}.
Arguments mkMultiRun {U}.
Arguments ret_result {U}.
Arguments ret_err {U}.
Arguments user_state {U}.
Arguments calls {U}.

Definition ExecuteMultiple {U : Type} (query : string)
           (perResultCallback : ExecPerResultCallback U) (u : U) : M (MultiRun U) :=
  err <- writeCommandStr COM_QUERY query ;;
  match err with
  | Some e => ret (mkMultiRun None (Trace (Some e)) u [])
  | None =>
      fun c =>
        (out <- ExecuteMultiple_loop (S (pending c)) perResultCallback u [] ;;
         let '(exit, u', calls) := out in
         match exit with
         | ReturnErr e => ret (mkMultiRun None e u' calls)
         | Break => ret (mkMultiRun (Some streamingDoneResult) None u' calls)
         end) c
  end.

(** *** Connecting *)

Definition handshake : M (option error) :=
  err <- readInitialHandshake ;;
  match err with
  | Some e =>
      _ <- Close ;;
      ret (Trace (Some (Wrapf "readInitialHandshake: " e)))
  | None =>
      err <- writeAuthHandshake ;;
      match err with
      | Some e =>
          _ <- Close ;;
          ret (Trace (Some (Wrapf "writeAuthHandshake: " e)))
      | None =>
          err <- handleAuthResult ;;
          match err with
          | Some e =>
              _ <- Close ;;
              ret (Trace (Some (Wrapf "handleAuthResult: " e)))
          | None => ret None
          end
      end
  end.

(** [for _, option := range options { if err := option(c); err != nil ... }]:
    the first error met, if any. *)
Fixpoint applyOptions (options : list Option) : M (option error) :=
  match options with
  | [] => ret None
  | option :: rest =>
      err <- option ;;
      match err with
      | Some e => ret (Some e)
      | None => applyOptions rest
      end
  end.

(** [c.Conn.Compression = v]. *)
Definition assignCompression (v : Z) : M unit :=
  promoted (fun t => (tt, set_Compression v t)).

(** What a connect entry point returns, and the connection it dialed as it
    leaves it ([None] when the dial failed). *)
Record Connected : Type := mkConnected {
  conn : option Conn;
  conn_err : option error;
  dialed : option RawConn
}.

Definition rawOf (fallback : RawConn) (c : Conn) : option RawConn :=
  match Conn_ c with
  | Some t => Some (raw t)
  | None => Some fallback
  end.

(** The part of [ConnectWithDialer] after the handshake, first the choice
    of the compression codec:
    [if c.ccaps&CLIENT_COMPRESS > 0 { ... } else if ... { ... }]. *)
Definition chooseCompression : M unit :=
  fun c =>
    if Z.land (ccaps c) CLIENT_COMPRESS >? 0
    then assignCompression MYSQL_COMPRESS_ZLIB c
    else if Z.land (ccaps c) CLIENT_ZSTD_COMPRESSION_ALGORITHM >? 0
         then assignCompression MYSQL_COMPRESS_ZSTD c
         else Done (tt, c).

(** Then the collation: if a collation was set with a ID of > 255, then we
    need to call SET NAMES ... since the auth handshake response only
    support collations with 1-byte ids. *)
Definition setNamesForCollation : M (option error) :=
  fun c =>
    if negb (Nat.eqb (String.length (collation c)) 0) then
      match GetCollationByName (collation c) with
      | inr _ =>
          (_ <- Close ;;
           ret (Trace (Some (Errorf ("invalid collation name " ++ collation c))))) c
      | inl ID =>
          if ID >? 255 then
            (r <- exec ("SET NAMES " ++ charset c ++ " COLLATE " ++ collation c) ;;
             match snd r with
             | Some e => _ <- Close ;; ret (Trace (Some e))
             | None => ret None
             end) c
          else Done (None, c)
      end
    else Done (None, c).

Definition afterHandshake : M (option error) :=
  _ <- chooseCompression ;; setNamesForCollation.

Definition ConnectWithDialer (ctx : Context)
           (network addr user password dbName : string)
           (dialer : Dialer) (options : list Option) : Outcome Connected :=
  let c := new_Conn in
  let c := set_BufferSize defaultBufferSize c in
  let c := set_attributes [("_client_name", "go-mysql");
                           ("_os", runtime_GOOS);
                           ("_platform", runtime_GOARCH);
                           ("_runtime_version", runtime_Version)] c in
  let network := if String.eqb network "" then getNetProto addr else network in
  match dialer ctx network addr with
  | inr err => Done (mkConnected None (Trace (Some err)) None)
  | inl conn =>
      let c := set_user user c in
      let c := set_password password c in
      let c := set_db dbName c in
      let c := set_proto network c in
      (* use default charset here, utf-8 *)
      let c := set_charset DEFAULT_CHARSET c in
      (* Apply configuration functions. *)
      match applyOptions options c with
      | Panic msg => Panic msg
      | OutOfFuel => OutOfFuel
      | Done (Some err, _) =>
          (* must close the connection in the event the provided configuration
             is not valid *)
          Done (mkConnected None (Some err) (Some (snd (Packet.raw_Close conn))))
      | Done (None, c) =>
          let c := set_Conn (Some (Packet.NewConnWithTimeout
                                     conn (ReadTimeout c) (WriteTimeout c) (BufferSize c))) c in
          let c := match tlsConfig c with
                   | Some _ =>
                       let seq := match Conn_ c with Some t => Sequence t | None => 0 end in
                       set_Conn (Some (set_Sequence seq
                                         (Packet.NewTLSConnWithTimeout
                                            conn (ReadTimeout c) (WriteTimeout c)))) c
                   | None => c
                   end in
          match (err <- handshake ;;
                 match err with
                 | Some e =>
                     (* in the event of an error c.handshake() will close the
                        connection *)
                     ret (Trace (Some e))
                 | None => afterHandshake
                 end) c with
          | Panic msg => Panic msg
          | OutOfFuel => OutOfFuel
          | Done (Some err, c) => Done (mkConnected None (Some err) (rawOf conn c))
          | Done (None, c) => Done (mkConnected (Some c) None (rawOf conn c))
          end
      end
  end.

(** ConnectWithContext to a MySQL addr using the provided context. *)
Definition ConnectWithContext (ctx : Context) (addr user password dbName : string)
           (timeout : Duration) (options : list Option) : Outcome Connected :=
  let dialer := mkNetDialer timeout in
  ConnectWithDialer ctx "" addr user password dbName (DialContext dialer) options.

(** ConnectWithTimeout to a MySQL address using a timeout. *)
Definition ConnectWithTimeout (addr user password dbName : string)
           (timeout : Duration) (options : list Option) : Outcome Connected :=
  ConnectWithContext Background addr user password dbName (Second * 10) options.

Definition Connect (addr user password dbName : string) (options : list Option)
  : Outcome Connected :=
  ConnectWithTimeout addr user password dbName (Second * 10) options.

(** *** The other methods of the session *)

(** SetTLSConfig: use user-specified TLS config. *)
Definition SetTLSConfig (config : option TLSConfig) : M unit :=
  fun c => Done (tt, set_tlsConfig config c).

Definition Begin : M (option error) :=
  r <- exec "BEGIN" ;; ret (Trace (snd r)).

Definition Commit : M (option error) :=
  r <- exec "COMMIT" ;; ret (Trace (snd r)).

Definition Rollback : M (option error) :=
  r <- exec "ROLLBACK" ;; ret (Trace (snd r)).

(** [m[k] = v] on a Go map held as an association list with one entry for
    each key. *)
Fixpoint mapAssign (k v : string) (m : list (string * string)) : list (string * string) :=
  match m with
  | [] => [(k, v)]
  | (k', v') :: m' =>
      if String.eqb k' k then (k, v) :: m' else (k', v') :: mapAssign k v m'
  end.

(** [v, ok := m[k]]. *)
Fixpoint mapIndex (k : string) (m : list (string * string)) : option string :=
  match m with
  | [] => None
  | (k', v') :: m' => if String.eqb k' k then Some v' else mapIndex k m'
  end.

(** [for k, v := range attributes { c.attributes[k] = v }], the pairs of the
    argument taken in the order the [range] yields them.  The zero [Conn] has
    a nil map, on which the assignment panics; no code of the file makes an
    empty map that is not nil, so the empty list stands for the nil map. *)
Fixpoint SetAttributes (attributes_ : list (string * string)) : M unit :=
  match attributes_ with
  | [] => ret tt
  | (k, v) :: rest =>
      fun c =>
        match attributes c with
        | [] => Panic "assignment to entry in nil map"
        | m => SetAttributes rest (set_attributes (mapAssign k v m) c)
        end
  end.

Definition SetCharset (charset_ : string) : M (option error) :=
  fun c =>
    if String.eqb (charset c) charset_ then Done (None, c)
    else
      (r <- exec ("SET NAMES " ++ charset_) ;;
       match snd r with
       | Some e => ret (Trace (Some e))
       | None => fun c' => Done (None, set_charset charset_ c')
       end) c.

Definition SetAutoCommit : M (option error) :=
  fun c =>
    if negb (IsAutoCommit c) then
      (r <- exec "SET AUTOCOMMIT = 1" ;;
       match snd r with
       | Some e => ret (Trace (Some e))
       | None => ret None
       end) c
    else Done (None, c).

Definition GetCharset (c : Conn) : string := charset c.

Definition GetConnectionID (c : Conn) : Z := connectionID c.

End Methods.

Arguments mkMultiRun {U}.
Arguments ret_result {U}.
Arguments ret_err {U}.
Arguments user_state {U}.
Arguments calls {U}.

(** The code that [FieldList] calls and that is not in conn.go. *)
Class FieldDecoders : Type := {
  Field : Type;
  (** resp.go: whether a packet is the EOF packet *)
  isEOFPacket : list byte -> bool;
  (** [FieldData(data).Parse()] of package mysql: a field or an error *)
  parseField : list byte -> Field + error
}.

Section FieldListMethod.

Context {E : Collaborators} {F : FieldDecoders}.

(** Modelled from the spec: [writeCommandStrStr] (req.go) sends one command
    packet, the command byte followed by its two arguments, the first closed
    by a zero byte. *)
Definition writeCommandStrStr (command : byte) (arg1 arg2 : string) : M (option error) :=
  promoted (fun t => Packet.WritePacket
                       (command :: list_byte_of_string arg1 ++ x00 :: list_byte_of_string arg2)%list
                       (Packet.ResetSequence t)).

(** The [for] loop of [FieldList], cut after [fuel] iterations; [fs] are the
    fields appended so far. *)
Fixpoint FieldList_loop (fuel : nat) (fs : list Field)
  : M (option (list Field) * option error) :=
  match fuel with
  | O => fun _ => OutOfFuel
  | S fuel' =>
      res <- ReadPacket ;;
      match res with
      | inr err => ret (None, Trace (Some err))
      | inl data =>
          match data with
          | [] => fun _ => indexOutOfRange
          | d0 :: _ =>
              (* ERR Packet *)
              if Byte.eqb d0 ERR_HEADER then
                err <- handleErrorPacket data ;; ret (None, err)
              else
                (* EOF Packet *)
                if isEOFPacket data then ret (Some fs, None)
                else
                  match parseField data with
                  | inr err => ret (None, Trace (Some err))
                  | inl f => FieldList_loop fuel' (fs ++ [f])%list
                  end
          end
      end
  end.

Definition FieldList (table wildcard : string) : M (option (list Field) * option error) :=
  err <- writeCommandStrStr COM_FIELD_LIST table wildcard ;;
  match err with
  | Some e => ret (None, Trace (Some e))
  | None => fun c => FieldList_loop (S (pending c)) [] c
  end.

End FieldListMethod.

End Client.

(** ** A sample world

    Concrete collaborators, to run the session on concrete inputs. *)

Module Sample.

Definition le16 (b0 b1 : byte) : Z :=
  Z.of_N (Byte.to_N b0) + 256 * Z.of_N (Byte.to_N b1).

Definition le32 (b0 b1 b2 b3 : byte) : Z :=
  le16 b0 b1 + 65536 * le16 b2 b3.

(** Modelled from the spec: an OK packet carries affected rows, last insert
    id, status flags and warning count; here each count is one byte. *)
Definition decodeOK (_ : Conn) (data : list byte) : Result + error :=
  match data with
  | _ :: rows :: id :: s0 :: s1 :: w0 :: w1 :: _ =>
      inl (mkResult (le16 s0 s1) (le16 w0 w1) (Z.of_N (Byte.to_N id))
                    (Z.of_N (Byte.to_N rows)) None)
  | _ => inr ErrMalformPacket
  end.

(** Modelled from the spec: an ERR packet carries the server's error code
    and message. *)
Definition decodeError (_ : Conn) (data : list byte) : error :=
  match data with
  | _ :: c0 :: c1 :: message => MyError (le16 c0 c1) (string_of_list_byte message)
  | _ => ErrMalformPacket
  end.

(** Modelled from the spec: a resultset is complete with its terminating
    packet, here the first packet after the column count that starts with the
    EOF header; its final status flags are the two bytes of that packet after
    the warning count, the packets before it name the columns. *)
Definition rowsComplete (_ : Conn) (_ : list byte) (_ : bool) (more : list (list byte))
  : bool :=
  match rev more with
  | (h :: _) :: _ => Byte.eqb h EOF_HEADER
  | _ => false
  end.

Definition decodeRows (_ : Conn) (data : list byte) (_ : bool) (more : list (list byte))
  : Result + error :=
  match data, rev more with
  | _ :: _, (_ :: _ :: _ :: s0 :: s1 :: _) :: columns =>
      inl (mkResult (le16 s0 s1) 0 0 0
                    (Some (mkResultset (map string_of_list_byte (rev columns)) []
                                       StreamingNone false)))
  | _, _ => inr ErrMalformPacket
  end.

(** Modelled from the spec: the greeting carries the protocol version, the
    server capability bitmask and the server version string, which the
    session records. *)
Definition readGreeting : M (option error) :=
  fun c =>
    match Client.promoted Packet.ReadPacket c with
    | Done (inl (_ :: b0 :: b1 :: b2 :: b3 :: version), c') =>
        Done (None, set_serverVersion (string_of_list_byte version)
                      (set_capability (le32 b0 b1 b2 b3) c'))
    | Done (inl _, c') => Done (Some ErrMalformPacket, c')
    | Done (inr e, c') => Done (Some e, c')
    | Panic msg => Panic msg
    | OutOfFuel => OutOfFuel
    end.

(** Modelled from the spec: the authentication response names the user. *)
Definition writeAuth : M (option error) :=
  fun c => Client.promoted (Packet.WritePacket (list_byte_of_string (user c))) c.

(** Modelled from the spec: the authentication result is an OK packet or an
    ERR packet. *)
Definition readAuthResult : M (option error) :=
  fun c =>
    match Client.promoted Packet.ReadPacket c with
    | Done (inl (h :: rest), c') =>
        if Byte.eqb h OK_HEADER then Done (None, c')
        else Done (Some (decodeError c' (h :: rest)), c')
    | Done (inl [], c') => Done (Some ErrMalformPacket, c')
    | Done (inr e, c') => Done (Some e, c')
    | Panic msg => Panic msg
    | OutOfFuel => OutOfFuel
    end.

Definition collationID (name : string) : Z + error :=
  if String.eqb name "utf8_general_ci" then inl 33
  else if String.eqb name "utf8mb4_0900_ai_ci" then inl 255
       else if String.eqb name "utf8mb4_ja_0900_as_cs" then inl 303
            else inr (Errorf "Unknown collation").

(** A network on which no host answers: the dial gives up when the dialer's
    timeout has passed. *)
Definition noAnswer (d : NetDialer) : Dialer :=
  fun _ _ _ => inr (OpError "dial" (Timeout d)).

#[export] Instance world : Collaborators := {|
  decodeOKPacket := decodeOK;
  decodeErrorPacket := decodeError;
  resultsetComplete := rowsComplete;
  decodeResultset := decodeRows;
  readInitialHandshake := readGreeting;
  writeAuthHandshake := writeAuth;
  handleAuthResult := readAuthResult;
  GetCollationByName := collationID;
  DialContext := noAnswer;
  runtime_GOOS := "linux";
  runtime_GOARCH := "amd64";
  runtime_Version := "go1.22"
|}.

(** A peer that answers the reads with [answers] and fails the writes as
    [writes] says. *)
Definition peer (answers : list ReadResult) (writes : list (option error)) : RawConn :=
  mkRawConn answers writes None [] false.

(** An established session on [r], with database [dbName]. *)
Definition session (r : RawConn) (dbName : string) : Conn :=
  set_db dbName
    (set_serverVersion "8.0.36"
       (set_Conn (Some (Packet.NewConnWithTimeout r 0 0 defaultBufferSize)) new_Conn)).

(** A dial function that reaches the peer [r] whatever the address. *)
Definition reach (r : RawConn) : Dialer := fun _ _ _ => inl r.

(** The option that requests a capability. *)
Definition WithCapability (cap : Z) : Option :=
  fun c => match Client.SetCapability cap c with
           | Done (_, c') => Done (None, c')
           | Panic msg => Panic msg
           | OutOfFuel => OutOfFuel
           end.

(** A greeting of a server that advertises the capabilities in
    [b0 b1 b2 b3] (little endian), then accepts the authentication. *)
Definition greets (b0 b1 b2 b3 : byte) : RawConn :=
  peer [ReadData (x0a :: b0 :: b1 :: b2 :: b3 :: list_byte_of_string "8.0.36");
        ReadData [x00; x00; x00; x02; x00; x00; x00]] [].

(** A callback that counts its invocations and leaves the result alone. *)
Definition counting : Client.ExecPerResultCallback nat :=
  fun _ _ n => (S n, fun r => r).

(** Modelled from the spec: a field-definition packet names a column; the EOF
    packet starts with the EOF header and is short. *)
#[export] Instance fieldDecoders : Client.FieldDecoders := {|
  Client.Field := string;
  Client.isEOFPacket :=
    fun data =>
      match data with
      | h :: _ => Byte.eqb h EOF_HEADER && (List.length data <=? 5)%nat
      | [] => false
      end;
  Client.parseField :=
    fun data =>
      match data with
      | x00 :: _ => inr ErrMalformPacket
      | _ => inl (string_of_list_byte data)
      end
|}.

End Sample.


Import Client.

(** * The vocabulary of the properties *)

(** The fields that reading and writing packets never assigns: all but the
    transport and the status flags. *)
Definition settings (c : Conn) : Conn := set_status 0 (set_Conn None c).

Definition compressionOf (c : Conn) : option Z := option_map Compression (Conn_ c).

(** A method that changes nothing but the transport's stream and the status
    flags. *)
Definition framed {A : Type} (m : M A) : Prop :=
  forall c a c', m c = Done (a, c') ->
    settings c' = settings c /\ compressionOf c' = compressionOf c.

(** The negotiated capabilities in the spec's words: client-requested AND
    server-advertised. *)
Definition negotiated (c : Conn) : Z := Z.land (ccaps c) (capability c).

(** The invocation after which the loop goes on: no error, and the result,
    as the callback left it, flags more results. *)
Definition continuing (k : Call) : bool :=
  match call_err k, call_left k with
  | None, Some r => negb (Z.land (Status r) SERVER_MORE_RESULTS_EXISTS =? 0)
  | _, _ => false
  end.

Section ResponseVocabulary.

Context {E : Collaborators}.

(** The specification (4.3) on a packet that starts a resultset: the packets
    after it are read until they complete the resultset, which is then
    decoded; a read that fails ends the reading with its error.
    [ReadsResultset c data binary more avail rest result err]: after the first
    packet [data] and the packets [more], with the answers [avail] of the peer
    ahead, the reading leaves the answers [rest] and yields [result] and
    [err].  The decoders run in a state of the session [c] that differs from
    it by the transport and the status flags at most. *)
Inductive ReadsResultset (c : Conn) (data : list byte) (binary : bool)
  : list (list byte) -> list ReadResult -> list ReadResult
    -> option Result -> option error -> Prop :=
| Resultset_decoded (more : list (list byte)) (avail : list ReadResult)
                    (ck : Conn) (r : Result) :
    settings ck = settings c ->
    resultsetComplete ck data binary more = true ->
    decodeResultset ck data binary more = inl r ->
    ReadsResultset c data binary more avail avail (Some r) None
| Resultset_malformed (more : list (list byte)) (avail : list ReadResult)
                      (ck : Conn) (e : error) :
    settings ck = settings c ->
    resultsetComplete ck data binary more = true ->
    decodeResultset ck data binary more = inr e ->
    ReadsResultset c data binary more avail avail None (Some e)
| Resultset_read_fails (more : list (list byte)) (avail : list ReadResult)
                       (ck : Conn) (e : error) :
    settings ck = settings c ->
    resultsetComplete ck data binary more = false ->
    ReadsResultset c data binary more (ReadErr e :: avail) avail
                   None (Some (Traced e))
| Resultset_peer_gone (more : list (list byte)) (ck : Conn) :
    settings ck = settings c ->
    resultsetComplete ck data binary more = false ->
    ReadsResultset c data binary more [] [] None (Some (Traced ErrBadConn))
| Resultset_next (more : list (list byte)) (p : list byte)
                 (avail rest : list ReadResult) (ck : Conn)
                 (result : option Result) (err : option error) :
    settings ck = settings c ->
    resultsetComplete ck data binary more = false ->
    ReadsResultset c data binary (more ++ [p])%list avail rest result err ->
    ReadsResultset c data binary more (ReadData p :: avail) rest result err.

(** The specification (4.3) on the classification of a response by the first
    byte of its first packet [data]: an OK packet is parsed into a result, an
    ERR packet into the server's error, a local-infile request is a malformed
    packet, and anything else starts a resultset.  [Classifies c data avail
    rest result err]: with the answers [avail] ahead after [data], the
    response leaves [rest] and is handed over as [result] and [err]. *)
Inductive Classifies (c : Conn) (data : list byte)
  : list ReadResult -> list ReadResult -> option Result -> option error -> Prop :=
| Classifies_OK (avail : list ReadResult) (ck : Conn) (r : Result) :
    hd_error data = Some OK_HEADER ->
    settings ck = settings c ->
    decodeOKPacket ck data = inl r ->
    Classifies c data avail avail (Some r) None
| Classifies_OK_malformed (avail : list ReadResult) (ck : Conn) (e : error) :
    hd_error data = Some OK_HEADER ->
    settings ck = settings c ->
    decodeOKPacket ck data = inr e ->
    Classifies c data avail avail None (Some e)
| Classifies_ERR (avail : list ReadResult) (ck : Conn) :
    hd_error data = Some ERR_HEADER ->
    settings ck = settings c ->
    Classifies c data avail avail None (Some (decodeErrorPacket ck data))
| Classifies_LocalInFile (avail : list ReadResult) :
    hd_error data = Some LocalInFile_HEADER ->
    Classifies c data avail avail None (Some ErrMalformPacket)
| Classifies_resultset (B0 : byte) (avail rest : list ReadResult)
                       (result : option Result) (err : option error) :
    hd_error data = Some B0 ->
    B0 <> OK_HEADER -> B0 <> ERR_HEADER -> B0 <> LocalInFile_HEADER ->
    ReadsResultset c data false [] avail rest result err ->
    Classifies c data avail rest result err.

(** The iterations [ks] are the responses of the peer, one for one and in
    their order: of the answers [avail] each iteration takes its packet and
    what the classification of that packet reads, its invocation has the
    classification for arguments, and [rest] are the answers after the
    last. *)
Fixpoint answered (c : Conn) (ks : list Call) (avail rest : list ReadResult) : Prop :=
  match ks with
  | [] => rest = avail
  | k :: ks' =>
      exists ahead next,
        avail = ReadData (call_packet k) :: ahead
        /\ Classifies c (call_packet k) ahead next (call_result k) (call_err k)
        /\ answered c ks' next rest
  end.

End ResponseVocabulary.

Section LoopRunsVocabulary.

Context {E : Collaborators} {U : Type}.
Variable perResultCallback : ExecPerResultCallback U.

(** The state of the caller after the invocation [k] in state [u]. *)
Definition invoke (u : U) (k : Call) : U :=
  fst (perResultCallback (call_result k) (call_err k) u).

(** The caller's state after the invocations [ks], in this order. *)
Definition replay (ks : list Call) (u : U) : U := fold_left invoke ks u.

(** Each iteration of [ks] logs, as the result left by the callback, what
    the callback invoked in the caller's state of that time leaves. *)
Fixpoint touched (u : U) (ks : list Call) : Prop :=
  match ks with
  | [] => True
  | k :: ks' =>
      call_left k
      = option_map (snd (perResultCallback (call_result k) (call_err k) u)) (call_result k)
      /\ touched (invoke u k) ks'
  end.

(** The runs of the loop: [Iterates c u ks exit u' c'] when the loop entered
    with session [c] and caller's state [u] makes the iterations [ks] and
    leaves by [exit] with [u'] and [c']. *)
Inductive Iterates : Conn -> U -> list Call -> LoopExit -> U -> Conn -> Prop :=
| Iterates_read_fails (c : Conn) (u : U) (e : error) (c1 : Conn) :
    ReadPacketReuseMem c = Done (inr e, c1) ->
    Iterates c u [] (ReturnErr (Some (Traced e))) u c1
| Iterates_last (c : Conn) (u : U) (B0 : byte) (B : list byte) (c1 c2 : Conn)
                (result : option Result) (err : option error) (k : Call) :
    ReadPacketReuseMem c = Done (inl (B0 :: B), c1) ->
    dispatch B0 (B0 :: B) c1 = Done ((result, err), c2) ->
    k = mkCall (B0 :: B) result err
               (option_map (snd (perResultCallback result err u)) result) ->
    continuing k = false ->
    Iterates c u [k] Break (invoke u k) c2
| Iterates_next (c : Conn) (u : U) (B0 : byte) (B : list byte) (c1 c2 : Conn)
                (result : option Result) (err : option error) (k : Call)
                (ks : list Call) (exit : LoopExit) (u' : U) (c3 : Conn) :
    ReadPacketReuseMem c = Done (inl (B0 :: B), c1) ->
    dispatch B0 (B0 :: B) c1 = Done ((result, err), c2) ->
    k = mkCall (B0 :: B) result err
               (option_map (snd (perResultCallback result err u)) result) ->
    continuing k = true ->
    Iterates c2 (invoke u k) ks exit u' c3 ->
    Iterates c u (k :: ks) exit u' c3.

End LoopRunsVocabulary.

Section FieldListVocabulary.

Context {E : Collaborators} {F : FieldDecoders}.

(** A packet that [FieldList] takes for the definition of the field [f]: it
    has a first byte, which is not the ERR header, it is not the EOF packet,
    and it parses into [f]. *)
Definition fieldPacket (p : list byte) (f : Field) : Prop :=
  (exists d0, hd_error p = Some d0 /\ d0 <> ERR_HEADER)
  /\ isEOFPacket p = false
  /\ parseField p = inl f.

(** The packet that ends the list of the fields: the EOF packet, which does
    not start with the ERR header. *)
Definition endOfFields (p : list byte) : Prop :=
  (exists d0, hd_error p = Some d0 /\ d0 <> ERR_HEADER)
  /\ isEOFPacket p = true.

(** How the reading of the fields ends.  After the field packets [pkts],
    whose fields are [fs], the answers [avail] of the peer go on with the EOF
    packet, and the fields are returned; or with a failed read, or with
    nothing, the peer is gone, or with an ERR packet, or with a packet that
    does not parse, and an error is returned without a list.  [rest] are the
    answers left unread; the ERR packet is decoded in a state of the session
    [c] that differs from it by the transport and the status flags at
    most. *)
Definition fieldsEnd (c : Conn) (pkts : list (list byte)) (fs : list Field)
           (avail rest : list ReadResult)
           (r : option (list Field)) (e : option error) : Prop :=
  (exists eof,
      avail = (map ReadData pkts ++ ReadData eof :: rest)%list
      /\ endOfFields eof
      /\ r = Some fs /\ e = None)
  \/ (exists e0,
         avail = (map ReadData pkts ++ ReadErr e0 :: rest)%list
         /\ r = None /\ e = Some (Traced e0))
  \/ (avail = map ReadData pkts /\ rest = []
      /\ r = None /\ e = Some (Traced ErrBadConn))
  \/ (exists p ck,
         avail = (map ReadData pkts ++ ReadData p :: rest)%list
         /\ hd_error p = Some ERR_HEADER
         /\ settings ck = settings c
         /\ r = None /\ e = Some (decodeErrorPacket ck p))
  \/ (exists p e0,
         avail = (map ReadData pkts ++ ReadData p :: rest)%list
         /\ (exists d0, hd_error p = Some d0 /\ d0 <> ERR_HEADER)
         /\ isEOFPacket p = false
         /\ parseField p = inr e0
         /\ r = None /\ e = Some (Traced e0)).

End FieldListVocabulary.

(** [s] holds no separator. *)
Fixpoint noSep (sep : ascii) (s : string) : bool :=
  match s with
  | EmptyString => true
  | String c s' => negb (Ascii.eqb c sep) && noSep sep s'
  end.

(** The mask whose set bits are [js]. *)
Definition maskOf (js : list nat) : Z :=
  fold_right (fun j acc => Z.lor (Flags.bit j) acc) 0 js.

(** What the round trip needs of a table of [w] flags: the name rendered for
    each single bit holds no ["|"], is not empty, and reads back as that
    bit. *)
Definition readable (w : nat) (cases : list (Z * string)) : bool :=
  forallb (fun j =>
             let name := Flags.flagName cases (Flags.bit j) in
             noSep "|" name
             && negb (String.eqb name "")
             && match Flags.parseName cases name with
                | Some v => v =? Flags.bit j
                | None => false
                end)
          (seq 0 w).

(** * Properties *)

(** ** Strings *)

Lemma length_zero_iff (s : string) : String.length s = 0%nat <-> s = "".
Proof.
  destruct s; simpl; split; intro H; try reflexivity; discriminate.
Qed.

Lemma prefix_one_char (a : ascii) (s : string) :
  String.prefix (String a "") s = true <-> exists s', s = String a s'.
Proof.
  destruct s as [|b s']; simpl.
  - split; [discriminate | intros [x Hx]; discriminate].
  - destruct (ascii_dec a b) as [->|Hne].
    + destruct s'; split; eauto.
    + split; [discriminate | intros [x Hx]; congruence].
Qed.

(** [strings.Contains(s, "/")] holds exactly when the character occurs. *)
Lemma Contains_char (a : ascii) (s : string) :
  Contains s (String a "") = true <-> In a (list_ascii_of_string s).
Proof.
  induction s as [|b s IH].
  - simpl. split; [discriminate | tauto].
  - cbn [Contains list_ascii_of_string In].
    destruct (String.prefix (String a "") (String b s)) eqn:Hp.
    + apply prefix_one_char in Hp. destruct Hp as [s' Hs']. injection Hs' as -> _.
      split; auto.
    + rewrite IH. split; [tauto|]. intros [->|Hin]; [|assumption].
      exfalso. assert (String.prefix (String a "") (String a s) = true) as Ht
        by (apply prefix_one_char; eauto).
      congruence.
Qed.

Lemma getNetProto_cases (addr : string) :
  (In "/"%char (list_ascii_of_string addr) /\ getNetProto addr = "unix")
  \/ (~ In "/"%char (list_ascii_of_string addr) /\ getNetProto addr = "tcp").
Proof.
  unfold getNetProto. destruct (Contains addr "/") eqn:Hc.
  - left. split; [apply Contains_char; assumption | reflexivity].
  - right. split; [|reflexivity]. intro Hin. apply Contains_char in Hin. congruence.
Qed.

Lemma getNetProto_not_empty (addr : string) : String.eqb (getNetProto addr) "" = false.
Proof. unfold getNetProto. destruct (Contains addr "/"); reflexivity. Qed.

(** ** What the input and output of a session leaves alone *)

Lemma framed_ret {A : Type} (a : A) : framed (ret a).
Proof. intros c a' c' H. injection H as _ <-. auto. Qed.

Lemma framed_bind {A B : Type} (m : M A) (k : A -> M B) :
  framed m -> (forall a, framed (k a)) -> framed (bind m k).
Proof.
  intros Hm Hk c b c'' H. unfold bind in H.
  destruct (m c) as [[a c']| |] eqn:Hmc; try discriminate.
  destruct (Hm _ _ _ Hmc) as [H1 H2]. destruct (Hk a _ _ _ H) as [H3 H4].
  split; congruence.
Qed.

Lemma framed_promoted {A : Type} (f : PacketConn -> A * PacketConn) :
  (forall t, Compression (snd (f t)) = Compression t) -> framed (promoted f).
Proof.
  intros Hf c a c' H. unfold promoted in H.
  destruct (Conn_ c) as [t|] eqn:Ht; [|discriminate].
  specialize (Hf t). destruct (f t) as [a' t']. injection H as _ <-.
  unfold compressionOf. rewrite Ht. simpl in *. rewrite Hf. split; reflexivity.
Qed.

Lemma framed_set_status {A : Type} (a : A) (f : Conn -> Z) :
  framed (fun c => Done (a, set_status (f c) c)).
Proof. intros c a' c' H. injection H as _ <-. split; reflexivity. Qed.

Section Frames.

Context {E : Collaborators}.

Lemma framed_ReadPacket : framed ReadPacket.
Proof.
  apply framed_promoted. intro t. unfold Packet.ReadPacket.
  destruct (Packet.raw_Read (raw t)) as [[d|e] r]; reflexivity.
Qed.

Lemma WritePacket_Compression (data : list byte) (t : PacketConn) :
  Compression (snd (Packet.WritePacket data t)) = Compression t.
Proof.
  unfold Packet.WritePacket. destruct (Packet.raw_Write data (raw t)) as [[e|] r]; reflexivity.
Qed.

Lemma framed_writeCommand (command : byte) : framed (writeCommand command).
Proof. apply framed_promoted. intro t. rewrite WritePacket_Compression. reflexivity. Qed.

Lemma framed_writeCommandStr (command : byte) (arg : string) :
  framed (writeCommandStr command arg).
Proof. apply framed_promoted. intro t. rewrite WritePacket_Compression. reflexivity. Qed.

Lemma framed_Close : framed Close.
Proof. apply framed_promoted. intro t. reflexivity. Qed.

Lemma framed_handleOKPacket (data : list byte) : framed (handleOKPacket data).
Proof.
  intros c a c' H. unfold handleOKPacket in H.
  destruct (decodeOKPacket c data); injection H as _ <-; split; reflexivity.
Qed.

Lemma framed_handleErrorPacket (data : list byte) : framed (handleErrorPacket data).
Proof. intros c a c' H. injection H as _ <-. split; reflexivity. Qed.

Lemma framed_readResultset_loop (fuel : nat) :
  forall (data : list byte) (binary : bool) (more : list (list byte)),
    framed (readResultset_loop fuel data binary more).
Proof.
  induction fuel as [|fuel IH]; intros data binary more c a c'; [discriminate|].
  cbn [readResultset_loop]. destruct (resultsetComplete c data binary more).
  - destruct (decodeResultset c data binary more); intro H; injection H as _ <-;
      split; reflexivity.
  - apply framed_bind; [apply framed_ReadPacket|].
    intros [p|e]; [apply IH | apply framed_ret].
Qed.

Lemma framed_readResultset (data : list byte) (binary : bool) :
  framed (readResultset data binary).
Proof.
  intros c a c'. unfold readResultset. apply framed_readResultset_loop.
Qed.

Lemma framed_dispatch (B0 : byte) (B : list byte) : framed (dispatch B0 B).
Proof.
  unfold dispatch.
  destruct (Byte.eqb B0 OK_HEADER); [apply framed_handleOKPacket|].
  destruct (Byte.eqb B0 ERR_HEADER).
  { apply framed_bind; [apply framed_handleErrorPacket | intro; apply framed_ret]. }
  destruct (Byte.eqb B0 LocalInFile_HEADER); [apply framed_ret | apply framed_readResultset].
Qed.

Lemma framed_readOK : framed readOK.
Proof.
  unfold readOK. apply framed_bind; [apply framed_ReadPacket|].
  intros [data|e]; [|apply framed_ret].
  destruct data as [|h rest]; [apply framed_ret|].
  destruct (Byte.eqb h OK_HEADER); [apply framed_handleOKPacket|].
  destruct (Byte.eqb h ERR_HEADER); [|apply framed_ret].
  apply framed_bind; [apply framed_handleErrorPacket | intro; apply framed_ret].
Qed.

Lemma framed_readResult (binary : bool) : framed (readResult binary).
Proof.
  unfold readResult. apply framed_bind; [apply framed_ReadPacket|].
  intros [data|e]; [|apply framed_ret].
  destruct data as [|h rest]; [apply framed_readResultset|].
  destruct (Byte.eqb h OK_HEADER); [apply framed_handleOKPacket|].
  destruct (Byte.eqb h ERR_HEADER).
  { apply framed_bind; [apply framed_handleErrorPacket | intro; apply framed_ret]. }
  destruct (Byte.eqb h LocalInFile_HEADER); [apply framed_ret | apply framed_readResultset].
Qed.

Lemma framed_exec (query : string) : framed (exec query).
Proof.
  unfold exec. apply framed_bind; [apply framed_writeCommandStr|].
  intros [e|]; [apply framed_ret | apply framed_readResult].
Qed.

Lemma settings_db (c c' : Conn) : settings c' = settings c -> db c' = db c.
Proof. intro H. apply (f_equal db) in H. exact H. Qed.

Lemma settings_ccaps (c c' : Conn) : settings c' = settings c -> ccaps c' = ccaps c.
Proof. intro H. apply (f_equal ccaps) in H. exact H. Qed.

End Frames.

(** ** The connect entry points *)

Section ConnectFacts.

Context {E : Collaborators}.

(** C9. Without an explicit network the dial goes to the unix-domain
    transport exactly when the address contains the path separator, and to
    TCP otherwise; a non-empty network is dialed unchanged.  The dial
    function is called with the selected network and the address: its
    failure there is the failure of the connect, and nothing else of the
    dial function matters. *)
Theorem ConnectWithDialer_network_selection (addr : string) :
  (getNetProto addr = "unix" <-> In "/"%char (list_ascii_of_string addr))
  /\ (getNetProto addr = "tcp" <-> ~ In "/"%char (list_ascii_of_string addr))
  /\ forall (ctx : Context) (network user password dbName : string)
            (dialer : Dialer) (options : list Option),
      let selected := if String.eqb network "" then getNetProto addr else network in
      (network <> "" -> selected = network)
      /\ (forall e, dialer ctx selected addr = inr e ->
            ConnectWithDialer ctx network addr user password dbName dialer options
            = Done (mkConnected None (Some (Traced e)) None))
      /\ (forall dialer' : Dialer,
            dialer' ctx selected addr = dialer ctx selected addr ->
            ConnectWithDialer ctx network addr user password dbName dialer' options
            = ConnectWithDialer ctx network addr user password dbName dialer options).
Proof.
  split; [|split].
  - destruct (getNetProto_cases addr) as [[Hin ->]|[Hin ->]];
      split; intro H; try assumption; try reflexivity; try discriminate.
    contradiction.
  - destruct (getNetProto_cases addr) as [[Hin ->]|[Hin ->]];
      split; intro H; try assumption; try reflexivity; try discriminate.
    contradiction.
  - intros ctx network user password dbName dialer options selected.
    split; [|split].
    + intro Hne. subst selected. apply String.eqb_neq in Hne. rewrite Hne. reflexivity.
    + intros e He. unfold ConnectWithDialer. fold selected. rewrite He. reflexivity.
    + intros dialer' Heq. unfold ConnectWithDialer. fold selected. rewrite Heq.
      reflexivity.
Qed.

(** The timeout handed to [ConnectWithTimeout] is not used: whatever it is,
    the dialer is configured with ten seconds. *)
Lemma ConnectWithTimeout_dialer_timeout
      (addr user password dbName : string) (timeout : Duration) (options : list Option) :
  ConnectWithTimeout addr user password dbName timeout options
  = ConnectWithDialer Background "" addr user password dbName
                      (DialContext (mkNetDialer (Second * 10))) options.
Proof. reflexivity. Qed.

End ConnectFacts.

(** C5, evaluated: on a network where no host answers, a connect with a
    timeout of three seconds gives up after ten, where [ConnectWithContext]
    with the same timeout gives up after three. *)
Theorem ConnectWithTimeout_ignores_timeout :
  ConnectWithTimeout (E := Sample.world) "db.example:3306" "u" "p" "d" (Second * 3) []
  = Done (mkConnected None (Some (Traced (OpError "dial" (Second * 10)))) None)
  /\ ConnectWithContext (E := Sample.world) Background "db.example:3306" "u" "p" "d"
                        (Second * 3) []
     = Done (mkConnected None (Some (Traced (OpError "dial" (Second * 3)))) None).
Proof. split; reflexivity. Qed.

Lemma ConnectWithDialer_network_selection_witness :
  getNetProto "/var/run/mysqld.sock" = "unix"
  /\ getNetProto "127.0.0.1:3306" = "tcp"
  /\ ConnectWithDialer (E := Sample.world) Background "udp" "127.0.0.1:3306" "u" "p" "d"
                       (fun _ network _ => inr (Errorf network)) []
     = Done (mkConnected None (Some (Traced (Errorf "udp"))) None).
Proof.
  split; [|split].
  - apply (proj1 (ConnectWithDialer_network_selection (E := Sample.world) "/var/run/mysqld.sock")).
    simpl. auto.
  - apply (proj1 (proj2 (ConnectWithDialer_network_selection (E := Sample.world) "127.0.0.1:3306"))).
    simpl. intros H.
    repeat (destruct H as [H|H]; [discriminate H|]). exact H.
  - apply (proj2 (proj2 (ConnectWithDialer_network_selection (E := Sample.world) "127.0.0.1:3306"))
             Background "udp" "u" "p" "d" (fun _ network _ => inr (Errorf network)) []).
    reflexivity.
Defined.

(** ** Session methods *)

Section MethodFacts.

Context {E : Collaborators}.

(** C3. Once a server version is recorded [SetCollation] fails for every
    name and leaves the session, its collation included, as it was; while
    the server version is empty it succeeds and stores the name. *)
Theorem SetCollation_only_before_handshake (c : Conn) (name : string) :
  (serverVersion c <> "" ->
     exists e c', SetCollation name c = Done (Some e, c')
                  /\ c' = c /\ GetCollation c' = GetCollation c)
  /\ (serverVersion c = "" ->
        exists c', SetCollation name c = Done (None, c')
                   /\ c' = set_collation name c /\ GetCollation c' = name).
Proof.
  unfold SetCollation. split; intro H.
  - destruct (Nat.eqb (String.length (serverVersion c)) 0) eqn:Hl.
    + apply Nat.eqb_eq, length_zero_iff in Hl. contradiction.
    + simpl. do 2 eexists. repeat split.
  - rewrite H. simpl. eexists. repeat split.
Qed.

Lemma UseDB_success_db (dbName : string) (c c' : Conn) :
  UseDB dbName c = Done (None, c') -> db c' = dbName.
Proof.
  unfold UseDB. destruct (String.eqb (db c) dbName) eqn:Hd.
  - intro H. injection H as <-. apply String.eqb_eq. assumption.
  - unfold bind. destruct (writeCommandStr COM_INIT_DB dbName c) as [[[e|] c1]| |];
      try discriminate.
    destruct (readOK c1) as [[[res [e|]] c2]| |]; try discriminate.
    intro H. injection H as <-. reflexivity.
Qed.

Lemma writeCommandStr_attached (command : byte) (arg : string) (c : Conn) (t : PacketConn) :
  Conn_ c = Some t ->
  exists c1 t1,
    writeCommandStr command arg c = Done (hd None (wscript (raw t)), c1)
    /\ Conn_ c1 = Some t1
    /\ wlog (raw t1)
       = (wlog (raw t) ++ [(command :: list_byte_of_string arg, hd None (wscript (raw t)))])%list
    /\ responses (raw t1) = responses (raw t)
    /\ closed (raw t1) = closed (raw t).
Proof.
  intro Ht. unfold writeCommandStr, promoted. rewrite Ht.
  unfold Packet.WritePacket, Packet.raw_Write. simpl.
  destruct (hd None (wscript (raw t))); eexists; eexists; repeat split.
Qed.

Lemma readOK_attached (c : Conn) (t : PacketConn) :
  Conn_ c = Some t -> exists res oerr c', readOK c = Done ((res, oerr), c').
Proof.
  intro Ht. unfold readOK, bind, ReadPacket, promoted. rewrite Ht.
  unfold Packet.ReadPacket, Packet.raw_Read.
  destruct (responses (raw t)) as [|[e|data] rest]; unfold ret; simpl; eauto.
  destruct data as [|h rest']; simpl; eauto.
  destruct (Byte.eqb h OK_HEADER).
  { unfold handleOKPacket. destruct (decodeOKPacket _ _); eauto. }
  destruct (Byte.eqb h ERR_HEADER); simpl; eauto.
Qed.

Lemma UseDB_other (dbName : string) (c : Conn) (outcome : option error) (c1 : Conn) :
  db c <> dbName ->
  writeCommandStr COM_INIT_DB dbName c = Done (outcome, c1) ->
  UseDB dbName c
  = match outcome with
    | Some e => Done (Some (Traced e), c1)
    | None =>
        match readOK c1 with
        | Done ((_, Some e), c2) => Done (Some (Traced e), c2)
        | Done ((_, None), c2) => Done (None, set_db dbName c2)
        | Panic msg => Panic msg
        | OutOfFuel => OutOfFuel
        end
    end.
Proof.
  intros Hne Hw. unfold UseDB. apply String.eqb_neq in Hne. rewrite Hne.
  unfold bind at 1. rewrite Hw. destruct outcome as [e|]; [reflexivity|].
  unfold bind. destruct (readOK c1) as [[[res [e|]] c2]| |]; reflexivity.
Qed.

(** C4. [UseDB] with the selected database returns success and leaves the
    whole session, transport included, as it was.  With another name it
    hands exactly one init-db command to the transport; when that write
    fails, or when the OK read after it fails, the error is returned and the
    selected database stays; when both succeed the selected database
    becomes the name.  After a success a second call with the same name
    changes nothing. *)
Theorem UseDB_idempotent (dbName : string) (c : Conn) :
  (db c = dbName -> UseDB dbName c = Done (None, c))
  /\ (db c <> dbName -> forall t, Conn_ c = Some t ->
        let outcome := hd None (wscript (raw t)) in
        exists c1 t1,
          writeCommandStr COM_INIT_DB dbName c = Done (outcome, c1)
          /\ Conn_ c1 = Some t1
          /\ wlog (raw t1)
             = (wlog (raw t) ++ [(COM_INIT_DB :: list_byte_of_string dbName, outcome)])%list
          /\ match outcome with
             | Some e => UseDB dbName c = Done (Some (Traced e), c1) /\ GetDB c1 = GetDB c
             | None =>
                 exists res oerr c2,
                   readOK c1 = Done ((res, oerr), c2)
                   /\ match oerr with
                      | Some e =>
                          UseDB dbName c = Done (Some (Traced e), c2) /\ GetDB c2 = GetDB c
                      | None =>
                          UseDB dbName c = Done (None, set_db dbName c2)
                          /\ wlog (raw t1) = match Conn_ c2 with
                                             | Some t2 => wlog (raw t2)
                                             | None => []
                                             end
                      end
             end)
  /\ (forall c', UseDB dbName c = Done (None, c') ->
        GetDB c' = dbName /\ UseDB dbName c' = Done (None, c')).
Proof.
  split; [|split].
  - intro H. unfold UseDB. apply String.eqb_eq in H. rewrite H. reflexivity.
  - intros Hne t Ht outcome.
    destruct (writeCommandStr_attached COM_INIT_DB dbName c t Ht)
      as (c1 & t1 & Hw & Ht1 & Hlog & _ & _).
    exists c1, t1. repeat split; try assumption.
    assert (db c1 = db c) as Hdb1.
    { apply settings_db. exact (proj1 (framed_writeCommandStr _ _ _ _ _ Hw)). }
    rewrite (UseDB_other dbName c _ c1 Hne Hw). fold outcome.
    destruct outcome as [e|].
    + split; [reflexivity | exact Hdb1].
    + destruct (readOK_attached c1 t1 Ht1) as (res & oerr & c2 & Hr).
      exists res, oerr, c2. split; [exact Hr|].
      rewrite Hr.
      assert (db c2 = db c1) as Hdb2.
      { apply settings_db. exact (proj1 (framed_readOK _ _ _ Hr)). }
      destruct oerr as [e|].
      * split; [reflexivity | unfold GetDB; congruence].
      * split; [reflexivity|].
        revert Hr. unfold readOK, bind, ReadPacket, promoted. rewrite Ht1.
        unfold Packet.ReadPacket, Packet.raw_Read.
        destruct (responses (raw t1)) as [|[e|data] rest]; simpl; try discriminate.
        destruct data as [|h rest']; simpl; try discriminate.
        destruct (Byte.eqb h OK_HEADER).
        { unfold handleOKPacket. destruct (decodeOKPacket _ _); intro H;
            [injection H as _ <- | discriminate H]; reflexivity. }
        destruct (Byte.eqb h ERR_HEADER); simpl; discriminate.
  - intros c' H. pose proof (UseDB_success_db _ _ _ H) as Hd. split; [exact Hd|].
    unfold UseDB. apply String.eqb_eq in Hd. rewrite Hd. reflexivity.
Qed.

End MethodFacts.

Lemma SetCollation_only_before_handshake_witness :
  (exists e c', SetCollation "utf8mb4_0900_ai_ci" (Sample.session (Sample.peer [] []) "shop")
                = Done (Some e, c')
                /\ c' = Sample.session (Sample.peer [] []) "shop"
                /\ GetCollation c' = GetCollation (Sample.session (Sample.peer [] []) "shop"))
  /\ (exists c', SetCollation "utf8mb4_0900_ai_ci" new_Conn = Done (None, c')
                 /\ c' = set_collation "utf8mb4_0900_ai_ci" new_Conn
                 /\ GetCollation c' = "utf8mb4_0900_ai_ci").
Proof.
  split.
  - apply (proj1 (SetCollation_only_before_handshake
                    (Sample.session (Sample.peer [] []) "shop") "utf8mb4_0900_ai_ci")).
    simpl. discriminate.
  - apply (proj2 (SetCollation_only_before_handshake new_Conn "utf8mb4_0900_ai_ci")).
    reflexivity.
Defined.

Lemma UseDB_idempotent_witness :
  let s := Sample.session (Sample.peer [ReadData [x00; x00; x00; x02; x00; x00; x00]] []) "shop" in
  UseDB (E := Sample.world) "shop" s = Done (None, s)
  /\ (exists c1, writeCommandStr COM_INIT_DB "crm" s = Done (None, c1))
  /\ (exists c', UseDB (E := Sample.world) "crm" s = Done (None, c')
                 /\ GetDB c' = "crm"
                 /\ UseDB (E := Sample.world) "crm" c' = Done (None, c')).
Proof.
  intro s.
  destruct (UseDB_idempotent (E := Sample.world) "shop" s) as (Hsame & _ & _).
  destruct (UseDB_idempotent (E := Sample.world) "crm" s) as (_ & Hother & Hagain).
  split; [|split].
  - apply Hsame. reflexivity.
  - destruct (Hother ltac:(discriminate) _ eq_refl) as (c1 & t1 & Hw & _).
    exists c1. exact Hw.
  - eexists. split; [reflexivity|]. apply Hagain. reflexivity.
Defined.

Section QuitFacts.

Context {E : Collaborators}.

(** C7, as the code has it. [Quit] hands the quit command to the transport
    and reads nothing.  When the write succeeds it closes the transport and
    returns what closing returns; when the write fails it returns that
    error and leaves the transport as open or closed as it was. *)
Theorem Quit_closes_after_successful_write (c : Conn) (t : PacketConn) :
  Conn_ c = Some t ->
  let outcome := hd None (wscript (raw t)) in
  exists r c' t',
    Quit c = Done (r, c')
    /\ Conn_ c' = Some t'
    /\ wlog (raw t') = (wlog (raw t) ++ [([COM_QUIT], outcome)])%list
    /\ responses (raw t') = responses (raw t)
    /\ match outcome with
       | None => r = closeErr (raw t) /\ closed (raw t') = true
       | Some e => r = Some e /\ closed (raw t') = closed (raw t)
       end.
Proof.
  intros Ht outcome. unfold Quit, bind, writeCommand, Close, promoted. rewrite Ht.
  unfold Packet.WritePacket, Packet.raw_Write. simpl. fold outcome.
  destruct outcome as [e|]; simpl; do 3 eexists; repeat split.
Qed.

End QuitFacts.

(** C7 fails where the write of the quit command fails: [Quit] returns the
    error and the transport is still open. *)
Lemma Quit_leaves_open_on_write_failure :
  exists c' t',
    Quit (Sample.session (Sample.peer [] [Some ErrBadConn]) "shop")
    = Done (Some ErrBadConn, c')
    /\ Conn_ c' = Some t'
    /\ closed (raw t') = false.
Proof. do 2 eexists. repeat split. Qed.

Lemma Quit_closes_after_successful_write_witness :
  exists r c' t',
    Quit (Sample.session (Sample.peer [] []) "shop") = Done (r, c')
    /\ Conn_ c' = Some t'
    /\ closed (raw t') = true.
Proof.
  destruct (Quit_closes_after_successful_write
              (Sample.session (Sample.peer [] []) "shop") _ eq_refl)
    as (r & c' & t' & Hq & Ht & _ & _ & Hc).
  exists r, c', t'. repeat split; [exact Hq | exact Ht | exact (proj2 Hc)].
Defined.

(** ** The compression codec chosen by [ConnectWithDialer] *)

Section CompressionFacts.

Context {E : Collaborators}.

Lemma framed_setNamesForCollation : framed setNamesForCollation.
Proof.
  intros c a c'. unfold setNamesForCollation.
  destruct (negb (Nat.eqb (String.length (collation c)) 0)).
  2: { intro H. injection H as _ <-. auto. }
  destruct (GetCollationByName (collation c)) as [ID|e].
  - destruct (ID >? 255).
    2: { intro H. injection H as _ <-. auto. }
    apply framed_bind; [apply framed_exec|].
    intros [res [e|]]; simpl; [|apply framed_ret].
    apply framed_bind; [apply framed_Close | intro; apply framed_ret].
  - apply framed_bind; [apply framed_Close | intro; apply framed_ret].
Qed.

Lemma chooseCompression_spec (c c' : Conn) :
  chooseCompression c = Done (tt, c') ->
  settings c' = settings c
  /\ (0 < Z.land (ccaps c) CLIENT_COMPRESS ->
      compressionOf c' = Some MYSQL_COMPRESS_ZLIB)
  /\ (Z.land (ccaps c) CLIENT_COMPRESS <= 0 ->
      0 < Z.land (ccaps c) CLIENT_ZSTD_COMPRESSION_ALGORITHM ->
      compressionOf c' = Some MYSQL_COMPRESS_ZSTD)
  /\ (Z.land (ccaps c) CLIENT_COMPRESS <= 0 ->
      Z.land (ccaps c) CLIENT_ZSTD_COMPRESSION_ALGORITHM <= 0 ->
      compressionOf c' = compressionOf c).
Proof.
  unfold chooseCompression, assignCompression, promoted, compressionOf.
  destruct (Z.gtb_spec (Z.land (ccaps c) CLIENT_COMPRESS) 0) as [Hz|Hz].
  - destruct (Conn_ c) as [t|]; [|discriminate]. intro H. injection H as <-.
    simpl. repeat split; intros; try reflexivity; lia.
  - destruct (Z.gtb_spec (Z.land (ccaps c) CLIENT_ZSTD_COMPRESSION_ALGORITHM) 0) as [Hs|Hs].
    + destruct (Conn_ c) as [t|]; [|discriminate]. intro H. injection H as <-.
      simpl. repeat split; intros; try reflexivity; lia.
    + intro H. injection H as <-. repeat split; intros; try reflexivity; lia.
Qed.

(** C1, as the code has it.  After a successful connection setup the codec
    of the transport follows the session's client-set capabilities [ccaps]
    as the handshake left them, whatever the server advertised: zlib when
    they hold the compression flag, else zstd when they hold the zstd flag,
    else the transport's compression mode is as the handshake left it. *)
Theorem ConnectWithDialer_compression_follows_ccaps
        (ctx : Context) (network addr user password dbName : string)
        (dialer : Dialer) (options : list Option) (r : Connected) (c : Conn) :
  ConnectWithDialer ctx network addr user password dbName dialer options = Done r ->
  conn r = Some c ->
  exists c0 ch,
    handshake c0 = Done (None, ch)
    /\ ccaps c = ccaps ch
    /\ (0 < Z.land (ccaps c) CLIENT_COMPRESS ->
        compressionOf c = Some MYSQL_COMPRESS_ZLIB)
    /\ (Z.land (ccaps c) CLIENT_COMPRESS <= 0 ->
        0 < Z.land (ccaps c) CLIENT_ZSTD_COMPRESSION_ALGORITHM ->
        compressionOf c = Some MYSQL_COMPRESS_ZSTD)
    /\ (Z.land (ccaps c) CLIENT_COMPRESS <= 0 ->
        Z.land (ccaps c) CLIENT_ZSTD_COMPRESSION_ALGORITHM <= 0 ->
        compressionOf c = compressionOf ch).
Proof.
  unfold ConnectWithDialer.
  destruct (dialer ctx _ addr) as [raw0|e].
  2: { intro H. injection H as <-. discriminate. }
  destruct (applyOptions options _) as [[[e|] cOpt]| |]; try discriminate.
  { intro H. injection H as <-. discriminate. }
  match goal with
  | |- match ?m ?c0 with _ => _ end = _ -> _ => set (start := c0); unfold bind
  end.
  destruct (handshake start) as [[[e|] ch]| |] eqn:Hh; try discriminate.
  { unfold ret. intro H. injection H as <-. discriminate. }
  unfold afterHandshake, bind.
  destruct (chooseCompression ch) as [[[] c1]| |] eqn:Hc; try discriminate.
  destruct (setNamesForCollation c1) as [[[e|] c2]| |] eqn:Hs; try discriminate.
  { intro H. injection H as <-. discriminate. }
  intro H. injection H as <-. simpl. intro H. injection H as <-.
  destruct (chooseCompression_spec _ _ Hc) as (Hset1 & Hzlib & Hzstd & Hnone).
  destruct (framed_setNamesForCollation _ _ _ Hs) as [Hset2 Hcomp].
  assert (ccaps c2 = ccaps ch) as Hcc.
  { rewrite (settings_ccaps _ _ Hset2). apply settings_ccaps. exact Hset1. }
  exists start, ch. rewrite Hcomp, Hcc. repeat split; assumption.
Qed.

End CompressionFacts.

(** C1 fails where the client requests compression and the server does not
    advertise it: the connection setup succeeds, the compression flag is not
    among the negotiated capabilities, and zlib is enabled on the transport. *)
Lemma compression_enabled_without_server_support :
  exists r c t,
    ConnectWithDialer (E := Sample.world) Background "" "127.0.0.1:3306" "u" "p" "d"
                      (Sample.reach (Sample.greets x00 x02 x00 x00))
                      [Sample.WithCapability CLIENT_COMPRESS]
    = Done r
    /\ conn r = Some c
    /\ conn_err r = None
    /\ Conn_ c = Some t
    /\ Z.land (capability c) CLIENT_COMPRESS = 0
    /\ Z.land (negotiated c) CLIENT_COMPRESS = 0
    /\ Compression t = MYSQL_COMPRESS_ZLIB.
Proof. do 3 eexists. split; [vm_compute; reflexivity|]. vm_compute. repeat split. Qed.

Lemma ConnectWithDialer_compression_follows_ccaps_witness :
  exists c,
    compressionOf c = Some MYSQL_COMPRESS_ZSTD
    /\ ccaps c = CLIENT_ZSTD_COMPRESSION_ALGORITHM.
Proof.
  eassert (ConnectWithDialer (E := Sample.world) Background "" "127.0.0.1:3306" "u" "p" "d"
             (Sample.reach (Sample.greets x00 x02 x00 x04))
             [Sample.WithCapability CLIENT_ZSTD_COMPRESSION_ALGORITHM]
           = Done _) as Hrun by (vm_compute; reflexivity).
  destruct (ConnectWithDialer_compression_follows_ccaps _ _ _ _ _ _ _ _ _ _ Hrun eq_refl)
    as (c0 & ch & _ & _ & _ & Hzstd & _).
  eexists. split; [apply Hzstd; vm_compute; [discriminate | reflexivity] | reflexivity].
Defined.

(** ** The loop of [ExecuteMultiple] *)

Section LoopRuns.

Context {E : Collaborators} {U : Type}.
Variable perResultCallback : ExecPerResultCallback U.

Local Abbreviation Iterates := (Iterates perResultCallback).
Local Abbreviation invoke := (invoke perResultCallback).

(** Every run of the model's loop that returns is one of these runs. *)
Lemma loop_Iterates (fuel : nat) :
  forall (u : U) (calls0 : list Call) (c : Conn) exit u' calls' c',
    ExecuteMultiple_loop fuel perResultCallback u calls0 c = Done ((exit, u', calls'), c') ->
    exists ks, calls' = (calls0 ++ ks)%list /\ Iterates c u ks exit u' c'.
Proof.
  induction fuel as [|fuel IH]; intros u calls0 c exit u' calls' c'; [discriminate|].
  cbn [ExecuteMultiple_loop]. unfold bind at 1.
  destruct (ReadPacketReuseMem c) as [[[B|e] c1]| |] eqn:Hread; try discriminate.
  2: { intro H. injection H as <- <- <- <-. exists []. rewrite app_nil_r.
       split; [reflexivity | constructor; assumption]. }
  destruct B as [|B0 B]; [discriminate|]. unfold bind.
  destruct (dispatch B0 (B0 :: B) c1) as [[[result err] c2]| |] eqn:Hd; try discriminate.
  destruct (perResultCallback result err u) as [u1 touch] eqn:Hcb.
  set (k := mkCall (B0 :: B) result err (option_map touch result)).
  assert (Hk : k = mkCall (B0 :: B) result err
                          (option_map (snd (perResultCallback result err u)) result))
    by (rewrite Hcb; reflexivity).
  assert (Hu1 : invoke u k = u1) by (unfold invoke; simpl; rewrite Hcb; reflexivity).
  destruct err as [e|].
  { intro H. injection H as <- <- <- <-. exists [k]. split; [reflexivity|].
    rewrite <- Hu1. eapply Iterates_last; eauto. }
  destruct (option_map touch result) as [res|] eqn:Hleft; [|discriminate].
  destruct (Z.land (Status res) SERVER_MORE_RESULTS_EXISTS =? 0) eqn:Hmore.
  { intro H. injection H as <- <- <- <-. exists [k]. split; [reflexivity|].
    rewrite <- Hu1. eapply Iterates_last; eauto.
    unfold continuing, k. simpl. try rewrite Hleft. rewrite Hmore. reflexivity. }
  intro H. apply IH in H. destruct H as (ks & -> & Hrun).
  exists (k :: ks). rewrite <- app_assoc. split; [reflexivity|].
  eapply Iterates_next; eauto.
  - unfold continuing, k. simpl. try rewrite Hleft. rewrite Hmore. reflexivity.
  - rewrite Hu1. exact Hrun.
Qed.

End LoopRuns.

Section ReadFacts.

Context {E : Collaborators}.

Lemma ReadPacketReuseMem_data (c c1 : Conn) (B : list byte) :
  ReadPacketReuseMem c = Done (inl B, c1) ->
  answers c = ReadData B :: answers c1 /\ settings c1 = settings c.
Proof.
  unfold ReadPacketReuseMem, promoted, answers.
  destruct (Conn_ c) as [t|]; [|discriminate].
  unfold Packet.ReadPacketReuseMem, Packet.ReadPacket, Packet.raw_Read.
  destruct (responses (raw t)) as [|[e|data] rest]; simpl; try discriminate.
  intro H. injection H as <- <-. split; reflexivity.
Qed.

Lemma ReadPacketReuseMem_error (c c1 : Conn) (e : error) :
  ReadPacketReuseMem c = Done (inr e, c1) ->
  settings c1 = settings c
  /\ ((answers c = [] /\ e = ErrBadConn /\ answers c1 = [])
      \/ answers c = ReadErr e :: answers c1).
Proof.
  unfold ReadPacketReuseMem, promoted, answers.
  destruct (Conn_ c) as [t|]; [|discriminate].
  unfold Packet.ReadPacketReuseMem, Packet.ReadPacket, Packet.raw_Read.
  destruct (responses (raw t)) as [|[e'|data] rest] eqn:Hr; simpl; try discriminate.
  - intro H. injection H as <- <-. simpl. rewrite Hr. auto.
  - intro H. injection H as <- <-. simpl. auto.
Qed.

(** A read on a session with its transport returns; it writes nothing and
    closes nothing, and takes the next answer when there is one. *)
Lemma ReadPacketReuseMem_attached (c : Conn) (t : PacketConn) :
  Conn_ c = Some t ->
  exists x c1 t1,
    ReadPacketReuseMem c = Done (x, c1)
    /\ Conn_ c1 = Some t1
    /\ wlog (raw t1) = wlog (raw t)
    /\ closed (raw t1) = closed (raw t)
    /\ responses (raw t1) = tl (responses (raw t)).
Proof.
  intro Ht. unfold ReadPacketReuseMem, promoted. rewrite Ht.
  unfold Packet.ReadPacketReuseMem, Packet.ReadPacket, Packet.raw_Read.
  destruct (responses (raw t)) as [|[e|data] rest] eqn:Hr; simpl;
    do 3 eexists; (split; [reflexivity|]); simpl; (split; [reflexivity|]); simpl;
      rewrite ?Hr; auto.
Qed.

Lemma promoted_Done {A : Type} (f : PacketConn -> A * PacketConn) (c c1 : Conn) (a : A) :
  promoted f c = Done (a, c1) -> exists t1, Conn_ c1 = Some t1.
Proof.
  unfold promoted. destruct (Conn_ c) as [t|]; [|discriminate].
  destruct (f t) as [a' t1]. intro H. injection H as _ <-. exists t1. reflexivity.
Qed.

(** The reading of a resultset on a session with its transport returns
    before its fuel is spent when the fuel exceeds the number of answers
    left: with a result or with an error; it takes answers from the front,
    writes nothing and closes nothing. *)
Lemma readResultset_loop_returns (data : list byte) (binary : bool) (fuel : nat) :
  forall more c t,
    Conn_ c = Some t ->
    (List.length (responses (raw t)) < fuel)%nat ->
    exists result err c' t',
      readResultset_loop fuel data binary more c = Done ((result, err), c')
      /\ Conn_ c' = Some t'
      /\ wlog (raw t') = wlog (raw t)
      /\ closed (raw t') = closed (raw t)
      /\ (exists taken, responses (raw t) = (taken ++ responses (raw t'))%list)
      /\ (result = None <-> err <> None).
Proof.
  induction fuel as [|fuel IH]; intros more c t Ht Hlen; [inversion Hlen|].
  cbn [readResultset_loop].
  destruct (resultsetComplete c data binary more).
  - destruct (decodeResultset c data binary more) as [r|e].
    + exists (Some r), None, (set_status (Status r) c), t.
      split; [reflexivity|]. split; [exact Ht|]. split; [reflexivity|].
      split; [reflexivity|]. split; [exists []; reflexivity|]. split; congruence.
    + exists None, (Some e), c, t.
      split; [reflexivity|]. split; [exact Ht|]. split; [reflexivity|].
      split; [reflexivity|]. split; [exists []; reflexivity|]. split; congruence.
  - unfold bind. change (ReadPacket c) with (ReadPacketReuseMem c).
    destruct (ReadPacketReuseMem_attached c t Ht)
      as (x & c1 & t1 & Hr & Ht1 & Hl & Hc & Hresp).
    rewrite Hr. destruct x as [p|e].
    + assert (responses (raw t) = ReadData p :: responses (raw t1)) as Hcons.
      { apply ReadPacketReuseMem_data in Hr. destruct Hr as [Ha _].
        unfold answers in Ha. rewrite Ht, Ht1 in Ha. exact Ha. }
      destruct (IH (more ++ [p])%list c1 t1 Ht1)
        as (result & err & c' & t' & Hrun & Ht' & Hl' & Hc' & (taken & Htk) & Hxor).
      { rewrite Hcons in Hlen. simpl in Hlen. apply PeanoNat.lt_S_n. exact Hlen. }
      exists result, err, c', t'. split; [exact Hrun|]. split; [exact Ht'|].
      split; [congruence|]. split; [congruence|]. split; [|exact Hxor].
      exists (ReadData p :: taken). rewrite Hcons, Htk. reflexivity.
    + unfold ret. exists None, (Some (Traced e)), c1, t1.
      split; [reflexivity|]. split; [exact Ht1|]. split; [exact Hl|].
      split; [exact Hc|]. split; [|split; congruence].
      rewrite Hresp. destruct (responses (raw t)) as [|a rest].
      * exists []. reflexivity.
      * exists [a]. reflexivity.
Qed.

(** The reading of a resultset does what the specification says of it. *)
Lemma readResultset_loop_reads (c0 : Conn) (data : list byte) (binary : bool)
      (fuel : nat) :
  forall more c result err c',
    settings c = settings c0 ->
    readResultset_loop fuel data binary more c = Done ((result, err), c') ->
    ReadsResultset c0 data binary more (answers c) (answers c') result err.
Proof.
  induction fuel as [|fuel IH]; intros more c result err c' Hs; [discriminate|].
  cbn [readResultset_loop].
  destruct (resultsetComplete c data binary more) eqn:Hcomp.
  - destruct (decodeResultset c data binary more) as [r|e] eqn:Hdec;
      intro H; injection H as <- <- <-.
    + change (answers (set_status (Status r) c)) with (answers c).
      eapply Resultset_decoded; eassumption.
    + eapply Resultset_malformed; eassumption.
  - unfold bind. change (ReadPacket c) with (ReadPacketReuseMem c).
    destruct (ReadPacketReuseMem c) as [[[p|e] c1]| |] eqn:Hr; try discriminate.
    + intro H. apply ReadPacketReuseMem_data in Hr. destruct Hr as [Ha Hs1].
      rewrite Ha. eapply Resultset_next; [exact Hs | exact Hcomp |].
      eapply IH; [|exact H]. congruence.
    + unfold ret. intro H. injection H as <- <- <-.
      apply ReadPacketReuseMem_error in Hr. destruct Hr as [Hs1 [(Ha & -> & Hb)|Ha]].
      * rewrite Ha, Hb. eapply Resultset_peer_gone; eassumption.
      * rewrite Ha. eapply Resultset_read_fails; eassumption.
Qed.

Lemma ReadsResultset_suffix (c : Conn) (data : list byte) (binary : bool) more
      avail rest result err :
  ReadsResultset c data binary more avail rest result err ->
  exists taken, avail = (taken ++ rest)%list.
Proof.
  induction 1 as [more avail ck r _ _ _ | more avail ck e _ _ _ | more avail ck e _ _
                  | more ck _ _ | more p avail rest ck result err _ _ _ IH].
  - exists []. reflexivity.
  - exists []. reflexivity.
  - exists [ReadErr e]. reflexivity.
  - exists []. reflexivity.
  - destruct IH as (taken & ->). exists (ReadData p :: taken). reflexivity.
Qed.

Lemma Classifies_suffix (c : Conn) (data : list byte) avail rest result err :
  Classifies c data avail rest result err ->
  exists taken, avail = (taken ++ rest)%list.
Proof.
  intros [avail0 ck r _ _ _ | avail0 ck e _ _ _ | avail0 ck _ _ | avail0 _
          | B0 avail0 rest0 result0 err0 _ _ _ _ Hrs]; try (exists []; reflexivity).
  eapply ReadsResultset_suffix. exact Hrs.
Qed.

(** A response that is a server error or a local-infile request is handed
    over as an error without a result, and nothing is read after its
    packet. *)
Lemma Classifies_error_packet (c : Conn) (data : list byte) avail rest result err :
  hd_error data = Some ERR_HEADER \/ hd_error data = Some LocalInFile_HEADER ->
  Classifies c data avail rest result err ->
  rest = avail
  /\ result = None
  /\ ((hd_error data = Some ERR_HEADER
       /\ exists ck, settings ck = settings c /\ err = Some (decodeErrorPacket ck data))
      \/ (hd_error data = Some LocalInFile_HEADER /\ err = Some ErrMalformPacket)).
Proof.
  intros Hhdr [avail0 ck r Hh _ _ | avail0 ck e Hh _ _ | avail0 ck Hh Hs | avail0 Hh
               | B0 avail0 rest0 result0 err0 Hh Hok Herr Hlif _].
  - destruct Hhdr as [H|H]; rewrite Hh in H; discriminate H.
  - destruct Hhdr as [H|H]; rewrite Hh in H; discriminate H.
  - split; [reflexivity|]. split; [reflexivity|]. left. split; [exact Hh|].
    exists ck. split; [exact Hs | reflexivity].
  - split; [reflexivity|]. split; [reflexivity|]. right. split; [exact Hh | reflexivity].
  - destruct Hhdr as [H|H]; rewrite Hh in H; injection H as H; contradiction.
Qed.

(** A response that starts with the OK, the ERR or the local-infile header
    is its first packet and nothing more. *)
Lemma Classifies_one_packet (c : Conn) (data : list byte) avail rest result err :
  hd_error data = Some OK_HEADER
  \/ hd_error data = Some ERR_HEADER
  \/ hd_error data = Some LocalInFile_HEADER ->
  Classifies c data avail rest result err ->
  rest = avail.
Proof.
  intros Hhdr [avail0 ck r _ _ _ | avail0 ck e _ _ _ | avail0 ck _ _ | avail0 _
               | B0 avail0 rest0 result0 err0 Hh Hok Herr Hlif _]; try reflexivity.
  destruct Hhdr as [H|[H|H]]; rewrite Hh in H; injection H as H; contradiction.
Qed.

Lemma answered_length (c : Conn) (ks : list Call) :
  forall avail rest,
    answered c ks avail rest ->
    (List.length ks + List.length rest <= List.length avail)%nat.
Proof.
  induction ks as [|k ks IH]; simpl; intros avail rest H.
  - subst rest. apply Nat.le_refl.
  - destruct H as (ahead & next & -> & Hc & Hk).
    apply Classifies_suffix in Hc. destruct Hc as (taken & ->).
    apply IH in Hk. simpl. rewrite length_app. lia.
Qed.

Lemma answered_In (c : Conn) (k : Call) (ks : list Call) :
  forall avail rest,
    answered c ks avail rest ->
    In k ks ->
    exists ahead next,
      Classifies c (call_packet k) ahead next (call_result k) (call_err k).
Proof.
  induction ks as [|k0 ks IH]; simpl; intros avail rest H Hin; [contradiction|].
  destruct H as (ahead & next & _ & Hc & Hk). destruct Hin as [->|Hin].
  - exists ahead, next. exact Hc.
  - eapply IH; eassumption.
Qed.

(** The classification on a session with its transport never fails to
    return, and returns a result or an error; it takes answers from the
    front, writes nothing and closes nothing. *)
Lemma dispatch_returns (B0 : byte) (B : list byte) (c : Conn) (t : PacketConn) :
  Conn_ c = Some t ->
  exists result err c' t',
    dispatch B0 B c = Done ((result, err), c')
    /\ Conn_ c' = Some t'
    /\ wlog (raw t') = wlog (raw t)
    /\ closed (raw t') = closed (raw t)
    /\ (exists taken, responses (raw t) = (taken ++ responses (raw t'))%list)
    /\ (result = None <-> err <> None).
Proof.
  intro Ht. unfold dispatch.
  destruct (Byte.eqb B0 OK_HEADER).
  { unfold handleOKPacket. destruct (decodeOKPacket c B) as [r|e].
    - exists (Some r), None, (set_status (Status r) c), t.
      split; [reflexivity|]. split; [exact Ht|]. split; [reflexivity|].
      split; [reflexivity|]. split; [exists []; reflexivity|]. split; congruence.
    - exists None, (Some e), c, t.
      split; [reflexivity|]. split; [exact Ht|]. split; [reflexivity|].
      split; [reflexivity|]. split; [exists []; reflexivity|]. split; congruence. }
  destruct (Byte.eqb B0 ERR_HEADER).
  { exists None, (Some (decodeErrorPacket c B)), c, t.
    split; [reflexivity|]. split; [exact Ht|]. split; [reflexivity|].
    split; [reflexivity|]. split; [exists []; reflexivity|]. split; congruence. }
  destruct (Byte.eqb B0 LocalInFile_HEADER).
  { exists None, (Some ErrMalformPacket), c, t.
    split; [reflexivity|]. split; [exact Ht|]. split; [reflexivity|].
    split; [reflexivity|]. split; [exists []; reflexivity|]. split; congruence. }
  unfold readResultset. apply readResultset_loop_returns; [exact Ht|].
  unfold pending, answers. rewrite Ht. apply Nat.lt_succ_diag_r.
Qed.

Lemma dispatch_answers (B0 : byte) (B : list byte) (c c' : Conn) (t : PacketConn) x :
  Conn_ c = Some t ->
  dispatch B0 B c = Done (x, c') ->
  exists taken, answers c = (taken ++ answers c')%list.
Proof.
  intros Ht H.
  destruct (dispatch_returns B0 B c t Ht)
    as (res & err & c2 & t2 & Hd & Ht2 & _ & _ & Htaken & _).
  rewrite Hd in H. injection H as _ <-. unfold answers. rewrite Ht, Ht2. exact Htaken.
Qed.

(** The classification does what the specification says of it. *)
Lemma dispatch_classifies (c0 : Conn) (B0 : byte) (B : list byte) (c c' : Conn)
      result err :
  settings c = settings c0 ->
  dispatch B0 (B0 :: B) c = Done ((result, err), c') ->
  Classifies c0 (B0 :: B) (answers c) (answers c') result err.
Proof.
  intro Hs. unfold dispatch.
  destruct (Byte.eqb B0 OK_HEADER) eqn:Hok.
  { apply Byte.byte_dec_bl in Hok. subst B0. unfold handleOKPacket.
    destruct (decodeOKPacket c (OK_HEADER :: B)) as [r|e] eqn:Hdec;
      intro H; injection H as <- <- <-.
    - change (answers (set_status (Status r) c)) with (answers c).
      eapply Classifies_OK; [reflexivity | exact Hs | exact Hdec].
    - eapply Classifies_OK_malformed; [reflexivity | exact Hs | exact Hdec]. }
  destruct (Byte.eqb B0 ERR_HEADER) eqn:Herr.
  { apply Byte.byte_dec_bl in Herr. subst B0.
    intro H. injection H as <- <- <-.
    eapply Classifies_ERR; [reflexivity | exact Hs]. }
  destruct (Byte.eqb B0 LocalInFile_HEADER) eqn:Hlif.
  { apply Byte.byte_dec_bl in Hlif. subst B0.
    intro H. injection H as <- <- <-.
    apply Classifies_LocalInFile. reflexivity. }
  unfold readResultset. intro H.
  assert (forall b, Byte.eqb B0 b = false -> B0 <> b) as Hne.
  { intros b Hb ->. rewrite (Byte.byte_dec_lb eq_refl) in Hb. discriminate Hb. }
  eapply Classifies_resultset; [reflexivity | auto | auto | auto |].
  eapply readResultset_loop_reads; eassumption.
Qed.

End ReadFacts.

Section LoopFacts.

Context {E : Collaborators} {U : Type}.
Variable perResultCallback : ExecPerResultCallback U.

Local Abbreviation Iterates := (Iterates perResultCallback).
Local Abbreviation replay := (replay perResultCallback).
Local Abbreviation touched := (touched perResultCallback).

Lemma Iterates_settings c u ks exit u' c' :
  Iterates c u ks exit u' c' -> settings c' = settings c.
Proof.
  induction 1 as [c u e c1 Hr | c u B0 B c1 c2 res err k Hr Hd Hk Hc
                  | c u B0 B c1 c2 res err k ks exit u' c3 Hr Hd Hk Hc Hrun IH].
  - apply ReadPacketReuseMem_error in Hr. tauto.
  - apply ReadPacketReuseMem_data in Hr. apply framed_dispatch in Hd.
    destruct Hr, Hd. congruence.
  - apply ReadPacketReuseMem_data in Hr. apply framed_dispatch in Hd.
    destruct Hr, Hd. congruence.
Qed.

(** The iterations are the responses read, one for one and in their order,
    each invocation with the classification of its response; a run left by
    [return] has met a failed read after them. *)
Lemma Iterates_answered (c0 : Conn) c u ks exit u' c' :
  Iterates c u ks exit u' c' ->
  settings c = settings c0 ->
  exists rest,
    answered c0 ks (answers c) rest
    /\ match exit with
       | Break => rest = answers c'
       | ReturnErr e =>
           exists e0, e = Some (Traced e0)
                      /\ (rest = ReadErr e0 :: answers c'
                          \/ (rest = [] /\ e0 = ErrBadConn))
       end.
Proof.
  induction 1 as [c u e c1 Hr | c u B0 B c1 c2 res err k Hr Hd Hk Hc
                  | c u B0 B c1 c2 res err k ks exit u' c3 Hr Hd Hk Hc Hrun IH];
    intro Hs.
  - exists (answers c). split; [reflexivity|].
    apply ReadPacketReuseMem_error in Hr. destruct Hr as [_ [(Ha & -> & Hb)|Ha]].
    + exists ErrBadConn. split; [reflexivity|]. right. auto.
    + exists e. split; [reflexivity|]. left. exact Ha.
  - apply ReadPacketReuseMem_data in Hr. destruct Hr as [Ha Hs1].
    exists (answers c2). split; [|reflexivity].
    exists (answers c1), (answers c2). rewrite Hk. simpl.
    split; [exact Ha|]. split; [|reflexivity].
    eapply dispatch_classifies; [|exact Hd]. congruence.
  - apply ReadPacketReuseMem_data in Hr. destruct Hr as [Ha Hs1].
    pose proof (proj1 (framed_dispatch _ _ _ _ _ Hd)) as Hs2.
    destruct IH as (rest & Hrest & Hexit); [congruence|].
    exists rest. split; [|exact Hexit].
    exists (answers c1), (answers c2). rewrite Hk. simpl.
    split; [exact Ha|]. split; [|exact Hrest].
    eapply dispatch_classifies; [|exact Hd]. congruence.
Qed.

(** A run left by [break] stopped after its last invocation, the first that
    is not [continuing]; in a run left by [return] every invocation is. *)
Lemma Iterates_stops c u ks exit u' c' :
  Iterates c u ks exit u' c' ->
  match exit with
  | Break =>
      exists ks0 k, ks = (ks0 ++ [k])%list
                    /\ Forall (fun k => continuing k = true) ks0
                    /\ continuing k = false
  | ReturnErr _ => Forall (fun k => continuing k = true) ks
  end.
Proof.
  induction 1 as [c u e c1 Hr | c u B0 B c1 c2 res err k Hr Hd Hk Hc
                  | c u B0 B c1 c2 res err k ks exit u' c3 Hr Hd Hk Hc Hrun IH].
  - constructor.
  - exists [], k. repeat split; [constructor | assumption].
  - destruct exit as [e|].
    + constructor; assumption.
    + destruct IH as (ks0 & k' & -> & Hall & Hlast).
      exists (k :: ks0), k'. repeat split; [constructor; assumption | assumption].
Qed.

(** The callback has run once for each iteration, in their order. *)
Lemma Iterates_replay c u ks exit u' c' :
  Iterates c u ks exit u' c' -> u' = replay ks u /\ touched u ks.
Proof.
  induction 1 as [c u e c1 Hr | c u B0 B c1 c2 res err k Hr Hd Hk Hc
                  | c u B0 B c1 c2 res err k ks exit u' c3 Hr Hd Hk Hc Hrun IH].
  - split; [reflexivity | exact I].
  - split; [reflexivity|]. simpl. split; [|exact I]. rewrite Hk. reflexivity.
  - destruct IH as [IH1 IH2]. split; [exact IH1|]. simpl. split; [|exact IH2].
    rewrite Hk. reflexivity.
Qed.

(** On a session with its transport the loop returns or panics before its
    fuel is spent when the fuel exceeds the number of answers left; it
    panics only on a zero-length packet among the answers. *)
Lemma loop_returns (fuel : nat) :
  forall u calls0 c t,
    Conn_ c = Some t ->
    (List.length (answers c) < fuel)%nat ->
    (exists out c', ExecuteMultiple_loop fuel perResultCallback u calls0 c = Done (out, c'))
    \/ (ExecuteMultiple_loop fuel perResultCallback u calls0 c = indexOutOfRange
        /\ In (ReadData []) (answers c)).
Proof.
  induction fuel as [|fuel IH]; intros u calls0 c t Ht Hlen; [inversion Hlen|].
  cbn [ExecuteMultiple_loop]. unfold bind at 1 3.
  destruct (ReadPacketReuseMem_attached c t Ht) as ([B|e] & c1 & t1 & Hread & Ht1 & _);
    rewrite Hread; [|left; unfold ret; eauto].
  pose proof (ReadPacketReuseMem_data _ _ _ Hread) as [Ha _].
  rewrite Ha in Hlen |- *. simpl in Hlen.
  destruct B as [|B0 B]; [right; split; [reflexivity | left; reflexivity]|].
  unfold bind.
  destruct (dispatch_returns B0 (B0 :: B) c1 t1 Ht1)
    as (res & err & c2 & t2 & Hd & Ht2 & _ & _ & _ & Hres).
  pose proof (dispatch_answers _ _ _ _ _ _ Ht1 Hd) as (taken & Htaken).
  rewrite Hd. destruct (perResultCallback res err u) as [u1 touch].
  destruct err as [e|]; [left; unfold ret; eauto|].
  destruct res as [r|]; [|exfalso; apply (proj1 Hres); [reflexivity | reflexivity]].
  simpl. destruct (_ =? 0); [left; unfold ret; eauto|].
  destruct (IH u1 (calls0 ++ [mkCall (B0 :: B) (Some r) None (Some (touch r))])%list
               c2 t2 Ht2) as [Hdone|[Hpanic Hin]].
  - rewrite Htaken, length_app in Hlen. lia.
  - left. exact Hdone.
  - right. split; [exact Hpanic|]. right. rewrite Htaken. apply in_or_app. right.
    exact Hin.
Qed.

End LoopFacts.

(** ** ExecuteMultiple *)

Section ExecuteMultipleFacts.

Context {E : Collaborators} {U : Type}.
Variable perResultCallback : ExecPerResultCallback U.

(** What a returned run of [ExecuteMultiple] is made of: a failed write of
    the query and nothing more, or a written query and a run of the loop
    whose exit decides what is returned. *)
Lemma ExecuteMultiple_run (query : string) (u : U) (c : Conn) run c' :
  ExecuteMultiple query perResultCallback u c = Done (run, c') ->
  exists outcome c1,
    writeCommandStr COM_QUERY query c = Done (outcome, c1)
    /\ ((exists e, outcome = Some e
                   /\ run = mkMultiRun None (Some (Traced e)) u [] /\ c' = c1)
        \/ (outcome = None
            /\ exists exit,
                Iterates perResultCallback c1 u (calls run) exit (user_state run) c'
                /\ match exit with
                   | ReturnErr e => ret_result run = None /\ ret_err run = e
                   | Break =>
                       ret_result run = Some streamingDoneResult /\ ret_err run = None
                   end)).
Proof.
  unfold ExecuteMultiple. unfold bind at 1.
  destruct (writeCommandStr COM_QUERY query c) as [[[e|] c1]| |]; try discriminate.
  - intro H. injection H as <- <-. exists (Some e), c1. split; [reflexivity|].
    left. exists e. auto.
  - unfold bind.
    destruct (ExecuteMultiple_loop _ _ u [] c1) as [[[[exit u'] ks] c2]| |] eqn:Hloop;
      try discriminate.
    apply loop_Iterates in Hloop. destruct Hloop as (ks' & -> & Hrun). simpl in Hrun.
    intro H. exists None, c1. split; [reflexivity|]. right. split; [reflexivity|].
    exists exit. destruct exit as [e|]; injection H as <- <-; simpl; auto.
Qed.

Lemma ExecuteMultiple_fuel (query : string) (u : U) (c : Conn) :
  ExecuteMultiple query perResultCallback u c <> OutOfFuel.
Proof.
  unfold ExecuteMultiple. unfold bind at 1.
  destruct (writeCommandStr COM_QUERY query c) as [[[e|] c1]| |] eqn:Hw.
  - unfold ret. discriminate.
  - unfold bind. apply promoted_Done in Hw. destruct Hw as (t1 & Ht1).
    destruct (loop_returns perResultCallback (S (pending c1)) u [] c1 t1 Ht1
                (Nat.lt_succ_diag_r _)) as [(out & c2 & ->)|[-> _]];
      [|discriminate].
    destruct out as [[exit u'] ks]. destruct exit; unfold ret; discriminate.
  - discriminate.
  - exfalso. unfold writeCommandStr, promoted in Hw. destruct (Conn_ c); [|discriminate].
    destruct (Packet.WritePacket _ _). discriminate.
Qed.


(** C8. [ExecuteMultiple] never runs the model out of fuel, and every run
    whose loop completes normally, its last invocation without error and
    with a result that no longer flags more results, returns a nil error
    and the empty result whose resultset is marked streaming-multiple and
    done. *)
Theorem ExecuteMultiple_returns_streaming_done
        (query : string) (u : U) (c : Conn) :
  ExecuteMultiple query perResultCallback u c <> OutOfFuel
  /\ forall run c',
      ExecuteMultiple query perResultCallback u c = Done (run, c') ->
      (exists ks k r,
          calls run = (ks ++ [k])%list
          /\ call_err k = None
          /\ call_left k = Some r
          /\ Z.land (Status r) SERVER_MORE_RESULTS_EXISTS = 0) ->
      ret_err run = None
      /\ exists res rs,
          ret_result run = Some res
          /\ Resultset_ res = Some rs
          /\ Streaming rs = StreamingMultiple
          /\ StreamingDone rs = true
          /\ Fields rs = [] /\ Values rs = []
          /\ AffectedRows res = 0 /\ InsertId res = 0.
Proof.
  split; [apply ExecuteMultiple_fuel|].
  intros run c' Hrun (ks & k & r & Hks & Herr & Hleft & Hmore).
  apply ExecuteMultiple_run in Hrun.
  destruct Hrun as (outcome & c1 & _ & [(e & _ & -> & _)|(_ & exit & Hit & Hret)]).
  { simpl in Hks. destruct ks; discriminate. }
  assert (continuing k = false) as Hk.
  { unfold continuing. rewrite Herr, Hleft, Hmore. reflexivity. }
  destruct exit as [e|].
  - apply Iterates_stops in Hit. rewrite Hks in Hit.
    apply Forall_app in Hit. destruct Hit as [_ Hit]. inversion Hit; congruence.
  - destruct Hret as [-> ->]. split; [reflexivity|].
    do 2 eexists. repeat split.
Qed.

(** C10. In a run that returns, the iterations are the responses read, and
    the callback has run once for each.  An iteration whose packet is
    classified as a server error or as a local-infile request is the last:
    the callback is invoked with a nil result and that error, in the state
    the earlier invocations left, and [ExecuteMultiple] returns what the
    callback left, the streaming-done result and a nil error.  An error is
    returned only when the write of the query failed, or when a read at the
    head of the loop failed, and then without a result. *)
Theorem ExecuteMultiple_errors_go_to_callback
        (query : string) (u : U) (c : Conn) (t : PacketConn) run c' :
  Conn_ c = Some t ->
  ExecuteMultiple query perResultCallback u c = Done (run, c') ->
  exists rest,
    answered c (calls run) (responses (raw t)) rest
    /\ user_state run = replay perResultCallback (calls run) u
    /\ touched perResultCallback u (calls run)
    /\ (forall k,
           In k (calls run) ->
           hd_error (call_packet k) = Some ERR_HEADER
           \/ hd_error (call_packet k) = Some LocalInFile_HEADER ->
           call_result k = None
           /\ ((hd_error (call_packet k) = Some ERR_HEADER
                /\ exists ck, settings ck = settings c
                              /\ call_err k = Some (decodeErrorPacket ck (call_packet k)))
               \/ (hd_error (call_packet k) = Some LocalInFile_HEADER
                   /\ call_err k = Some ErrMalformPacket))
           /\ (exists ks,
                  calls run = (ks ++ [k])%list
                  /\ user_state run
                     = fst (perResultCallback None (call_err k)
                                              (replay perResultCallback ks u)))
           /\ ret_result run = Some streamingDoneResult
           /\ ret_err run = None)
    /\ (forall e,
           ret_err run = Some e ->
           ret_result run = None
           /\ ((exists e0, hd None (wscript (raw t)) = Some e0
                           /\ e = Traced e0 /\ calls run = [])
               \/ (exists e0,
                      e = Traced e0
                      /\ hd None (wscript (raw t)) = None
                      /\ (rest = ReadErr e0 :: answers c'
                          \/ (rest = [] /\ e0 = ErrBadConn))))).
Proof.
  intros Ht Hrun.
  destruct (writeCommandStr_attached COM_QUERY query c t Ht)
    as (c1 & t1 & Hwrite & Ht1 & _ & Hresp & _).
  apply ExecuteMultiple_run in Hrun.
  destruct Hrun as (outcome & c1' & Hw' & Hcases).
  rewrite Hwrite in Hw'. injection Hw' as <- <-.
  destruct Hcases as [(e & Hout & -> & _)|(Hout & exit & Hit & Hret)]; simpl.
  { exists (responses (raw t)). split; [reflexivity|]. split; [reflexivity|].
    split; [exact I|]. split; [intros k []|]. intros e' He'. injection He' as <-.
    split; [reflexivity|]. left. exists e. auto. }
  assert (answers c1 = responses (raw t)) as Ha1
    by (unfold answers; rewrite Ht1; exact Hresp).
  assert (settings c1 = settings c) as Hs1
    by exact (proj1 (framed_writeCommandStr _ _ _ _ _ Hwrite)).
  pose proof (Iterates_answered _ c _ _ _ _ _ _ Hit Hs1) as (rest & Hans & Hexit).
  pose proof (Iterates_stops _ _ _ _ _ _ _ Hit) as Hstop.
  pose proof (Iterates_replay _ _ _ _ _ _ _ Hit) as [Hrep Htouch].
  rewrite Ha1 in Hans.
  exists rest. split; [exact Hans|]. split; [exact Hrep|]. split; [exact Htouch|].
  split.
  - intros k Hin Hhdr.
    destruct (answered_In _ _ _ _ _ Hans Hin) as (ahead & next & Hcls).
    destruct (Classifies_error_packet _ _ _ _ _ _ Hhdr Hcls) as (_ & Hres & Herr).
    assert (exists e, call_err k = Some e) as (e & He).
    { destruct Herr as [(_ & ck & _ & ->)|(_ & ->)]; eauto. }
    assert (continuing k = false) as Hk by (unfold continuing; rewrite He; reflexivity).
    split; [exact Hres|]. split; [exact Herr|].
    destruct exit as [e'|].
    { rewrite Forall_forall in Hstop. rewrite (Hstop k Hin) in Hk. discriminate Hk. }
    destruct Hstop as (ks0 & k' & Hks & Hall & Hlast).
    assert (k = k') as <-.
    { rewrite Hks in Hin. apply in_app_or in Hin. destruct Hin as [Hin|[Hin|[]]].
      - rewrite Forall_forall in Hall. rewrite (Hall k Hin) in Hk. discriminate Hk.
      - symmetry. exact Hin. }
    split; [|exact Hret].
    exists ks0. split; [exact Hks|].
    rewrite Hrep, Hks. unfold replay at 1. rewrite fold_left_app. simpl.
    unfold invoke at 1. rewrite Hres. reflexivity.
  - intros e He. destruct exit as [e'|].
    2: { destruct Hret as [_ Hnone]. congruence. }
    destruct Hret as [Hres Herr]. split; [exact Hres|]. right.
    destruct Hexit as (e0 & -> & Hrest). rewrite Herr in He. injection He as <-.
    exists e0. split; [reflexivity|]. split; [exact Hout | exact Hrest].
Qed.

End ExecuteMultipleFacts.



Lemma ExecuteMultiple_returns_streaming_done_witness :
  exists run c',
    ExecuteMultiple (E := Sample.world) "UPDATE a" Sample.counting 0%nat
                    (Sample.session
                       (Sample.peer [ReadData [x00; x01; x00; x02; x00; x00; x00]] []) "shop")
    = Done (run, c')
    /\ ret_err run = None
    /\ ret_result run = Some streamingDoneResult.
Proof.
  eassert (ExecuteMultiple (E := Sample.world) "UPDATE a" Sample.counting 0%nat
             (Sample.session
                (Sample.peer [ReadData [x00; x01; x00; x02; x00; x00; x00]] []) "shop")
           = Done (_, _)) as Hrun by (vm_compute; reflexivity).
  destruct (proj2 (ExecuteMultiple_returns_streaming_done
                     (E := Sample.world) Sample.counting "UPDATE a" 0%nat _) _ _ Hrun)
    as (Herr & res & rs & Hres & _).
  { exists [].  do 2 eexists. repeat split. }
  do 2 eexists. split; [exact Hrun|]. split; [exact Herr | reflexivity].
Defined.

Lemma ExecuteMultiple_errors_go_to_callback_witness :
  exists run c' k ks,
    ExecuteMultiple (E := Sample.world) "UPDATE a; UPDATE b" Sample.counting 0%nat
                    (Sample.session
                       (Sample.peer [ReadData [x00; x01; x00; x0a; x00; x00; x00];
                                     ReadData (xff :: x28 :: x04 :: list_byte_of_string "no")]
                                    []) "shop")
    = Done (run, c')
    /\ calls run = (ks ++ [k])%list
    /\ call_result k = None
    /\ call_err k = Some (MyError 1064 "no")
    /\ user_state run
       = fst (Sample.counting None (call_err k) (replay Sample.counting ks 0%nat))
    /\ ret_result run = Some streamingDoneResult
    /\ ret_err run = None.
Proof.
  eassert (ExecuteMultiple (E := Sample.world) "UPDATE a; UPDATE b" Sample.counting 0%nat
             (Sample.session
                (Sample.peer [ReadData [x00; x01; x00; x0a; x00; x00; x00];
                              ReadData (xff :: x28 :: x04 :: list_byte_of_string "no")]
                             []) "shop")
           = Done (_, _)) as Hrun by (vm_compute; reflexivity).
  epose proof (fun Ht => ExecuteMultiple_errors_go_to_callback
                          (E := Sample.world) Sample.counting "UPDATE a; UPDATE b" 0%nat
                          _ _ _ _ Ht Hrun) as Hthm.
  destruct (Hthm eq_refl) as (rest & _ & _ & _ & Hcall & _).
  assert (forall A (x y : A), In y [x; y]) as Hin by (simpl; auto).
  destruct (Hcall _ (Hin _ _ _) (or_introl eq_refl))
    as (Hres & _ & (ks & Hks & Hstate) & Hret & Herr).
  do 3 eexists. exists ks. split; [exact Hrun|]. split; [exact Hks|].
  split; [exact Hres|]. split; [reflexivity|]. split; [exact Hstate|].
  split; [exact Hret | exact Herr].
Defined.

(** ** Flag rendering *)

Lemma capabilityCases_readable : readable 32 Flags.capabilityCases = true.
Proof. vm_compute. reflexivity. Qed.

Lemma statusCases_readable : readable 16 Flags.statusCases = true.
Proof. vm_compute. reflexivity. Qed.

Lemma Split_noSep (sep : ascii) (s : string) :
  noSep sep s = true -> Flags.Split sep s = [s].
Proof.
  induction s as [|c s IH]; simpl; [reflexivity|].
  intro H. apply andb_true_iff in H. destruct H as [Hc Hs].
  apply negb_true_iff in Hc. rewrite Hc, (IH Hs). reflexivity.
Qed.

Lemma Split_append (sep : ascii) (s rest : string) :
  noSep sep s = true ->
  Flags.Split sep (s ++ String sep rest) = s :: Flags.Split sep rest.
Proof.
  induction s as [|c s IH]; simpl.
  - intros _. rewrite Ascii.eqb_refl. reflexivity.
  - intro H. apply andb_true_iff in H. destruct H as [Hc Hs].
    apply negb_true_iff in Hc. rewrite Hc, (IH Hs). reflexivity.
Qed.

(** Splitting a join of names without separator gives the names back. *)
Lemma Split_Join (sep : ascii) (names : list string) :
  names <> [] ->
  forallb (noSep sep) names = true ->
  Flags.Split sep (Join names (String sep "")) = names.
Proof.
  unfold Join. induction names as [|x xs IH]; [congruence|]. intros _ H.
  simpl in H. apply andb_true_iff in H. destruct H as [Hx Hxs].
  destruct xs as [|y ys].
  - simpl. apply Split_noSep. exact Hx.
  - change (String.concat (String sep "") (x :: y :: ys))
      with (x ++ String sep (String.concat (String sep "") (y :: ys)))%string.
    rewrite (Split_append _ _ _ Hx). f_equal. apply IH; [discriminate | exact Hxs].
Qed.

Lemma Join_not_empty (sep : string) (x : string) (xs : list string) :
  String.eqb x "" = false -> String.eqb (Join (x :: xs) sep) "" = false.
Proof.
  unfold Join. destruct x as [|c x]; [discriminate|]. intros _.
  destruct xs; reflexivity.
Qed.

(** *** Bits *)

Lemma bit_pow2 (j : nat) : Flags.bit j = 2 ^ Z.of_nat j.
Proof. unfold Flags.bit. apply Z.shiftl_1_l. Qed.

Lemma testbit_bit (j : nat) (k : Z) :
  0 <= k -> Z.testbit (Flags.bit j) k = (Z.of_nat j =? k).
Proof. intro Hk. rewrite bit_pow2. apply Z.pow2_bits_eqb. lia. Qed.

Lemma land_bit (m : Z) (j : nat) :
  Z.land m (Flags.bit j) = if Z.testbit m (Z.of_nat j) then Flags.bit j else 0.
Proof.
  apply Z.bits_inj'. intros k Hk. rewrite Z.land_spec, testbit_bit by assumption.
  destruct (Z.eqb_spec (Z.of_nat j) k) as [<-|Hne].
  - rewrite andb_true_r. destruct (Z.testbit m (Z.of_nat j)).
    + rewrite testbit_bit by lia. symmetry. apply Z.eqb_refl.
    + symmetry. apply Z.bits_0.
  - rewrite andb_false_r. destruct (Z.testbit m (Z.of_nat j)).
    + rewrite testbit_bit by assumption. symmetry. apply Z.eqb_neq. assumption.
    + symmetry. apply Z.bits_0.
Qed.

Lemma bit_positive (j : nat) : 0 < Flags.bit j.
Proof. rewrite bit_pow2. apply Z.pow_pos_nonneg; lia. Qed.

Lemma small_high_bits (w : nat) (m : Z) (k : Z) :
  0 <= m < 2 ^ Z.of_nat w -> Z.of_nat w <= k -> Z.testbit m k = false.
Proof.
  intros Hm Hk. apply Z.testbit_false; [lia|].
  rewrite Z.div_small; [reflexivity|]. split; [lia|].
  apply Z.lt_le_trans with (2 ^ Z.of_nat w); [lia|].
  apply Z.pow_le_mono_r; lia.
Qed.

Lemma no_bits_zero (m : Z) :
  0 <= m -> (forall k, 0 <= k -> Z.testbit m k = false) -> m = 0.
Proof.
  intros Hm H. apply Z.bits_inj'. intros k Hk. rewrite Z.bits_0. apply H. exact Hk.
Qed.

Lemma testbit_maskOf (js : list nat) (k : Z) :
  0 <= k -> Z.testbit (maskOf js) k = existsb (fun j => Z.of_nat j =? k) js.
Proof.
  intro Hk. induction js as [|j js IH]; simpl.
  - apply Z.bits_0.
  - rewrite Z.lor_spec, testbit_bit, IH by assumption. reflexivity.
Qed.

(** The set bits of a [w]-bit mask make the mask. *)
Lemma maskOf_setBits (w : nat) (m : Z) :
  0 <= m < 2 ^ Z.of_nat w -> maskOf (Flags.setBits w m) = m.
Proof.
  intro Hm. apply Z.bits_inj'. intros k Hk. rewrite testbit_maskOf by assumption.
  unfold Flags.setBits. apply eq_true_iff_eq. rewrite existsb_exists. split.
  - intros (j & Hin & Hj). apply filter_In in Hin. apply Z.eqb_eq in Hj. subst k. tauto.
  - intro Hbit. exists (Z.to_nat k). rewrite filter_In, in_seq, Z2Nat.id by assumption.
    repeat split; try assumption; try apply Z.eqb_refl; try lia.
    destruct (Z_lt_le_dec k (Z.of_nat w)) as [Hlt|Hge]; [lia|].
    rewrite (small_high_bits w m k Hm Hge) in Hbit. discriminate.
Qed.

Lemma filter_none {A : Type} (f : A -> bool) (l : list A) :
  (forall x, In x l -> f x = false) -> filter f l = [].
Proof.
  induction l as [|x l IH]; [reflexivity|]. intro H. simpl.
  rewrite (H x (or_introl eq_refl)). apply IH. intros y Hy. apply H. right. exact Hy.
Qed.

Section Scan.

Variable w : nat.
Variable conv : Z -> Z.
Variable cases : list (Z * string).
Hypothesis conv_width : forall z, conv z = z mod 2 ^ Z.of_nat w.

Local Abbreviation name := (fun j => Flags.flagName cases (Flags.bit j)).

Lemma conv_bit (j : nat) : (j < w)%nat -> conv (Z.shiftl 1 (Z.of_nat j)) = Flags.bit j.
Proof.
  intro Hj. rewrite conv_width. fold (Flags.bit j). rewrite bit_pow2.
  apply Z.mod_small. split; [apply Z.pow_nonneg; lia|].
  apply Z.pow_lt_mono_r; lia.
Qed.

(** The loop started at position [i] with [fuel] positions to go, on flags
    that hold no bit outside of them: it appends the names of the set bits
    in ascending position and leaves with all flags cleared. *)
Lemma scan_spec (fuel : nat) :
  forall (i : nat) (flags : Z) (names : list string),
    (i + fuel <= w)%nat ->
    0 <= flags ->
    (forall k, 0 <= k < Z.of_nat i -> Z.testbit flags k = false) ->
    (forall k, Z.of_nat (i + fuel) <= k -> Z.testbit flags k = false) ->
    Flags.scan conv cases fuel (Z.of_nat i) flags names
    = ((names ++ map name (filter (fun j => Z.testbit flags (Z.of_nat j)) (seq i fuel)))%list,
       0).
Proof.
  induction fuel as [|fuel IH]; intros i flags names Hw Hpos Hlow Hhigh.
  - simpl. rewrite app_nil_r. f_equal. apply no_bits_zero; [assumption|].
    intros k Hk. destruct (Z_lt_le_dec k (Z.of_nat i)); [apply Hlow | apply Hhigh]; lia.
  - cbn [Flags.scan seq filter].
    destruct (Z.eqb_spec flags 0) as [->|Hnz].
    { rewrite Z.bits_0. f_equal.
      rewrite filter_none; [simpl; rewrite app_nil_r; reflexivity|].
      intros j _. apply Z.bits_0. }
    rewrite conv_bit by lia. rewrite land_bit.
    destruct (Z.testbit flags (Z.of_nat i)) eqn:Hbit.
    + pose proof (bit_positive i) as Hp.
      destruct (Z.eqb_spec (Flags.bit i) 0) as [H0|_]; [lia|].
      replace (Z.of_nat i + 1) with (Z.of_nat (S i)) by lia.
      assert (forall k, 0 <= k ->
                Z.testbit (Z.lxor flags (Flags.bit i)) k
                = xorb (Z.testbit flags k) (Z.of_nat i =? k)) as Hx.
      { intros k Hk. rewrite Z.lxor_spec, testbit_bit by assumption. reflexivity. }
      rewrite IH.
      * rewrite <- app_assoc. cbn [map app]. do 4 f_equal.
        apply filter_ext_in. intros j Hj. apply in_seq in Hj.
        rewrite Hx by lia. destruct (Z.eqb_spec (Z.of_nat i) (Z.of_nat j)); [lia|].
        apply xorb_false_r.
      * lia.
      * apply Z.lxor_nonneg. pose proof (bit_positive i). split; intro; lia.
      * intros k Hk. rewrite Hx by lia.
        destruct (Z.eqb_spec (Z.of_nat i) k) as [<-|Hne].
        -- rewrite Hbit. reflexivity.
        -- rewrite xorb_false_r. apply Hlow. lia.
      * intros k Hk. rewrite Hx by lia.
        destruct (Z.eqb_spec (Z.of_nat i) k) as [<-|Hne]; [lia|].
        rewrite xorb_false_r. apply Hhigh. lia.
    + rewrite Z.eqb_refl.
      replace (Z.of_nat i + 1) with (Z.of_nat (S i)) by lia.
      apply IH; try assumption; try lia.
      * intros k Hk. destruct (Z.eq_dec k (Z.of_nat i)) as [->|Hne];
          [exact Hbit | apply Hlow; lia].
      * intros k Hk. apply Hhigh. lia.
Qed.

(** The names rendered for a [w]-bit mask, and the exit of the loop. *)
Lemma scan_names (m : Z) :
  0 <= m < 2 ^ Z.of_nat w ->
  Flags.scan conv cases w 0 m [] = (map name (Flags.setBits w m), 0).
Proof.
  intro Hm. apply (scan_spec w 0 m []); try lia.
  intros k Hk. apply (small_high_bits w); assumption.
Qed.

Hypothesis cases_readable : readable w cases = true.

Lemma readable_at (j : nat) :
  (j < w)%nat ->
  noSep "|" (name j) = true
  /\ String.eqb (name j) "" = false
  /\ Flags.parseName cases (name j) = Some (Flags.bit j).
Proof.
  intro Hj. unfold readable in cases_readable.
  rewrite forallb_forall in cases_readable.
  specialize (cases_readable j). rewrite in_seq in cases_readable.
  specialize (cases_readable ltac:(lia)). cbv zeta in cases_readable.
  apply andb_true_iff in cases_readable. destruct cases_readable as [H12 H3].
  apply andb_true_iff in H12. destruct H12 as [H1 H2].
  apply negb_true_iff in H2. repeat split; try assumption.
  destruct (Flags.parseName cases (name j)) as [v|]; [|discriminate].
  apply Z.eqb_eq in H3. congruence.
Qed.

Lemma parseNames_names (js : list nat) :
  Forall (fun j => (j < w)%nat) js ->
  Flags.parseNames cases (map name js) = Some (maskOf js).
Proof.
  induction 1 as [|j js Hj Hjs IH]; [reflexivity|].
  cbn [map Flags.parseNames]. rewrite (proj2 (proj2 (readable_at j Hj))), IH.
  reflexivity.
Qed.

Lemma setBits_below (m : Z) : Forall (fun j => (j < w)%nat) (Flags.setBits w m).
Proof.
  apply Forall_forall. intros j Hj. unfold Flags.setBits in Hj.
  apply filter_In in Hj. destruct Hj as [Hj _]. apply in_seq in Hj. lia.
Qed.

Lemma parseFlags_Join (js : list nat) :
  Forall (fun j => (j < w)%nat) js ->
  Flags.parseFlags cases (Join (map name js) "|") = Some (maskOf js).
Proof.
  intro Hbelow. pose proof (parseNames_names js Hbelow) as Hparse.
  destruct js as [|j js]; [reflexivity|].
  assert (forallb (noSep "|") (map name (j :: js)) = true) as Hsep.
  { apply forallb_forall. intros s Hs. apply in_map_iff in Hs.
    destruct Hs as (j' & <- & Hin). rewrite Forall_forall in Hbelow.
    apply (readable_at j' (Hbelow j' Hin)). }
  inversion Hbelow as [|? ? Hj Hjs]; subst.
  unfold Flags.parseFlags. cbn [map] in *.
  rewrite Join_not_empty by apply (readable_at j Hj).
  change "|"%string with (String "|"%char "").
  rewrite Split_Join; [exact Hparse | discriminate | exact Hsep].
Qed.

(** Reading the joined names of a [w]-bit mask gives the mask. *)
Lemma parseFlags_names (m : Z) :
  0 <= m < 2 ^ Z.of_nat w ->
  Flags.parseFlags cases (Join (map name (Flags.setBits w m)) "|") = Some m.
Proof.
  intro Hm. rewrite parseFlags_Join by apply setBits_below.
  rewrite maskOf_setBits by assumption. reflexivity.
Qed.

End Scan.

(** C6. For every capability mask and every status mask of the field's width,
    the names rendered are those of the set bits in ascending bit position
    (the loop leaving with every flag cleared), and reading the rendered
    string against the same table gives the mask back. *)
Theorem flag_strings_round_trip (c : Conn) :
  (0 <= capability c < 2 ^ 32 ->
     Flags.capabilityNames (capability c)
     = map (fun j => Flags.flagName Flags.capabilityCases (Flags.bit j))
           (Flags.setBits 32 (capability c))
     /\ snd (Flags.scan uint32 Flags.capabilityCases 32 0 (capability c) []) = 0
     /\ Flags.parseFlags Flags.capabilityCases (CapabilityString c) = Some (capability c))
  /\ (0 <= status c < 2 ^ 16 ->
        Flags.statusNames (status c)
        = map (fun j => Flags.flagName Flags.statusCases (Flags.bit j))
              (Flags.setBits 16 (status c))
        /\ snd (Flags.scan uint16 Flags.statusCases 16 0 (status c) []) = 0
        /\ Flags.parseFlags Flags.statusCases (StatusString c) = Some (status c)).
Proof.
  split; intro Hm.
  - pose proof (scan_names 32 uint32 Flags.capabilityCases (fun z => eq_refl)
                           (capability c) Hm) as Hscan.
    unfold CapabilityString, Flags.CapabilityString_of, Flags.capabilityNames.
    rewrite Hscan. cbn [fst snd]. repeat split.
    apply (parseFlags_names 32 Flags.capabilityCases capabilityCases_readable). exact Hm.
  - pose proof (scan_names 16 uint16 Flags.statusCases (fun z => eq_refl)
                           (status c) Hm) as Hscan.
    unfold StatusString, Flags.StatusString_of, Flags.statusNames.
    rewrite Hscan. cbn [fst snd]. repeat split.
    apply (parseFlags_names 16 Flags.statusCases statusCases_readable). exact Hm.
Qed.

Lemma flag_strings_round_trip_witness :
  CapabilityString (set_capability 545 new_Conn)
  = "CLIENT_LONG_PASSWORD|CLIENT_COMPRESS|CLIENT_PROTOCOL_41"
  /\ Flags.parseFlags Flags.capabilityCases (CapabilityString (set_capability 545 new_Conn))
     = Some 545
  /\ StatusString (set_status 32782 new_Conn)
     = "SERVER_STATUS_AUTOCOMMIT|(4)|SERVER_MORE_RESULTS_EXISTS|(32768)"
  /\ Flags.parseFlags Flags.statusCases (StatusString (set_status 32782 new_Conn))
     = Some 32782.
Proof.
  destruct (flag_strings_round_trip (set_capability 545 new_Conn)) as [Hcap _].
  destruct (flag_strings_round_trip (set_status 32782 new_Conn)) as [_ Hstat].
  destruct Hcap as (_ & _ & Hcap); [cbn; lia|].
  destruct Hstat as (_ & _ & Hstat); [cbn; lia|].
  split; [reflexivity|]. split; [exact Hcap|]. split; [reflexivity | exact Hstat].
Defined.

(** ** Examples *)

Example getNetProto_socket : getNetProto "/var/lib/mysql/mysql.sock" = "unix".
Proof. reflexivity. Qed.

Example getNetProto_host : getNetProto "db.example:3306" = "tcp".
Proof. reflexivity. Qed.

Example CapabilityString_all :
  Flags.capabilityNames (2 ^ 32 - 1) = map snd Flags.capabilityCases.
Proof. vm_compute. reflexivity. Qed.

Example StatusString_unknown_bits :
  Flags.StatusString_of (4 + 8192) = "(4)|(8192)".
Proof. vm_compute. reflexivity. Qed.

Example ExecuteMultiple_empty_packet :
  ExecuteMultiple (E := Sample.world) "UPDATE a" Sample.counting 0%nat
                  (Sample.session (Sample.peer [ReadData []] []) "shop")
  = Panic "index out of range [0] with length 0".
Proof. vm_compute. reflexivity. Qed.

Example ExecuteMultiple_peer_gone :
  exists run c',
    ExecuteMultiple (E := Sample.world) "UPDATE a" Sample.counting 0%nat
                    (Sample.session (Sample.peer [] []) "shop")
    = Done (run, c')
    /\ ret_result run = None
    /\ ret_err run = Some (Traced ErrBadConn)
    /\ calls run = [].
Proof. do 2 eexists. split; [vm_compute; reflexivity|]. repeat split. Qed.

(** * Further properties of the session *)

(** Bounds of a closed word, by computation. *)
Ltac in_range :=
  vm_compute; first [reflexivity | discriminate | split; first [reflexivity | discriminate]].

(** ** Client capabilities *)

Lemma land_nonneg_r (a b : Z) : 0 <= b -> 0 <= Z.land a b.
Proof. intro H. apply Z.land_nonneg. right. exact H. Qed.

Lemma lor_below (a b : Z) (n : Z) :
  0 <= n -> 0 <= a < 2 ^ n -> 0 <= b < 2 ^ n -> 0 <= Z.lor a b < 2 ^ n.
Proof.
  intros Hn Ha Hb. assert (0 <= Z.lor a b) as Hpos by (apply Z.lor_nonneg; lia).
  split; [exact Hpos|].
  destruct (Z.eq_dec (Z.lor a b) 0) as [->|Hnz]; [apply Z.pow_pos_nonneg; lia|].
  assert (0 < n) as Hn'.
  { destruct (Z.eq_dec n 0) as [->|]; [|lia]. change (2 ^ 0) with 1 in *.
    assert (a = 0) by lia. assert (b = 0) by lia. subst. contradiction. }
  apply Z.log2_lt_pow2; [lia|]. rewrite Z.log2_lor by lia.
  apply Z.max_lub_lt.
  - destruct (Z.eq_dec a 0) as [->|?]; [simpl|apply Z.log2_lt_pow2]; lia.
  - destruct (Z.eq_dec b 0) as [->|?]; [simpl|apply Z.log2_lt_pow2]; lia.
Qed.

(** The bits of [uint32(^cap)]. *)
Lemma testbit_uint32_lnot (cap k : Z) :
  0 <= k -> Z.testbit (uint32 (Z.lnot cap)) k = (k <? 32) && negb (Z.testbit cap k).
Proof.
  intro Hk. unfold uint32. destruct (Z.ltb_spec k 32) as [Hlt|Hge].
  - rewrite Z.mod_pow2_bits_low by lia. rewrite Z.lnot_spec by assumption. reflexivity.
  - rewrite Z.mod_pow2_bits_high by lia. reflexivity.
Qed.

(** [x & y > 0] on non-negative words: some bit is set in both. *)
Lemma land_positive_iff (a b : Z) :
  0 <= a ->
  (Z.land a b >? 0) = true
  <-> exists k, 0 <= k /\ Z.testbit a k = true /\ Z.testbit b k = true.
Proof.
  intro Ha. assert (0 <= Z.land a b) as Hpos by (apply Z.land_nonneg; left; exact Ha).
  rewrite Z.gtb_ltb, Z.ltb_lt. split.
  - intro Hgt.
    exists (Z.log2 (Z.land a b)). pose proof (Z.bit_log2 (Z.land a b) Hgt) as Hbit.
    rewrite Z.land_spec in Hbit. apply andb_true_iff in Hbit.
    split; [apply Z.log2_nonneg | exact Hbit].
  - intros (k & Hk & Hak & Hbk).
    destruct (Z.eq_dec (Z.land a b) 0) as [H0|Hnz]; [|lia].
    assert (Z.testbit (Z.land a b) k = true) as Hbit
      by (rewrite Z.land_spec, Hak, Hbk; reflexivity).
    rewrite H0, Z.bits_0 in Hbit. discriminate.
Qed.

Lemma below_of_bits (a n : Z) :
  0 <= n -> 0 <= a -> (forall k, n <= k -> Z.testbit a k = false) -> 0 <= a < 2 ^ n.
Proof.
  intros Hn Ha Hbits. split; [exact Ha|].
  assert (a = a mod 2 ^ n) as ->.
  { apply Z.bits_inj'. intros k Hk. destruct (Z_lt_le_dec k n) as [Hlt|Hge].
    - rewrite Z.mod_pow2_bits_low by lia. reflexivity.
    - rewrite Z.mod_pow2_bits_high by lia. apply Hbits. exact Hge. }
  apply Z.mod_pos_bound. apply Z.pow_pos_nonneg; lia.
Qed.

Lemma set_ccaps_same (c : Conn) : set_ccaps (ccaps c) c = c.
Proof. destruct c. reflexivity. Qed.

Lemma set_ccaps_twice (a b : Z) (c : Conn) : set_ccaps a (set_ccaps b c) = set_ccaps a c.
Proof. reflexivity. Qed.

(** X1. After [SetCapability(cap)] with a non-zero [cap], [HasCapability(cap)]
    holds; the capabilities that held before still hold, the client
    capabilities stay a 32-bit word, and the server capabilities, hence
    [CapabilityString], are as before. *)
Theorem SetCapability_then_HasCapability (c : Conn) (cap : Z) :
  0 <= ccaps c < 2 ^ 32 ->
  0 < cap < 2 ^ 32 ->
  exists c',
    SetCapability cap c = Done (tt, c')
    /\ HasCapability cap c' = true
    /\ (forall other, HasCapability other c = true -> HasCapability other c' = true)
    /\ 0 <= ccaps c' < 2 ^ 32
    /\ CapabilityString c' = CapabilityString c.
Proof.
  intros Hc Hcap. eexists. split; [reflexivity|].
  unfold HasCapability, CapabilityString. cbn [ccaps capability set_ccaps].
  assert (0 <= Z.lor (ccaps c) cap) as Hpos by (apply Z.lor_nonneg; lia).
  split; [|split; [|split; [split|]]].
  - apply land_positive_iff; [exact Hpos|]. exists (Z.log2 cap).
    pose proof (Z.bit_log2 cap ltac:(lia)) as Hbit.
    split; [apply Z.log2_nonneg|]. rewrite Z.lor_spec, Hbit, orb_true_r. auto.
  - intros other Hother. apply land_positive_iff in Hother; [|lia].
    destruct Hother as (k & Hk & Ha & Hb). apply land_positive_iff; [exact Hpos|].
    exists k. rewrite Z.lor_spec, Ha. auto.
  - exact Hpos.
  - apply (lor_below (ccaps c) cap 32); lia.
  - reflexivity.
Qed.

Lemma SetCapability_then_HasCapability_witness :
  exists c',
    SetCapability CLIENT_COMPRESS (set_ccaps CLIENT_FOUND_ROWS new_Conn) = Done (tt, c')
    /\ HasCapability CLIENT_COMPRESS c' = true
    /\ HasCapability CLIENT_FOUND_ROWS c' = true.
Proof.
  destruct (SetCapability_then_HasCapability
              (set_ccaps CLIENT_FOUND_ROWS new_Conn) CLIENT_COMPRESS)
    as (c' & Hset & Hhas & Hkeep & _); [in_range | in_range |].
  exists c'. repeat split; [exact Hset | exact Hhas | apply Hkeep; reflexivity].
Defined.

(** X2. After [UnsetCapability(cap)], [HasCapability(cap)] does not hold,
    whatever the session; on a 32-bit word of client capabilities the
    capabilities that share no bit with [cap] are as before. *)
Theorem UnsetCapability_then_HasCapability (c : Conn) (cap : Z) :
  exists c',
    UnsetCapability cap c = Done (tt, c')
    /\ HasCapability cap c' = false
    /\ (0 <= ccaps c < 2 ^ 32 ->
        0 <= ccaps c' < 2 ^ 32
        /\ forall other, Z.land other cap = 0 ->
                         HasCapability other c' = HasCapability other c).
Proof.
  eexists. split; [reflexivity|]. unfold HasCapability. cbn [ccaps set_ccaps]. split.
  - assert (Z.land (Z.land (ccaps c) (uint32 (Z.lnot cap))) cap = 0) as ->; [|reflexivity].
    apply Z.bits_inj'. intros k Hk.
    rewrite !Z.land_spec, testbit_uint32_lnot, Z.bits_0 by assumption.
    destruct (Z.testbit cap k); rewrite ?andb_false_r; reflexivity.
  - intro Hc. split.
    + apply below_of_bits; [lia | apply Z.land_nonneg; lia |].
      intros k Hk. rewrite Z.land_spec, testbit_uint32_lnot by lia.
      destruct (Z.ltb_spec k 32); [lia|]. apply andb_false_r.
    + intros other Hother. f_equal. apply Z.bits_inj'. intros k Hk.
      rewrite !Z.land_spec, testbit_uint32_lnot by assumption.
      assert (Z.testbit (Z.land other cap) k = false) as Hbit
        by (rewrite Hother; apply Z.bits_0).
      rewrite Z.land_spec in Hbit.
      destruct (Z.ltb_spec k 32) as [Hlt|Hge].
      * destruct (Z.testbit other k), (Z.testbit cap k), (Z.testbit (ccaps c) k);
          try reflexivity; discriminate.
      * rewrite (small_high_bits 32 (ccaps c) k) by (simpl; lia). reflexivity.
Qed.

Lemma UnsetCapability_then_HasCapability_witness :
  exists c',
    UnsetCapability CLIENT_COMPRESS
                    (set_ccaps (CLIENT_COMPRESS + CLIENT_FOUND_ROWS) new_Conn)
    = Done (tt, c')
    /\ HasCapability CLIENT_COMPRESS c' = false
    /\ HasCapability CLIENT_FOUND_ROWS c' = true.
Proof.
  destruct (UnsetCapability_then_HasCapability
              (set_ccaps (CLIENT_COMPRESS + CLIENT_FOUND_ROWS) new_Conn) CLIENT_COMPRESS)
    as (c' & Hunset & Hhas & Hkeep).
  exists c'. split; [exact Hunset|]. split; [exact Hhas|].
  destruct Hkeep as [_ Hkeep]; [in_range|]. rewrite Hkeep; reflexivity.
Defined.

(** X3. On a 32-bit word of client capabilities that holds no bit of [cap],
    [UnsetCapability(cap)] after [SetCapability(cap)] gives the session
    back. *)
Theorem UnsetCapability_undoes_SetCapability (c : Conn) (cap : Z) :
  0 <= ccaps c < 2 ^ 32 ->
  Z.land (ccaps c) cap = 0 ->
  exists c1,
    SetCapability cap c = Done (tt, c1) /\ UnsetCapability cap c1 = Done (tt, c).
Proof.
  intros Hc Hfresh. eexists. split; [reflexivity|].
  unfold UnsetCapability. cbn [ccaps set_ccaps]. rewrite set_ccaps_twice.
  assert (Z.land (Z.lor (ccaps c) cap) (uint32 (Z.lnot cap)) = ccaps c) as ->;
    [|rewrite set_ccaps_same; reflexivity].
  apply Z.bits_inj'. intros k Hk.
  rewrite Z.land_spec, Z.lor_spec, testbit_uint32_lnot by assumption.
  assert (Z.testbit (Z.land (ccaps c) cap) k = false) as Hbit
    by (rewrite Hfresh; apply Z.bits_0).
  rewrite Z.land_spec in Hbit.
  destruct (Z.ltb_spec k 32) as [Hlt|Hge].
  - destruct (Z.testbit (ccaps c) k), (Z.testbit cap k); try reflexivity; discriminate.
  - rewrite (small_high_bits 32 (ccaps c) k) by (simpl; lia). rewrite andb_false_r.
    reflexivity.
Qed.

Lemma UnsetCapability_undoes_SetCapability_witness :
  exists c1,
    SetCapability CLIENT_MULTI_STATEMENTS (set_ccaps CLIENT_FOUND_ROWS new_Conn)
    = Done (tt, c1)
    /\ UnsetCapability CLIENT_MULTI_STATEMENTS c1
       = Done (tt, set_ccaps CLIENT_FOUND_ROWS new_Conn).
Proof.
  apply (UnsetCapability_undoes_SetCapability
           (set_ccaps CLIENT_FOUND_ROWS new_Conn) CLIENT_MULTI_STATEMENTS);
    [in_range | reflexivity].
Defined.

(** X4. [HasCapability] of a mask of several flags holds as soon as one of
    them is set: it is the disjunction over the flags of the mask. *)
Theorem HasCapability_any_flag (c : Conn) (a b : Z) :
  0 <= ccaps c ->
  HasCapability (Z.lor a b) c = HasCapability a c || HasCapability b c.
Proof.
  intro Hc. unfold HasCapability. apply eq_true_iff_eq.
  rewrite orb_true_iff, !land_positive_iff by exact Hc. split.
  - intros (k & Hk & Hck & Hab). rewrite Z.lor_spec in Hab.
    apply orb_true_iff in Hab. destruct Hab; [left|right]; exists k; auto.
  - intros [(k & Hk & Hck & Hx)|(k & Hk & Hck & Hx)]; exists k;
      rewrite Z.lor_spec, Hx, ?orb_true_r; auto.
Qed.

Lemma HasCapability_any_flag_witness :
  HasCapability (Z.lor CLIENT_COMPRESS CLIENT_SSL) (set_ccaps CLIENT_SSL new_Conn) = true.
Proof.
  rewrite (HasCapability_any_flag (set_ccaps CLIENT_SSL new_Conn) CLIENT_COMPRESS CLIENT_SSL)
    by (in_range).
  reflexivity.
Defined.

(** ** The handshake and the failures of a connect *)

Lemma Close_closed (c c' : Conn) (x : option error) :
  Close c = Done (x, c') ->
  exists t t',
    Conn_ c = Some t /\ Conn_ c' = Some t'
    /\ closed (raw t') = true
    /\ wlog (raw t') = wlog (raw t)
    /\ responses (raw t') = responses (raw t)
    /\ x = closeErr (raw t).
Proof.
  unfold Close, promoted. destruct (Conn_ c) as [t|]; [|discriminate].
  intro H. injection H as <- <-. do 2 eexists. repeat split.
Qed.

Lemma Close_then_ret_closed {A : Type} (a : A) (c c' : Conn) (x : A) :
  (_ <- Close ;; ret a) c = Done (x, c') ->
  x = a /\ exists t', Conn_ c' = Some t' /\ closed (raw t') = true.
Proof.
  unfold bind. destruct (Close c) as [[y c1]| |] eqn:Hc; try discriminate.
  intro H. injection H as <- <-. split; [reflexivity|].
  destruct (Close_closed _ _ _ Hc) as (t & t' & _ & Ht' & Hcl & _). eauto.
Qed.

Section HandshakeFacts.

Context {E : Collaborators}.

Lemma Close_then_ret {A : Type} (a : A) (c c' : Conn) (x : A) :
  (_ <- Close ;; ret a) c = Done (x, c') ->
  x = a /\ exists y, Close c = Done (y, c').
Proof.
  unfold bind. destruct (Close c) as [[y c1]| |] eqn:Hc; try discriminate.
  intro H. injection H as <- <-. split; [reflexivity|]. exists y. reflexivity.
Qed.

Lemma handshake_error (c c' : Conn) (e : error) :
  handshake c = Done (Some e, c') ->
  (exists t', Conn_ c' = Some t' /\ closed (raw t') = true)
  /\ ((exists e0 c1 x,
          readInitialHandshake c = Done (Some e0, c1)
          /\ Close c1 = Done (x, c')
          /\ e = Traced (Wrapf "readInitialHandshake: " e0))
      \/ (exists e0 c1 c2 x,
             readInitialHandshake c = Done (None, c1)
             /\ writeAuthHandshake c1 = Done (Some e0, c2)
             /\ Close c2 = Done (x, c')
             /\ e = Traced (Wrapf "writeAuthHandshake: " e0))
      \/ (exists e0 c1 c2 c3 x,
             readInitialHandshake c = Done (None, c1)
             /\ writeAuthHandshake c1 = Done (None, c2)
             /\ handleAuthResult c2 = Done (Some e0, c3)
             /\ Close c3 = Done (x, c')
             /\ e = Traced (Wrapf "handleAuthResult: " e0))).
Proof.
  unfold handshake. unfold bind at 1.
  destruct (readInitialHandshake c) as [[[e0|] c1]| |] eqn:H1; try discriminate.
  { intro H. pose proof (Close_then_ret _ _ _ _ H) as [_ (y & Hy)].
    apply Close_then_ret_closed in H. destruct H as [H Hcl].
    cbn in H. injection H as ->. split; [exact Hcl|]. left.
    exists e0, c1, y. repeat split; assumption. }
  unfold bind at 1.
  destruct (writeAuthHandshake c1) as [[[e0|] c2]| |] eqn:H2; try discriminate.
  { intro H. pose proof (Close_then_ret _ _ _ _ H) as [_ (y & Hy)].
    apply Close_then_ret_closed in H. destruct H as [H Hcl].
    cbn in H. injection H as ->. split; [exact Hcl|]. right. left.
    exists e0, c1, c2, y. repeat split; assumption. }
  unfold bind at 1.
  destruct (handleAuthResult c2) as [[[e0|] c3]| |] eqn:H3; try discriminate.
  intro H. pose proof (Close_then_ret _ _ _ _ H) as [_ (y & Hy)].
  apply Close_then_ret_closed in H. destruct H as [H Hcl].
  cbn in H. injection H as ->. split; [exact Hcl|]. right. right.
  exists e0, c1, c2, c3, y. repeat split; assumption.
Qed.

(** X5. A handshake that returns an error has closed the transport, and the
    error names the phase that failed: the phases run in the order read,
    write, result, and none runs after a failed one, for the session
    returned is the one the failed phase left, closed and nothing more. *)
Theorem handshake_failure_closes_transport (c c' : Conn) (e : error) :
  handshake c = Done (Some e, c') ->
  (exists t', Conn_ c' = Some t' /\ closed (raw t') = true)
  /\ ((exists e0 c1 x,
          readInitialHandshake c = Done (Some e0, c1)
          /\ Close c1 = Done (x, c')
          /\ e = Traced (Wrapf "readInitialHandshake: " e0))
      \/ (exists e0 c1 c2 x,
             readInitialHandshake c = Done (None, c1)
             /\ writeAuthHandshake c1 = Done (Some e0, c2)
             /\ Close c2 = Done (x, c')
             /\ e = Traced (Wrapf "writeAuthHandshake: " e0))
      \/ (exists e0 c1 c2 c3 x,
             readInitialHandshake c = Done (None, c1)
             /\ writeAuthHandshake c1 = Done (None, c2)
             /\ handleAuthResult c2 = Done (Some e0, c3)
             /\ Close c3 = Done (x, c')
             /\ e = Traced (Wrapf "handleAuthResult: " e0))).
Proof. apply handshake_error. Qed.



Lemma applyOptions_app (pre post : list Option) (c : Conn) :
  applyOptions (pre ++ post) c
  = match applyOptions pre c with
    | Done (None, c1) => applyOptions post c1
    | other => other
    end.
Proof.
  revert c. induction pre as [|o pre IH]; intro c; [reflexivity|].
  cbn [app applyOptions]. unfold bind.
  destruct (o c) as [[[e|] c1]| |]; try reflexivity. apply IH.
Qed.

(** X7. When an option fails, the options after it are not applied, the
    connect returns that error as it is, without a session, and the dialed
    connection is closed without a byte written to it or read from it. *)
Theorem ConnectWithDialer_option_failure
        (ctx : Context) (network addr user password dbName : string)
        (dialer : Dialer) (pre : list Option) (option : Option) (post : list Option)
        (raw0 : RawConn) (c1 c2 : Conn) (e : error) :
  let selected := if String.eqb network "" then getNetProto addr else network in
  let start :=
    set_charset DEFAULT_CHARSET
      (set_proto selected
         (set_db dbName
            (set_password password
               (set_user user
                  (set_attributes [("_client_name", "go-mysql");
                                   ("_os", runtime_GOOS);
                                   ("_platform", runtime_GOARCH);
                                   ("_runtime_version", runtime_Version)]
                                  (set_BufferSize defaultBufferSize new_Conn)))))) in
  dialer ctx selected addr = inl raw0 ->
  applyOptions pre start = Done (None, c1) ->
  option c1 = Done (Some e, c2) ->
  exists raw',
    ConnectWithDialer ctx network addr user password dbName dialer
                      (pre ++ option :: post)
    = Done (mkConnected None (Some e) (Some raw'))
    /\ closed raw' = true
    /\ wlog raw' = wlog raw0
    /\ responses raw' = responses raw0.
Proof.
  intros selected start Hdial Hpre Hopt.
  unfold ConnectWithDialer. fold selected. rewrite Hdial. fold start.
  rewrite applyOptions_app, Hpre. cbn [applyOptions]. unfold bind at 1. rewrite Hopt.
  unfold ret. eexists. repeat split.
Qed.

End HandshakeFacts.

(** A peer that greets and then fails the write of the authentication:
    the session returned is the one that write left, closed, with the one
    packet handed to the transport and the second answer unread. *)
Lemma handshake_failure_closes_transport_witness :
  let s := set_user "root"
             (Sample.session
                (Sample.peer [ReadData (x0a :: x00 :: x02 :: x00 :: x00
                                            :: list_byte_of_string "8.0.36");
                              ReadData [x00; x00; x00; x02; x00; x00; x00]]
                             [Some ErrBadConn]) "shop") in
  exists c' t' c1 c2 x,
    handshake (E := Sample.world) s
    = Done (Some (Traced (Wrapf "writeAuthHandshake: " ErrBadConn)), c')
    /\ Conn_ c' = Some t'
    /\ closed (raw t') = true
    /\ readInitialHandshake (Collaborators := Sample.world) s = Done (None, c1)
    /\ writeAuthHandshake (Collaborators := Sample.world) c1 = Done (Some ErrBadConn, c2)
    /\ Close c2 = Done (x, c').
Proof.
  intro s.
  eassert (handshake (E := Sample.world) s = Done (Some _, _)) as Hrun
      by (vm_compute; reflexivity).
  destruct (handshake_failure_closes_transport _ _ _ Hrun)
    as [(t' & Ht' & Hcl) [(e0 & c1 & x & _ & _ & He)
                         |[(e0 & c1 & c2 & x & H1 & H2 & Hx & He)
                          |(e0 & c1 & c2 & c3 & x & _ & _ & _ & _ & He)]]];
    [discriminate He | | discriminate He].
  injection He as <-.
  eexists. exists t', c1, c2, x. split; [exact Hrun|]. split; [exact Ht'|].
  split; [exact Hcl|]. split; [exact H1|]. split; [exact H2 | exact Hx].
Defined.


Lemma ConnectWithDialer_option_failure_witness :
  exists raw',
    ConnectWithDialer (E := Sample.world) Background "" "127.0.0.1:3306" "u" "p" "d"
                      (Sample.reach (Sample.greets x00 x02 x00 x00))
                      ([Sample.WithCapability CLIENT_COMPRESS]
                         ++ (fun c => Done (Some (Errorf "bad option"), c))
                         :: [Sample.WithCapability CLIENT_SSL])
    = Done (mkConnected None (Some (Errorf "bad option")) (Some raw'))
    /\ closed raw' = true
    /\ wlog raw' = []
    /\ List.length (responses raw') = 2%nat.
Proof.
  destruct (ConnectWithDialer_option_failure
              (E := Sample.world) Background "" "127.0.0.1:3306" "u" "p" "d"
              (Sample.reach (Sample.greets x00 x02 x00 x00))
              [Sample.WithCapability CLIENT_COMPRESS]
              (fun c => Done (Some (Errorf "bad option"), c))
              [Sample.WithCapability CLIENT_SSL]
              (Sample.greets x00 x02 x00 x00) _ _ (Errorf "bad option")
              eq_refl eq_refl eq_refl)
    as (raw' & Hrun & Hcl & Hlog & Hresp).
  exists raw'. rewrite Hlog, Hresp. repeat split; assumption.
Defined.

(** ** Statements sent by the session *)

Section StatementFacts.

Context {E : Collaborators}.

(** Reading one result on a session with its transport: it returns a result
    or an error, takes the next answer and, for a resultset, answers after
    it, and writes nothing. *)
Lemma readResult_attached (binary : bool) (c : Conn) (t : PacketConn) :
  Conn_ c = Some t ->
  exists r c1 t1,
    readResult binary c = Done (r, c1)
    /\ Conn_ c1 = Some t1
    /\ wlog (raw t1) = wlog (raw t)
    /\ closed (raw t1) = closed (raw t)
    /\ (exists more, tl (responses (raw t)) = (more ++ responses (raw t1))%list)
    /\ (fst r = None <-> snd r <> None).
Proof.
  intro Ht. unfold readResult, bind.
  destruct (ReadPacketReuseMem_attached c t Ht)
    as (x & c0 & t0 & Hr & Ht0 & Hl0 & Hc0 & Hresp0).
  rewrite Hr. destruct x as [data|e].
  2: { unfold ret. exists (None, Some (Traced e)), c0, t0.
       split; [reflexivity|]. split; [exact Ht0|]. split; [exact Hl0|].
       split; [exact Hc0|]. split; [exists []; symmetry; exact Hresp0|].
       simpl. split; congruence. }
  assert (exists result err c1 t1,
             match data with
             | [] => readResultset data binary
             | h :: _ =>
                 if Byte.eqb h OK_HEADER then handleOKPacket data
                 else if Byte.eqb h ERR_HEADER
                      then (err <- handleErrorPacket data ;; ret (None, err))
                      else if Byte.eqb h LocalInFile_HEADER
                           then ret (None, Some ErrMalformPacket)
                           else readResultset data binary
             end c0 = Done ((result, err), c1)
             /\ Conn_ c1 = Some t1
             /\ wlog (raw t1) = wlog (raw t0)
             /\ closed (raw t1) = closed (raw t0)
             /\ (exists taken, responses (raw t0) = (taken ++ responses (raw t1))%list)
             /\ (result = None <-> err <> None))
    as (result & err & c1 & t1 & Hrun & Ht1 & Hl1 & Hc1 & (taken & Htaken) & Hxor).
  { assert (exists result err c1 t1,
               readResultset data binary c0 = Done ((result, err), c1)
               /\ Conn_ c1 = Some t1
               /\ wlog (raw t1) = wlog (raw t0)
               /\ closed (raw t1) = closed (raw t0)
               /\ (exists taken, responses (raw t0) = (taken ++ responses (raw t1))%list)
               /\ (result = None <-> err <> None)) as Hrs.
    { unfold readResultset. apply readResultset_loop_returns; [exact Ht0|].
      unfold pending, answers. rewrite Ht0. apply Nat.lt_succ_diag_r. }
    destruct data as [|h rest]; [exact Hrs|].
    destruct (Byte.eqb h OK_HEADER).
    { unfold handleOKPacket. destruct (decodeOKPacket c0 (h :: rest)) as [r|e].
      - exists (Some r), None, (set_status (Status r) c0), t0.
        split; [reflexivity|]. split; [exact Ht0|]. split; [reflexivity|].
        split; [reflexivity|]. split; [exists []; reflexivity|]. split; congruence.
      - exists None, (Some e), c0, t0.
        split; [reflexivity|]. split; [exact Ht0|]. split; [reflexivity|].
        split; [reflexivity|]. split; [exists []; reflexivity|]. split; congruence. }
    destruct (Byte.eqb h ERR_HEADER).
    { exists None, (Some (decodeErrorPacket c0 (h :: rest))), c0, t0.
      split; [reflexivity|]. split; [exact Ht0|]. split; [reflexivity|].
      split; [reflexivity|]. split; [exists []; reflexivity|]. split; congruence. }
    destruct (Byte.eqb h LocalInFile_HEADER); [|exact Hrs].
    exists None, (Some ErrMalformPacket), c0, t0.
    split; [reflexivity|]. split; [exact Ht0|]. split; [reflexivity|].
    split; [reflexivity|]. split; [exists []; reflexivity|]. split; congruence. }
  exists (result, err), c1, t1. split; [exact Hrun|]. split; [exact Ht1|].
  split; [congruence|]. split; [congruence|].
  split; [exists taken; rewrite <- Hresp0; exact Htaken | exact Hxor].
Qed.

(** A statement on a session with its transport: exactly one query packet is
    handed to the transport; when that write fails nothing is read, otherwise
    one result is read; a result or an error is returned, and nothing of the
    session changes but the transport and the status flags. *)
Lemma exec_attached (query : string) (c : Conn) (t : PacketConn) :
  Conn_ c = Some t ->
  let outcome := hd None (wscript (raw t)) in
  exists r c1 t1,
    exec query c = Done (r, c1)
    /\ Conn_ c1 = Some t1
    /\ wlog (raw t1)
       = (wlog (raw t) ++ [(COM_QUERY :: list_byte_of_string query, outcome)])%list
    /\ closed (raw t1) = closed (raw t)
    /\ settings c1 = settings c
    /\ (fst r = None <-> snd r <> None)
    /\ match outcome with
       | Some e => r = (None, Some (Traced e)) /\ responses (raw t1) = responses (raw t)
       | None => exists more, tl (responses (raw t)) = (more ++ responses (raw t1))%list
       end.
Proof.
  intros Ht outcome.
  destruct (writeCommandStr_attached COM_QUERY query c t Ht)
    as (c0 & t0 & Hw & Ht0 & Hlog & Hresp & Hcl).
  fold outcome in Hw, Hlog.
  assert (settings c0 = settings c) as Hs0
    by exact (proj1 (framed_writeCommandStr _ _ _ _ _ Hw)).
  unfold exec. unfold bind at 1. rewrite Hw. destruct outcome as [e|].
  - exists (None, Some (Traced e)), c0, t0. unfold ret. simpl.
    repeat split; try assumption; congruence.
  - destruct (readResult_attached false c0 t0 Ht0)
      as (r & c1 & t1 & Hr & Ht1 & Hl1 & Hc1 & (more & Hr1) & Hxor).
    exists r, c1, t1. split; [exact Hr|]. split; [exact Ht1|].
    split; [congruence|]. split; [congruence|].
    split; [rewrite <- Hs0; exact (proj1 (framed_readResult _ _ _ _ Hr))|].
    split; [exact Hxor|]. exists more. rewrite <- Hresp. exact Hr1.
Qed.

(** The result read by a statement is the classification of the next
    answer, as the specification says it. *)
Lemma exec_reads (query : string) (c : Conn) (t : PacketConn) r c1 :
  Conn_ c = Some t ->
  hd None (wscript (raw t)) = None ->
  exec query c = Done (r, c1) ->
  match responses (raw t) with
  | [] => r = (None, Some (Traced ErrBadConn)) /\ answers c1 = []
  | ReadErr e0 :: rest => r = (None, Some (Traced e0)) /\ answers c1 = rest
  | ReadData data :: rest =>
      data <> [] -> Classifies c data rest (answers c1) (fst r) (snd r)
  end.
Proof.
  intros Ht Hout.
  destruct (writeCommandStr_attached COM_QUERY query c t Ht)
    as (c0 & t0 & Hw & Ht0 & _ & Hresp & _).
  rewrite Hout in Hw.
  assert (settings c0 = settings c) as Hs0
    by exact (proj1 (framed_writeCommandStr _ _ _ _ _ Hw)).
  assert (answers c0 = responses (raw t)) as Ha0
    by (unfold answers; rewrite Ht0; exact Hresp).
  unfold exec. unfold bind at 1. rewrite Hw. unfold readResult, bind.
  destruct (ReadPacketReuseMem c0) as [[[data|e] c2]| |] eqn:Hr; try discriminate.
  - apply ReadPacketReuseMem_data in Hr. destruct Hr as [Ha Hs2].
    rewrite <- Ha0, Ha. intros H Hne.
    destruct data as [|h data]; [contradiction|].
    change (dispatch h (h :: data) c2 = Done (r, c1)) in H.
    destruct r as [res err]. eapply dispatch_classifies; [|exact H]. congruence.
  - unfold ret. intro H. injection H as <- <-.
    apply ReadPacketReuseMem_error in Hr. destruct Hr as [_ [(Ha & -> & Hb)|Ha]].
    + rewrite <- Ha0, Ha. split; [reflexivity | exact Hb].
    + rewrite <- Ha0, Ha. split; reflexivity.
Qed.

End StatementFacts.



Section CollationFacts.

Context {E : Collaborators}.


End CollationFacts.


Section CommandFacts.

Context {E : Collaborators}.

Lemma SetCharset_success (name : string) (c c' : Conn) :
  SetCharset name c = Done (None, c') -> charset c' = name.
Proof.
  unfold SetCharset. destruct (String.eqb (charset c) name) eqn:Hd.
  - intro H. injection H as <-. apply String.eqb_eq. exact Hd.
  - unfold bind. destruct (exec _ c) as [[[res [e|]] c1]| |]; try discriminate.
    simpl. intro H. injection H as <-. reflexivity.
Qed.

(** X9. [SetCharset] with the current charset returns success and leaves the
    whole session as it was, nothing sent.  With another name it sends
    exactly one [SET NAMES] statement; the charset becomes the name when the
    statement succeeds and stays when it fails; after a success a second call
    with the same name changes nothing. *)
Theorem SetCharset_idempotent (name : string) (c : Conn) :
  (charset c = name -> SetCharset name c = Done (None, c))
  /\ (charset c <> name -> forall t, Conn_ c = Some t ->
        exists r c1 t1,
          exec ("SET NAMES " ++ name) c = Done (r, c1)
          /\ Conn_ c1 = Some t1
          /\ wlog (raw t1)
             = (wlog (raw t)
                  ++ [(COM_QUERY :: list_byte_of_string ("SET NAMES " ++ name),
                       hd None (wscript (raw t)))])%list
          /\ match snd r with
             | Some e =>
                 SetCharset name c = Done (Some (Traced e), c1)
                 /\ GetCharset c1 = GetCharset c
             | None => SetCharset name c = Done (None, set_charset name c1)
             end)
  /\ (forall c', SetCharset name c = Done (None, c') ->
        GetCharset c' = name /\ SetCharset name c' = Done (None, c')).
Proof.
  split; [|split].
  - intro H. unfold SetCharset. apply String.eqb_eq in H. rewrite H. reflexivity.
  - intros Hne t Ht.
    destruct (exec_attached ("SET NAMES " ++ name) c t Ht)
      as (r & c1 & t1 & Hexec & Ht1 & Hlog & _ & Hset & _).
    exists r, c1, t1. repeat split; try assumption.
    unfold SetCharset. apply String.eqb_neq in Hne. rewrite Hne.
    unfold bind. rewrite Hexec. destruct (snd r) as [e|]; unfold ret.
    + split; [reflexivity|]. unfold GetCharset.
      apply (f_equal charset) in Hset. exact Hset.
    + reflexivity.
  - intros c' H. pose proof (SetCharset_success _ _ _ H) as Hd. split; [exact Hd|].
    unfold SetCharset. apply String.eqb_eq in Hd. rewrite Hd. reflexivity.
Qed.

(** X10. [SetAutoCommit] sends nothing when the status flags hold the
    autocommit flag and returns success with the session as it was;
    otherwise it sends exactly one [SET AUTOCOMMIT = 1] statement and
    returns its error, traced, or nil. *)
Theorem SetAutoCommit_only_when_off (c : Conn) :
  (IsAutoCommit c = true -> SetAutoCommit c = Done (None, c))
  /\ (IsAutoCommit c = false -> forall t, Conn_ c = Some t ->
        exists r c1 t1,
          exec "SET AUTOCOMMIT = 1" c = Done (r, c1)
          /\ SetAutoCommit c = Done (Trace (snd r), c1)
          /\ Conn_ c1 = Some t1
          /\ wlog (raw t1)
             = (wlog (raw t)
                  ++ [(COM_QUERY :: list_byte_of_string "SET AUTOCOMMIT = 1",
                       hd None (wscript (raw t)))])%list).
Proof.
  unfold SetAutoCommit. split.
  - intros ->. reflexivity.
  - intros -> t Ht.
    destruct (exec_attached "SET AUTOCOMMIT = 1" c t Ht)
      as (r & c1 & t1 & Hexec & Ht1 & Hlog & _).
    exists r, c1, t1. split; [exact Hexec|]. split; [|split; assumption].
    cbn [negb]. unfold bind. rewrite Hexec. destruct (snd r); reflexivity.
Qed.

(** X11. [Begin], [Commit] and [Rollback] each send exactly one statement,
    their keyword; when the write of it fails nothing is read and the error
    comes back traced by [exec] and traced again by the method; otherwise
    one result is read, which takes the next answer of the peer and, for a
    resultset, the answers [more] after it: a failed read gives its error,
    a packet the classification of the response it starts; the error of the
    result, if any, is returned traced. *)
Theorem transaction_statements (c : Conn) (t : PacketConn) :
  Conn_ c = Some t ->
  let outcome := hd None (wscript (raw t)) in
  forall (method : M (option error)) (keyword : string),
    (method = Begin /\ keyword = "BEGIN")
    \/ (method = Commit /\ keyword = "COMMIT")
    \/ (method = Rollback /\ keyword = "ROLLBACK") ->
    exists r c1 t1,
      exec keyword c = Done (r, c1)
      /\ method c = Done (Trace (snd r), c1)
      /\ Conn_ c1 = Some t1
      /\ wlog (raw t1)
         = (wlog (raw t) ++ [(COM_QUERY :: list_byte_of_string keyword, outcome)])%list
      /\ match outcome with
         | Some e =>
             method c = Done (Some (Traced (Traced e)), c1)
             /\ responses (raw t1) = responses (raw t)
         | None =>
             (exists more, tl (responses (raw t)) = (more ++ responses (raw t1))%list)
             /\ match responses (raw t) with
                | [] => r = (None, Some (Traced ErrBadConn)) /\ responses (raw t1) = []
                | ReadErr e0 :: rest =>
                    r = (None, Some (Traced e0)) /\ responses (raw t1) = rest
                | ReadData data :: rest =>
                    data <> [] ->
                    Classifies c data rest (responses (raw t1)) (fst r) (snd r)
                end
         end.
Proof.
  intros Ht outcome method keyword Hm.
  destruct (exec_attached keyword c t Ht)
    as (r & c1 & t1 & Hexec & Ht1 & Hlog & _ & _ & _ & Hout).
  fold outcome in Hlog, Hout.
  assert (method c = Done (Trace (snd r), c1)) as Hrun.
  { destruct Hm as [[-> ->]|[[-> ->]|[-> ->]]];
      unfold Begin, Commit, Rollback, bind; rewrite Hexec; reflexivity. }
  exists r, c1, t1. repeat split; try assumption.
  pose proof (fun H => exec_reads keyword c t r c1 Ht H Hexec) as Hreads.
  fold outcome in Hreads. unfold answers in Hreads. rewrite Ht1 in Hreads.
  destruct outcome as [e|]; [|split; [exact Hout | exact (Hreads eq_refl)]].
  destruct Hout as [-> Hresp]. split; [exact Hrun | exact Hresp].
Qed.

End CommandFacts.

Lemma SetCharset_idempotent_witness :
  let s := set_charset "utf8"
             (Sample.session
                (Sample.peer [ReadData [x00; x00; x00; x02; x00; x00; x00]] []) "shop") in
  SetCharset (E := Sample.world) "utf8" s = Done (None, s)
  /\ (exists r c1, exec (E := Sample.world) "SET NAMES latin1" s = Done (r, c1))
  /\ (exists c', SetCharset (E := Sample.world) "latin1" s = Done (None, c')
                 /\ GetCharset c' = "latin1"
                 /\ SetCharset (E := Sample.world) "latin1" c' = Done (None, c')).
Proof.
  intro s.
  destruct (SetCharset_idempotent (E := Sample.world) "utf8" s) as (Hsame & _ & _).
  destruct (SetCharset_idempotent (E := Sample.world) "latin1" s) as (_ & Hother & Hagain).
  split; [|split].
  - apply Hsame. reflexivity.
  - destruct (Hother ltac:(discriminate) _ eq_refl) as (r & c1 & t1 & Hexec & _).
    exists r, c1. exact Hexec.
  - eexists. split; [reflexivity|]. apply Hagain. reflexivity.
Defined.

Lemma SetAutoCommit_only_when_off_witness :
  let s := Sample.session
             (Sample.peer [ReadData [x00; x00; x00; x02; x00; x00; x00]] []) "shop" in
  SetAutoCommit (E := Sample.world) (set_status SERVER_STATUS_AUTOCOMMIT s)
  = Done (None, set_status SERVER_STATUS_AUTOCOMMIT s)
  /\ exists (r : option Result * option error) c1,
      SetAutoCommit (E := Sample.world) s = Done (Trace (snd r), c1)
                  /\ IsAutoCommit c1 = true.
Proof.
  intro s. split.
  - apply (proj1 (SetAutoCommit_only_when_off
                    (E := Sample.world) (set_status SERVER_STATUS_AUTOCOMMIT s))).
    reflexivity.
  - destruct (proj2 (SetAutoCommit_only_when_off (E := Sample.world) s) eq_refl _ eq_refl)
      as (r & c1 & t1 & Hexec & Hrun & _).
    exists r, c1. split; [exact Hrun|].
    vm_compute in Hexec. injection Hexec as _ <-. reflexivity.
Defined.

Lemma transaction_statements_witness :
  (exists c1 t1,
      Commit (E := Sample.world) (Sample.session (Sample.peer [] [Some ErrBadConn]) "shop")
      = Done (Some (Traced (Traced ErrBadConn)), c1)
      /\ Conn_ c1 = Some t1
      /\ wlog (raw t1) = [(COM_QUERY :: list_byte_of_string "COMMIT", Some ErrBadConn)])
  /\ (exists (r : option Result * option error) c1 t1,
         Begin (E := Sample.world)
               (Sample.session
                  (Sample.peer [ReadData [x00; x00; x00; x03; x00; x00; x00];
                                ReadData (list_byte_of_string "late")] []) "shop")
         = Done (Trace (snd r), c1)
         /\ Conn_ c1 = Some t1
         /\ wlog (raw t1) = [(COM_QUERY :: list_byte_of_string "BEGIN", None)]
         /\ responses (raw t1) = [ReadData (list_byte_of_string "late")]).
Proof.
  split.
  - destruct (transaction_statements
                (E := Sample.world)
                (Sample.session (Sample.peer [] [Some ErrBadConn]) "shop") _ eq_refl
                Commit "COMMIT" (or_intror (or_introl (conj eq_refl eq_refl))))
      as (r & c1 & t1 & _ & _ & Ht1 & Hlog & Hrun & _).
    exists c1, t1. repeat split; assumption.
  - destruct (transaction_statements
                (E := Sample.world)
                (Sample.session
                   (Sample.peer [ReadData [x00; x00; x00; x03; x00; x00; x00];
                                 ReadData (list_byte_of_string "late")] []) "shop")
                _ eq_refl Begin "BEGIN" (or_introl (conj eq_refl eq_refl)))
      as (r & c1 & t1 & _ & Hrun & Ht1 & Hlog & _ & Hcls).
    exists r, c1, t1. split; [exact Hrun|]. split; [exact Ht1|].
    split; [exact Hlog|]. simpl in Hcls.
    specialize (Hcls ltac:(discriminate)).
    eapply Classifies_one_packet; [|exact Hcls]. left. reflexivity.
Defined.

Section PingFacts.

Context {E : Collaborators}.

Lemma writeCommand_attached (command : byte) (c : Conn) (t : PacketConn) :
  Conn_ c = Some t ->
  exists c1 t1,
    writeCommand command c = Done (hd None (wscript (raw t)), c1)
    /\ Conn_ c1 = Some t1
    /\ wlog (raw t1) = (wlog (raw t) ++ [([command], hd None (wscript (raw t)))])%list
    /\ responses (raw t1) = responses (raw t)
    /\ closed (raw t1) = closed (raw t).
Proof.
  intro Ht. unfold writeCommand, promoted. rewrite Ht.
  unfold Packet.WritePacket, Packet.raw_Write. simpl.
  destruct (hd None (wscript (raw t))); eexists; eexists; repeat split.
Qed.

(** Reading an OK on a session with its transport: the next answer is taken,
    nothing is written, and there is no error only when that answer is a
    packet that starts with the OK header. *)
Lemma readOK_io (c : Conn) (t : PacketConn) :
  Conn_ c = Some t ->
  exists r c1 t1,
    readOK c = Done (r, c1)
    /\ Conn_ c1 = Some t1
    /\ wlog (raw t1) = wlog (raw t)
    /\ closed (raw t1) = closed (raw t)
    /\ responses (raw t1) = tl (responses (raw t))
    /\ (snd r = None ->
        exists data, hd_error (responses (raw t)) = Some (ReadData (OK_HEADER :: data))).
Proof.
  intro Ht. unfold readOK, bind, ReadPacket, promoted. rewrite Ht.
  unfold Packet.ReadPacket, Packet.raw_Read.
  destruct (responses (raw t)) as [|[e|data] rest] eqn:Hresp; unfold ret; simpl.
  - do 3 eexists. split; [reflexivity|]. split; [reflexivity|].
    repeat split; [simpl; exact Hresp | discriminate].
  - do 3 eexists. split; [reflexivity|]. split; [reflexivity|].
    repeat split. discriminate.
  - destruct data as [|h rest'].
    { do 3 eexists. split; [reflexivity|]. split; [reflexivity|].
      repeat split. discriminate. }
    destruct (Byte.eqb h OK_HEADER) eqn:Hh.
    + apply Byte.byte_dec_bl in Hh. subst h. unfold handleOKPacket.
      destruct (decodeOKPacket _ _); do 3 eexists;
        (split; [reflexivity|]); (split; [reflexivity|]); repeat split; eauto.
    + destruct (Byte.eqb h ERR_HEADER);
        do 3 eexists; (split; [reflexivity|]); (split; [reflexivity|]);
          repeat split; discriminate.
Qed.

(** X12. [Ping] sends exactly one ping command.  When that write fails it
    reads nothing and returns the error traced; otherwise it takes the next
    answer, and returns nil only when that answer is a packet that starts
    with the OK header. *)
Theorem Ping_one_command (c : Conn) (t : PacketConn) :
  Conn_ c = Some t ->
  let outcome := hd None (wscript (raw t)) in
  exists err c1 t1,
    Ping c = Done (err, c1)
    /\ Conn_ c1 = Some t1
    /\ wlog (raw t1) = (wlog (raw t) ++ [([COM_PING], outcome)])%list
    /\ closed (raw t1) = closed (raw t)
    /\ match outcome with
       | Some e => err = Some (Traced e) /\ responses (raw t1) = responses (raw t)
       | None =>
           responses (raw t1) = tl (responses (raw t))
           /\ (err = None ->
               exists data,
                 hd_error (responses (raw t)) = Some (ReadData (OK_HEADER :: data)))
       end.
Proof.
  intros Ht outcome.
  destruct (writeCommand_attached COM_PING c t Ht)
    as (c0 & t0 & Hw & Ht0 & Hlog & Hresp & Hcl).
  fold outcome in Hw, Hlog. unfold Ping. unfold bind at 1. rewrite Hw.
  destruct outcome as [e|].
  - exists (Some (Traced e)), c0, t0. unfold ret. simpl. repeat split; assumption.
  - destruct (readOK_io c0 t0 Ht0) as (r & c1 & t1 & Hr & Ht1 & Hl1 & Hc1 & Hr1 & Hok).
    unfold bind. rewrite Hr.
    exists (match snd r with Some e => Trace (Some e) | None => None end), c1, t1.
    split; [destruct (snd r); reflexivity|]. split; [exact Ht1|].
    split; [congruence|]. split; [congruence|]. split; [congruence|].
    intro Hnil. rewrite <- Hresp. apply Hok. destruct (snd r); [discriminate | reflexivity].
Qed.

Lemma framed_Ping : framed Ping.
Proof.
  unfold Ping. apply framed_bind; [apply framed_writeCommand|].
  intros [e|]; [apply framed_ret|].
  apply framed_bind; [apply framed_readOK|]. intro r. destruct (snd r); apply framed_ret.
Qed.

Lemma framed_Quit : framed Quit.
Proof.
  unfold Quit. apply framed_bind; [apply framed_writeCommand|].
  intros [e|]; [apply framed_ret | apply framed_Close].
Qed.

Lemma framed_statement (keyword : string) :
  framed (r <- exec keyword ;; ret (Trace (snd r))).
Proof. apply framed_bind; [apply framed_exec | intro; apply framed_ret]. Qed.

Lemma framed_SetAutoCommit : framed SetAutoCommit.
Proof.
  intros c a c'. unfold SetAutoCommit. destruct (negb (IsAutoCommit c)).
  - apply framed_bind; [apply framed_exec|]. intro r. destruct (snd r); apply framed_ret.
  - intro H. injection H as _ <-. auto.
Qed.

(** X13. The commands of the session change nothing of it but the transport
    and the status flags: the selected database, the charset, the collation,
    the capabilities, the server version and the compression mode of the
    transport are after [Ping], [Quit], [Begin], [Commit], [Rollback],
    [SetAutoCommit] and any statement of [exec] what they were before. *)
Theorem commands_keep_settings :
  framed Ping /\ framed Quit /\ framed Begin /\ framed Commit /\ framed Rollback
  /\ framed SetAutoCommit /\ (forall query, framed (exec query))
  /\ forall (A : Type) (m : M A) (c c' : Conn) (a : A),
      framed m -> m c = Done (a, c') ->
      GetDB c' = GetDB c /\ GetCharset c' = GetCharset c
      /\ GetCollation c' = GetCollation c /\ GetServerVersion c' = GetServerVersion c
      /\ (forall cap, HasCapability cap c' = HasCapability cap c)
      /\ CapabilityString c' = CapabilityString c
      /\ compressionOf c' = compressionOf c.
Proof.
  split; [exact framed_Ping|]. split; [exact framed_Quit|].
  split; [exact (framed_statement "BEGIN")|].
  split; [exact (framed_statement "COMMIT")|].
  split; [exact (framed_statement "ROLLBACK")|].
  split; [exact framed_SetAutoCommit|].
  split; [exact framed_exec|].
  intros A m c c' a Hm Hrun. destruct (Hm c a c' Hrun) as [Hset Hcomp].
  split; [exact (f_equal db Hset)|].
  split; [exact (f_equal charset Hset)|].
  split; [exact (f_equal collation Hset)|].
  split; [exact (f_equal serverVersion Hset)|].
  assert (ccaps c' = ccaps c) as Hccaps by exact (f_equal ccaps Hset).
  assert (capability c' = capability c) as Hcap by exact (f_equal capability Hset).
  split; [intro cap; unfold HasCapability; rewrite Hccaps; reflexivity|].
  split; [unfold CapabilityString; rewrite Hcap; reflexivity|].
  exact Hcomp.
Qed.

End PingFacts.

Lemma Ping_one_command_witness :
  exists c1 t1,
    Ping (E := Sample.world)
         (Sample.session (Sample.peer [ReadData [x00; x00; x00; x02; x00; x00; x00]] []) "shop")
    = Done (None, c1)
    /\ Conn_ c1 = Some t1
    /\ wlog (raw t1) = [([COM_PING], None)]
    /\ responses (raw t1) = [].
Proof.
  destruct (Ping_one_command
              (E := Sample.world)
              (Sample.session
                 (Sample.peer [ReadData [x00; x00; x00; x02; x00; x00; x00]] []) "shop")
              _ eq_refl)
    as (err & c1 & t1 & Hrun & Ht1 & Hlog & _ & Hresp & _).
  exists c1, t1.
  assert (err = None) as ->.
  { vm_compute in Hrun. injection Hrun as <- _. reflexivity. }
  repeat split; assumption.
Defined.

Lemma commands_keep_settings_witness :
  exists c',
    Rollback (E := Sample.world)
             (Sample.session
                (Sample.peer [ReadData [x00; x00; x00; x03; x00; x00; x00]] []) "shop")
    = Done (None, c')
    /\ GetDB c' = "shop"
    /\ IsInTransaction c' = true.
Proof.
  eassert (Rollback (E := Sample.world)
             (Sample.session
                (Sample.peer [ReadData [x00; x00; x00; x03; x00; x00; x00]] []) "shop")
           = Done (None, _)) as Hrun by (vm_compute; reflexivity).
  destruct (commands_keep_settings (E := Sample.world))
    as (_ & _ & _ & _ & Hrb & _ & _ & Hkeep).
  destruct (Hkeep _ _ _ _ _ Hrb Hrun) as (Hdb & _).
  eexists. split; [exact Hrun|]. split; [exact Hdb | reflexivity].
Defined.

(** ** The names of the flags *)

Lemma bit_injective (i j : nat) : Flags.bit i = Flags.bit j -> i = j.
Proof.
  rewrite !bit_pow2. intro H. apply Z.pow_inj_r in H; lia.
Qed.

Lemma land_bit_nonzero (m : Z) (j : nat) :
  Z.land m (Flags.bit j) <> 0 <-> Z.testbit m (Z.of_nat j) = true.
Proof.
  rewrite land_bit. pose proof (bit_positive j).
  destruct (Z.testbit m (Z.of_nat j)); split; intro;
    try reflexivity; try lia; try discriminate; try contradiction.
Qed.

Section FlagNames.

Variable w : nat.
Variable cases : list (Z * string).
Hypothesis cases_readable : readable w cases = true.

Local Abbreviation name := (fun j => Flags.flagName cases (Flags.bit j)).

Lemma name_injective (i j : nat) : (i < w)%nat -> (j < w)%nat -> name i = name j -> i = j.
Proof.
  intros Hi Hj Heq.
  pose proof (proj2 (proj2 (readable_at w cases cases_readable i Hi))) as Pi.
  pose proof (proj2 (proj2 (readable_at w cases cases_readable j Hj))) as Pj.
  cbv beta in Heq, Pi, Pj. rewrite Heq in Pi. rewrite Pi in Pj. injection Pj as Pj.
  apply bit_injective. exact Pj.
Qed.

(** The name of a flag is among the names of a mask exactly when the mask
    holds the flag. *)
Lemma name_rendered_iff (m : Z) (j : nat) :
  (j < w)%nat ->
  In (name j) (map name (Flags.setBits w m)) <-> Z.land m (Flags.bit j) <> 0.
Proof.
  intro Hj. rewrite land_bit_nonzero, in_map_iff. unfold Flags.setBits. split.
  - intros (j' & Heq & Hin). apply filter_In in Hin. destruct Hin as [Hseq Hbit].
    apply in_seq in Hseq. apply name_injective in Heq; [|lia|exact Hj]. subst j'.
    exact Hbit.
  - intro Hbit. exists j. split; [reflexivity|]. apply filter_In.
    split; [apply in_seq; lia | exact Hbit].
Qed.

End FlagNames.

(** Every case of the tables is the name rendered for its flag, a single
    bit of the word. *)
Lemma capabilityCases_bits :
  Flags.capabilityCases
  = map (fun j => (Flags.bit j, Flags.flagName Flags.capabilityCases (Flags.bit j)))
        (seq 0 32).
Proof. vm_compute. reflexivity. Qed.

Lemma statusCases_bits :
  Flags.statusCases
  = map (fun j => (Flags.bit j, Flags.flagName Flags.statusCases (Flags.bit j)))
        [0; 1; 3; 4; 5; 6; 7; 8; 9; 10; 11; 12]%nat.
Proof. vm_compute. reflexivity. Qed.

(** X14. A capability's name is among the names that [CapabilityString]
    joins exactly when the server capabilities hold its flag, for every case
    of the switch. *)
Theorem CapabilityString_names_the_flags (c : Conn) (flag : Z) (name : string) :
  0 <= capability c < 2 ^ 32 ->
  In (flag, name) Flags.capabilityCases ->
  In name (Flags.capabilityNames (capability c)) <-> Z.land (capability c) flag <> 0.
Proof.
  intros Hm Hin. rewrite capabilityCases_bits in Hin. apply in_map_iff in Hin.
  destruct Hin as (j & Hj & Hseq). injection Hj as <- <-. apply in_seq in Hseq.
  unfold Flags.capabilityNames.
  rewrite (scan_names 32 uint32 Flags.capabilityCases (fun z => eq_refl) _ Hm).
  cbn [fst]. apply (name_rendered_iff 32 Flags.capabilityCases capabilityCases_readable).
  lia.
Qed.

Lemma CapabilityString_names_the_flags_witness :
  In "CLIENT_SSL" (Flags.capabilityNames (capability (set_capability 2560 new_Conn)))
  /\ ~ In "CLIENT_COMPRESS"
          (Flags.capabilityNames (capability (set_capability 2560 new_Conn))).
Proof.
  split.
  - apply (CapabilityString_names_the_flags (set_capability 2560 new_Conn) CLIENT_SSL);
      [in_range | vm_compute; tauto | vm_compute; discriminate].
  - intro H.
    apply (CapabilityString_names_the_flags (set_capability 2560 new_Conn) CLIENT_COMPRESS)
      in H; [apply H; reflexivity | in_range | vm_compute; tauto].
Defined.

(** X15. [IsAutoCommit] and [IsInTransaction] agree with [StatusString]: each
    holds exactly when the name of its flag is among the names joined. *)
Theorem status_predicates_agree_with_StatusString (c : Conn) :
  0 <= status c < 2 ^ 16 ->
  (IsAutoCommit c = true
   <-> In "SERVER_STATUS_AUTOCOMMIT" (Flags.statusNames (status c)))
  /\ (IsInTransaction c = true
      <-> In "SERVER_STATUS_IN_TRANS" (Flags.statusNames (status c))).
Proof.
  intro Hm. unfold Flags.statusNames, IsAutoCommit, IsInTransaction.
  rewrite (scan_names 16 uint16 Flags.statusCases (fun z => eq_refl) _ Hm). cbn [fst].
  assert (forall j, (Z.land (status c) (Flags.bit j) >? 0) = true
                    <-> Z.land (status c) (Flags.bit j) <> 0) as Hpos.
  { intro j. pose proof (land_nonneg_r (status c) (Flags.bit j)
                                        (Z.lt_le_incl _ _ (bit_positive j))).
    rewrite Z.gtb_ltb, Z.ltb_lt. lia. }
  split.
  - change SERVER_STATUS_AUTOCOMMIT with (Flags.bit 1). rewrite Hpos.
    symmetry. apply (name_rendered_iff 16 Flags.statusCases statusCases_readable _ 1). lia.
  - change SERVER_STATUS_IN_TRANS with (Flags.bit 0). rewrite Hpos.
    symmetry. apply (name_rendered_iff 16 Flags.statusCases statusCases_readable _ 0). lia.
Qed.

Lemma status_predicates_agree_with_StatusString_witness :
  IsAutoCommit (set_status 34 new_Conn) = true
  /\ ~ In "SERVER_STATUS_IN_TRANS" (Flags.statusNames (status (set_status 34 new_Conn))).
Proof.
  destruct (status_predicates_agree_with_StatusString (set_status 34 new_Conn))
    as [Hauto Htrans]; [in_range|].
  split.
  - apply Hauto. vm_compute. tauto.
  - intro H. apply Htrans in H. discriminate H.
Defined.

(** X16. [CapabilityString] and [StatusString] tell the masks apart: two
    sessions with the same string have the same flags, and the string is
    empty exactly when no flag is set. *)
Theorem flag_strings_injective (c1 c2 : Conn) :
  (0 <= capability c1 < 2 ^ 32 -> 0 <= capability c2 < 2 ^ 32 ->
   (CapabilityString c1 = CapabilityString c2 -> capability c1 = capability c2)
   /\ (CapabilityString c1 = "" <-> capability c1 = 0))
  /\ (0 <= status c1 < 2 ^ 16 -> 0 <= status c2 < 2 ^ 16 ->
      (StatusString c1 = StatusString c2 -> status c1 = status c2)
      /\ (StatusString c1 = "" <-> status c1 = 0)).
Proof.
  assert (forall m, 0 <= m < 2 ^ 32 ->
            Flags.parseFlags Flags.capabilityCases (Flags.CapabilityString_of m) = Some m)
    as Hcap.
  { intros m Hm. unfold Flags.CapabilityString_of, Flags.capabilityNames.
    rewrite (scan_names 32 uint32 Flags.capabilityCases (fun z => eq_refl) _ Hm).
    apply (parseFlags_names 32 Flags.capabilityCases capabilityCases_readable). exact Hm. }
  assert (forall m, 0 <= m < 2 ^ 16 ->
            Flags.parseFlags Flags.statusCases (Flags.StatusString_of m) = Some m)
    as Hstat.
  { intros m Hm. unfold Flags.StatusString_of, Flags.statusNames.
    rewrite (scan_names 16 uint16 Flags.statusCases (fun z => eq_refl) _ Hm).
    apply (parseFlags_names 16 Flags.statusCases statusCases_readable). exact Hm. }
  unfold CapabilityString, StatusString. split; intros H1 H2; split.
  - intro Heq. pose proof (Hcap _ H1) as P1. rewrite Heq, (Hcap _ H2) in P1. congruence.
  - split.
    + intro Heq. pose proof (Hcap _ H1) as P1. rewrite Heq in P1.
      change (Flags.parseFlags Flags.capabilityCases "") with (Some 0) in P1. congruence.
    + intros ->. reflexivity.
  - intro Heq. pose proof (Hstat _ H1) as P1. rewrite Heq, (Hstat _ H2) in P1. congruence.
  - split.
    + intro Heq. pose proof (Hstat _ H1) as P1. rewrite Heq in P1.
      change (Flags.parseFlags Flags.statusCases "") with (Some 0) in P1. congruence.
    + intros ->. reflexivity.
Qed.

Lemma flag_strings_injective_witness :
  CapabilityString (set_capability 0 new_Conn) = ""
  /\ StatusString (set_status 0 new_Conn) = "".
Proof.
  destruct (flag_strings_injective (set_capability 0 new_Conn) (set_status 0 new_Conn))
    as [Hcap Hstat].
  split.
  - apply (proj2 (Hcap ltac:(in_range) ltac:(in_range))). reflexivity.
  - apply (proj2 (Hstat ltac:(in_range) ltac:(in_range))). reflexivity.
Defined.

(** ** More on ExecuteMultiple *)

Section ExecuteMultipleMore.

Context {E : Collaborators} {U : Type}.
Variable perResultCallback : ExecPerResultCallback U.

(** X17. A zero-length packet as the first answer to the query makes
    [ExecuteMultiple] panic on [bs.B[0]], whatever follows and whatever the
    callback: neither a result nor an error is returned. *)
Theorem ExecuteMultiple_panics_on_empty_packet
        (query : string) (u : U) (c : Conn) (t : PacketConn) (rest : list ReadResult) :
  Conn_ c = Some t ->
  hd None (wscript (raw t)) = None ->
  responses (raw t) = ReadData [] :: rest ->
  ExecuteMultiple query perResultCallback u c
  = Panic "index out of range [0] with length 0".
Proof.
  intros Ht Hw Hresp.
  destruct (writeCommandStr_attached COM_QUERY query c t Ht)
    as (c1 & t1 & Hwrite & Ht1 & _ & Hresp1 & _).
  rewrite Hw in Hwrite. unfold ExecuteMultiple. unfold bind at 1. rewrite Hwrite.
  unfold bind at 1. cbn [ExecuteMultiple_loop]. unfold bind at 1.
  unfold ReadPacketReuseMem, promoted. rewrite Ht1.
  unfold Packet.ReadPacketReuseMem, Packet.ReadPacket, Packet.raw_Read.
  rewrite Hresp1, Hresp. reflexivity.
Qed.

(** X18. A run of [ExecuteMultiple] that returns gives either the
    streaming-done result or an error, never both and never neither; the
    caller's state it leaves is what the callback made of it, invoked once
    for each iteration in their order; a result comes only after at least
    one invocation of the callback, the last of which left that state; the
    callback is invoked no more often than the peer has answers; and the
    session keeps everything but its transport and status flags. *)
Theorem ExecuteMultiple_result_or_error
        (query : string) (u : U) (c : Conn) run c' :
  ExecuteMultiple query perResultCallback u c = Done (run, c') ->
  (ret_result run = None <-> ret_err run <> None)
  /\ user_state run = replay perResultCallback (calls run) u
  /\ touched perResultCallback u (calls run)
  /\ (ret_result run <> None ->
      ret_result run = Some streamingDoneResult
      /\ exists ks k,
          calls run = (ks ++ [k])%list
          /\ user_state run
             = fst (perResultCallback (call_result k) (call_err k)
                                      (replay perResultCallback ks u)))
  /\ (List.length (calls run) <= List.length (answers c))%nat
  /\ settings c' = settings c
  /\ compressionOf c' = compressionOf c.
Proof.
  intro Hrun. apply ExecuteMultiple_run in Hrun.
  destruct Hrun as (outcome & c1 & Hw & Hcases).
  pose proof (framed_writeCommandStr _ _ _ _ _ Hw) as [Hs1 Hc1].
  assert (answers c1 = answers c) as Ha1.
  { unfold writeCommandStr, promoted in Hw. unfold answers.
    destruct (Conn_ c) as [t|]; [|discriminate].
    unfold Packet.WritePacket, Packet.raw_Write in Hw. simpl in Hw.
    destruct (hd None (wscript (raw t))); injection Hw as _ <-; reflexivity. }
  destruct Hcases as [(e & -> & -> & ->)|(-> & exit & Hit & Hret)].
  { simpl. repeat split; try assumption; try discriminate; try lia; contradiction. }
  pose proof (Iterates_answered _ c1 _ _ _ _ _ _ Hit eq_refl) as (rest & Hans & _).
  pose proof (Iterates_stops _ _ _ _ _ _ _ Hit) as Hstop.
  pose proof (Iterates_replay _ _ _ _ _ _ _ Hit) as [Hrep Htouch].
  pose proof (Iterates_settings _ _ _ _ _ _ _ Hit) as Hs2.
  assert (compressionOf c' = compressionOf c1) as Hc2.
  { clear -Hit. induction Hit as [c u e c1 Hr | c u B0 B c1 c2 res err k Hr Hd Hk Hc
                                  | c u B0 B c1 c2 res err k ks exit u' c3 Hr Hd Hk Hc Hrun IH].
    - exact (proj2 (framed_ReadPacket _ _ _ Hr)).
    - rewrite (proj2 (framed_dispatch _ _ _ _ _ Hd)).
      exact (proj2 (framed_ReadPacket _ _ _ Hr)).
    - rewrite IH, (proj2 (framed_dispatch _ _ _ _ _ Hd)).
      exact (proj2 (framed_ReadPacket _ _ _ Hr)). }
  assert (List.length (calls run) <= List.length (answers c))%nat as Hlen.
  { rewrite <- Ha1. apply answered_length in Hans. lia. }
  split; [|split; [exact Hrep|]; split; [exact Htouch|]; split;
           [|split; [exact Hlen|]; split; congruence]].
  - destruct exit as [e|]; destruct Hret as [Hres Herr]; rewrite Hres, Herr.
    + pose proof (Iterates_answered _ c1 _ _ _ _ _ _ Hit eq_refl) as (_ & _ & e0 & -> & _).
      split; congruence.
    + split; congruence.
  - intro Hsome. destruct exit as [e|]; destruct Hret as [Hres Herr];
      [rewrite Hres in Hsome; contradiction|].
    split; [exact Hres|]. destruct Hstop as (ks0 & k & Hks & _).
    exists ks0, k. split; [exact Hks|].
    rewrite Hrep, Hks. unfold replay at 1. rewrite fold_left_app. reflexivity.
Qed.

End ExecuteMultipleMore.

Lemma ExecuteMultiple_panics_on_empty_packet_witness :
  ExecuteMultiple (E := Sample.world) "UPDATE a; UPDATE b" Sample.counting 0%nat
                  (Sample.session
                     (Sample.peer [ReadData [];
                                   ReadData [x00; x00; x00; x02; x00; x00; x00]] [])
                     "shop")
  = Panic "index out of range [0] with length 0".
Proof.
  apply (ExecuteMultiple_panics_on_empty_packet
           (E := Sample.world) Sample.counting "UPDATE a; UPDATE b" 0%nat
           (Sample.session
              (Sample.peer [ReadData [];
                            ReadData [x00; x00; x00; x02; x00; x00; x00]] [])
              "shop")
           _ _ eq_refl eq_refl eq_refl).
Defined.

Lemma ExecuteMultiple_result_or_error_witness :
  exists run c' ks k,
    ExecuteMultiple (E := Sample.world) "UPDATE a" Sample.counting 0%nat
                    (Sample.session
                       (Sample.peer [ReadData [x00; x01; x00; x02; x00; x00; x00]] []) "shop")
    = Done (run, c')
    /\ ret_result run = Some streamingDoneResult
    /\ calls run = (ks ++ [k])%list
    /\ user_state run
       = fst (Sample.counting (call_result k) (call_err k) (replay Sample.counting ks 0%nat))
    /\ GetDB c' = "shop".
Proof.
  eassert (ExecuteMultiple (E := Sample.world) "UPDATE a" Sample.counting 0%nat
             (Sample.session
                (Sample.peer [ReadData [x00; x01; x00; x02; x00; x00; x00]] []) "shop")
           = Done (_, _)) as Hrun by (vm_compute; reflexivity).
  destruct (ExecuteMultiple_result_or_error (E := Sample.world) _ _ _ _ _ _ Hrun)
    as (_ & _ & _ & Hres & _ & Hset & _).
  destruct Hres as (Hres & ks & k & Hks & Hstate); [discriminate|].
  do 2 eexists. exists ks, k. split; [exact Hrun|]. split; [exact Hres|].
  split; [exact Hks|]. split; [exact Hstate|].
  exact (f_equal db Hset).
Defined.

(** ** FieldList *)

Section FieldListFacts.

Context {E : Collaborators} {F : FieldDecoders}.

Lemma framed_writeCommandStrStr (command : byte) (arg1 arg2 : string) :
  framed (writeCommandStrStr command arg1 arg2).
Proof. apply framed_promoted. intro t. rewrite WritePacket_Compression. reflexivity. Qed.

Lemma writeCommandStrStr_attached (command : byte) (arg1 arg2 : string)
      (c : Conn) (t : PacketConn) :
  Conn_ c = Some t ->
  exists c1 t1,
    writeCommandStrStr command arg1 arg2 c = Done (hd None (wscript (raw t)), c1)
    /\ Conn_ c1 = Some t1
    /\ wlog (raw t1)
       = (wlog (raw t)
            ++ [((command :: list_byte_of_string arg1 ++ x00 :: list_byte_of_string arg2)%list,
                 hd None (wscript (raw t)))])%list
    /\ closed (raw t1) = closed (raw t)
    /\ responses (raw t1) = responses (raw t).
Proof.
  intro Ht. unfold writeCommandStrStr, promoted. rewrite Ht.
  unfold Packet.WritePacket, Packet.raw_Write. simpl.
  destruct (hd None (wscript (raw t))); eexists; eexists; repeat split.
Qed.

(** What the loop returns: after the field packets, the packet or the
    failed read that ends it decides between the fields and an error. *)
Lemma FieldList_loop_spec (c0 : Conn) (fuel : nat) :
  forall (fs0 : list Field) (c : Conn) r e c',
    settings c = settings c0 ->
    FieldList_loop fuel fs0 c = Done ((r, e), c') ->
    settings c' = settings c
    /\ exists pkts fields,
        Forall2 fieldPacket pkts fields
        /\ fieldsEnd c0 pkts (fs0 ++ fields)%list (answers c) (answers c') r e.
Proof.
  induction fuel as [|fuel IH]; intros fs0 c r e c' Hs; [discriminate|].
  cbn [FieldList_loop]. unfold bind at 1.
  change (ReadPacket c) with (ReadPacketReuseMem c).
  destruct (ReadPacketReuseMem c) as [[[data|err] c1]| |] eqn:Hread; try discriminate.
  2: { intro H. injection H as <- <- <-.
       apply ReadPacketReuseMem_error in Hread. destruct Hread as [Hs1 Hread].
       split; [exact Hs1|]. exists [], []. split; [constructor|].
       rewrite app_nil_r. destruct Hread as [(Ha & -> & Hb)|Ha].
       - right. right. left. auto.
       - right. left. exists err. auto. }
  pose proof (ReadPacketReuseMem_data _ _ _ Hread) as [Hans Hset].
  destruct data as [|d0 data]; [discriminate|].
  destruct (Byte.eqb d0 ERR_HEADER) eqn:Herr.
  { apply Byte.byte_dec_bl in Herr. subst d0.
    intro H. injection H as <- <- <-. split; [exact Hset|].
    exists [], []. split; [constructor|]. rewrite app_nil_r.
    right. right. right. left. exists (ERR_HEADER :: data), c1.
    repeat split; try assumption; try reflexivity. congruence. }
  assert (d0 <> ERR_HEADER) as Hne.
  { intros ->. rewrite (Byte.byte_dec_lb eq_refl) in Herr. discriminate Herr. }
  destruct (isEOFPacket (d0 :: data)) eqn:Heof.
  { intro H. injection H as <- <- <-. split; [exact Hset|].
    exists [], []. split; [constructor|]. rewrite app_nil_r.
    left. exists (d0 :: data). split; [exact Hans|].
    split; [|split; reflexivity]. split; [exists d0; split; [reflexivity | exact Hne]|].
    exact Heof. }
  destruct (parseField (d0 :: data)) as [f|err] eqn:Hparse.
  2: { intro H. injection H as <- <- <-. split; [exact Hset|].
       exists [], []. split; [constructor|]. rewrite app_nil_r.
       right. right. right. right. exists (d0 :: data), err.
       split; [exact Hans|]. split; [exists d0; split; [reflexivity | exact Hne]|].
       split; [exact Heof|]. split; [exact Hparse|]. split; reflexivity. }
  intro H. apply IH in H; [|congruence]. destruct H as [Hset' (pkts & fields & Hall & Hend)].
  split; [congruence|].
  exists ((d0 :: data) :: pkts), (f :: fields). split.
  { constructor; [|exact Hall].
    split; [exists d0; split; [reflexivity | exact Hne]|]. split; assumption. }
  rewrite <- app_assoc in Hend. rewrite Hans. cbn [map app].
  destruct Hend as [(eof & Ha & He & Hr & Hn)
                   |[(e0 & Ha & Hr & Hn)
                    |[(Ha & Hb & Hr & Hn)
                     |[(p & ck & Ha & Hh & Hck & Hr & Hn)
                      |(p & e0 & Ha & Hh & He & Hp & Hr & Hn)]]]].
  - left. exists eof. rewrite Ha. auto.
  - right. left. exists e0. rewrite Ha. auto.
  - right. right. left. rewrite Ha. auto.
  - right. right. right. left. exists p, ck. rewrite Ha. auto.
  - right. right. right. right. exists p, e0. rewrite Ha. repeat split; assumption.
Qed.

(** The loop writes nothing and closes nothing. *)
Lemma FieldList_loop_transport (fuel : nat) :
  forall (fs0 : list Field) (c : Conn) (t : PacketConn) x c',
    Conn_ c = Some t ->
    FieldList_loop fuel fs0 c = Done (x, c') ->
    exists t', Conn_ c' = Some t'
               /\ wlog (raw t') = wlog (raw t)
               /\ closed (raw t') = closed (raw t).
Proof.
  induction fuel as [|fuel IH]; intros fs0 c t x c' Ht; [discriminate|].
  cbn [FieldList_loop]. unfold bind at 1.
  change (ReadPacket c) with (ReadPacketReuseMem c).
  destruct (ReadPacketReuseMem_attached c t Ht)
    as (y & c1 & t1 & Hread & Ht1 & Hl & Hc & _).
  rewrite Hread. destruct y as [data|err].
  2: { intro H. injection H as _ <-. eauto. }
  destruct data as [|d0 data]; [discriminate|].
  destruct (Byte.eqb d0 ERR_HEADER).
  { intro H. injection H as _ <-. eauto. }
  destruct (isEOFPacket (d0 :: data)).
  { intro H. injection H as _ <-. eauto. }
  destruct (parseField (d0 :: data)) as [f|err].
  2: { intro H. injection H as _ <-. eauto. }
  intro H. destruct (IH _ _ _ _ _ Ht1 H) as (t' & Ht' & Hl' & Hc').
  exists t'. split; [exact Ht'|]. split; congruence.
Qed.

Lemma FieldList_loop_fuel (fuel : nat) :
  forall (fs0 : list Field) (c : Conn),
    (List.length (answers c) < fuel)%nat ->
    FieldList_loop fuel fs0 c <> OutOfFuel.
Proof.
  induction fuel as [|fuel IH]; intros fs0 c Hlen; [inversion Hlen|].
  cbn [FieldList_loop]. unfold bind at 1.
  destruct (ReadPacket c) as [[[data|err] c1]| |] eqn:Hread; try discriminate.
  - pose proof (ReadPacketReuseMem_data _ _ _ Hread) as [Hans _].
    destruct data as [|d0 data]; [discriminate|].
    destruct (Byte.eqb d0 ERR_HEADER); [discriminate|].
    destruct (isEOFPacket (d0 :: data)); [discriminate|].
    destruct (parseField (d0 :: data)); [|discriminate].
    apply IH. rewrite Hans in Hlen. simpl in Hlen. apply PeanoNat.lt_S_n. exact Hlen.
  - unfold ReadPacket, promoted in Hread. destruct (Conn_ c); [|discriminate].
    destruct (Packet.ReadPacket p). discriminate.
Qed.

(** What a returned [FieldList] is made of. *)
Lemma FieldList_run (table wildcard : string) (c : Conn) (t : PacketConn) r e c' :
  Conn_ c = Some t ->
  FieldList table wildcard c = Done ((r, e), c') ->
  let command :=
    (COM_FIELD_LIST :: list_byte_of_string table ++ x00 :: list_byte_of_string wildcard)%list
  in
  let outcome := hd None (wscript (raw t)) in
  settings c' = settings c
  /\ exists t',
      Conn_ c' = Some t'
      /\ wlog (raw t') = (wlog (raw t) ++ [(command, outcome)])%list
      /\ closed (raw t') = closed (raw t)
      /\ match outcome with
         | Some e0 =>
             r = None /\ e = Some (Traced e0) /\ responses (raw t') = responses (raw t)
         | None =>
             exists pkts fields,
               Forall2 fieldPacket pkts fields
               /\ fieldsEnd c pkts fields (responses (raw t)) (responses (raw t')) r e
         end.
Proof.
  intros Ht H command outcome.
  destruct (writeCommandStrStr_attached COM_FIELD_LIST table wildcard c t Ht)
    as (c1 & t1 & Hw & Ht1 & Hlog & Hcl & Hresp).
  fold command outcome in Hw, Hlog.
  pose proof (proj1 (framed_writeCommandStrStr _ _ _ _ _ _ Hw)) as Hs1.
  unfold FieldList in H. unfold bind at 1 in H. rewrite Hw in H.
  destruct outcome as [e0|].
  - unfold ret in H. injection H as <- <- <-. split; [exact Hs1|].
    exists t1. repeat split; assumption.
  - pose proof (FieldList_loop_transport _ _ _ _ _ _ Ht1 H) as (t' & Ht' & Hl' & Hc').
    apply (FieldList_loop_spec c) in H; [|exact Hs1].
    destruct H as [Hs' (pkts & fields & Hall & Hend)].
    split; [congruence|]. exists t'. split; [exact Ht'|].
    split; [congruence|]. split; [congruence|].
    exists pkts, fields. split; [exact Hall|].
    unfold answers in Hend. rewrite Ht1, Ht', Hresp in Hend. exact Hend.
Qed.

(** X19. A [FieldList] that returns a list has written its command, the
    table and the wildcard, as the one packet handed to the transport, has
    read the field packets up to the first EOF packet and returns their
    fields, one for each packet and in their order, with a nil error; none
    of these packets has the ERR header, and what follows the EOF packet is
    left unread. *)
Theorem FieldList_fields_in_order
        (table wildcard : string) (c : Conn) (t : PacketConn)
        (fs : list Field) (e : option error) (c' : Conn) :
  Conn_ c = Some t ->
  FieldList table wildcard c = Done ((Some fs, e), c') ->
  e = None
  /\ hd None (wscript (raw t)) = None
  /\ (exists t',
         Conn_ c' = Some t'
         /\ wlog (raw t')
            = (wlog (raw t)
                 ++ [((COM_FIELD_LIST :: list_byte_of_string table
                                      ++ x00 :: list_byte_of_string wildcard)%list,
                      None)])%list
         /\ closed (raw t') = closed (raw t))
  /\ exists pkts eof,
      responses (raw t) = (map ReadData pkts ++ ReadData eof :: answers c')%list
      /\ endOfFields eof
      /\ Forall2 fieldPacket pkts fs.
Proof.
  intros Ht H. destruct (FieldList_run _ _ _ _ _ _ _ Ht H) as [_ (t' & Ht' & Hl & Hc & Hout)].
  destruct (hd None (wscript (raw t))) as [e0|].
  { destruct Hout as [Hr _]. discriminate Hr. }
  destruct Hout as (pkts & fields & Hall & Hend).
  destruct Hend as [(eof & Ha & He & Hr & Hn)
                   |[(e0 & _ & Hr & _)
                    |[(_ & _ & Hr & _)
                     |[(p & ck & _ & _ & _ & Hr & _)
                      |(p & e0 & _ & _ & _ & _ & Hr & _)]]]]; try discriminate Hr.
  injection Hr as ->.
  split; [exact Hn|]. split; [reflexivity|].
  split; [exists t'; repeat split; assumption|].
  exists pkts, eof. unfold answers. rewrite Ht'.
  split; [exact Ha|]. split; [exact He | exact Hall].
Qed.

(** X20. [FieldList] never returns a list together with an error, nor
    neither, changes nothing of the session but the transport and the status
    flags, and the model never runs it out of fuel.  It hands exactly one
    packet to the transport, its command.  When that write fails its error
    is returned traced and nothing is read.  Otherwise the field packets are
    read up to the packet or the failed read that ends the list: the EOF
    packet gives the fields; a failed read gives its error traced, an ERR
    packet the server's error, a packet that does not parse that error
    traced, and then the fields read so far are dropped. *)
Theorem FieldList_list_or_error (table wildcard : string) (c : Conn) :
  FieldList table wildcard c <> OutOfFuel
  /\ forall r e c',
      FieldList table wildcard c = Done ((r, e), c') ->
      (r = None <-> e <> None)
      /\ settings c' = settings c
      /\ exists t t',
          Conn_ c = Some t
          /\ Conn_ c' = Some t'
          /\ wlog (raw t')
             = (wlog (raw t)
                  ++ [((COM_FIELD_LIST :: list_byte_of_string table
                                       ++ x00 :: list_byte_of_string wildcard)%list,
                       hd None (wscript (raw t)))])%list
          /\ closed (raw t') = closed (raw t)
          /\ match hd None (wscript (raw t)) with
             | Some e0 =>
                 r = None /\ e = Some (Traced e0)
                 /\ responses (raw t') = responses (raw t)
             | None =>
                 exists pkts fields,
                   Forall2 fieldPacket pkts fields
                   /\ fieldsEnd c pkts fields (responses (raw t)) (responses (raw t')) r e
             end.
Proof.
  split.
  - unfold FieldList, bind.
    destruct (writeCommandStrStr COM_FIELD_LIST table wildcard c) as [[[e|] c1]| |] eqn:Hw.
    + unfold ret. discriminate.
    + apply FieldList_loop_fuel. apply Nat.lt_succ_diag_r.
    + discriminate.
    + exfalso. unfold writeCommandStrStr, promoted in Hw.
      destruct (Conn_ c); [|discriminate]. destruct (Packet.WritePacket _ _). discriminate.
  - intros r e c' H.
    destruct (Conn_ c) as [t|] eqn:Ht.
    2: { unfold FieldList, bind, writeCommandStrStr, promoted in H. rewrite Ht in H.
         discriminate H. }
    destruct (FieldList_run _ _ _ _ _ _ _ Ht H) as [Hs (t' & Ht' & Hl & Hc & Hout)].
    split; [|split; [exact Hs|]; exists t, t'; repeat split; assumption].
    destruct (hd None (wscript (raw t))) as [e0|].
    { destruct Hout as (-> & -> & _). split; [discriminate | reflexivity]. }
    destruct Hout as (pkts & fields & _ & Hend).
    destruct Hend as [(eof & _ & _ & -> & ->)
                     |[(e0 & _ & -> & ->)
                      |[(_ & _ & -> & ->)
                       |[(p & ck & _ & _ & _ & -> & ->)
                        |(p & e0 & _ & _ & _ & _ & -> & ->)]]]];
      split; intro; try discriminate; try reflexivity; contradiction.
Qed.

End FieldListFacts.

Lemma FieldList_fields_in_order_witness :
  exists c' t',
    FieldList (E := Sample.world) (F := Sample.fieldDecoders) "orders" "%"
              (Sample.session
                 (Sample.peer [ReadData (list_byte_of_string "id");
                               ReadData (list_byte_of_string "total");
                               ReadData [xfe; x00; x00; x02; x00];
                               ReadData (list_byte_of_string "late")] []) "shop")
    = Done ((Some ["id"; "total"], None), c')
    /\ Conn_ c' = Some t'
    /\ wlog (raw t')
       = [((COM_FIELD_LIST :: list_byte_of_string "orders"
                           ++ x00 :: list_byte_of_string "%")%list, None)]
    /\ answers c' = [ReadData (list_byte_of_string "late")].
Proof.
  eassert (FieldList (E := Sample.world) (F := Sample.fieldDecoders) "orders" "%"
             (Sample.session
                (Sample.peer [ReadData (list_byte_of_string "id");
                              ReadData (list_byte_of_string "total");
                              ReadData [xfe; x00; x00; x02; x00];
                              ReadData (list_byte_of_string "late")] []) "shop")
           = Done ((Some _, _), _)) as Hrun by (vm_compute; reflexivity).
  epose proof (fun Ht => FieldList_fields_in_order
                           (E := Sample.world) (F := Sample.fieldDecoders)
                           _ _ _ _ _ _ _ Ht Hrun) as Hthm.
  destruct (Hthm eq_refl) as (He & _ & (t' & Ht' & Hlog & _) & _).
  eexists. exists t'. split; [exact Hrun|]. split; [exact Ht'|].
  split; [exact Hlog | reflexivity].
Defined.

Lemma FieldList_list_or_error_witness :
  exists e c' t',
    FieldList (E := Sample.world) (F := Sample.fieldDecoders) "orders" "%"
              (Sample.session
                 (Sample.peer [ReadData (list_byte_of_string "id");
                               ReadData (xff :: x7a :: x04 :: list_byte_of_string "no table")]
                              []) "shop")
    = Done ((None, Some e), c')
    /\ GetDB c' = "shop"
    /\ Conn_ c' = Some t'
    /\ wlog (raw t')
       = [((COM_FIELD_LIST :: list_byte_of_string "orders"
                           ++ x00 :: list_byte_of_string "%")%list, None)].
Proof.
  eassert (FieldList (E := Sample.world) (F := Sample.fieldDecoders) "orders" "%"
             (Sample.session
                (Sample.peer [ReadData (list_byte_of_string "id");
                              ReadData (xff :: x7a :: x04 :: list_byte_of_string "no table")]
                             []) "shop")
           = Done ((None, Some _), _)) as Hrun by (vm_compute; reflexivity).
  destruct (proj2 (FieldList_list_or_error
                     (E := Sample.world) (F := Sample.fieldDecoders) "orders" "%" _)
                  _ _ _ Hrun) as (_ & Hset & t & t' & Ht & Ht' & Hlog & _).
  injection Ht as <-.
  do 2 eexists. exists t'. split; [exact Hrun|]. split; [exact (f_equal db Hset)|].
  split; [exact Ht' | exact Hlog].
Defined.

(** ** Connection attributes *)

Lemma mapIndex_mapAssign (k v k0 : string) (m : list (string * string)) :
  mapIndex k0 (mapAssign k v m) = if String.eqb k k0 then Some v else mapIndex k0 m.
Proof.
  induction m as [|[k' v'] m IH]; simpl.
  - reflexivity.
  - destruct (String.eqb_spec k' k) as [->|Hne]; simpl.
    + destruct (String.eqb k k0); reflexivity.
    + rewrite IH. destruct (String.eqb_spec k' k0) as [->|Hne0]; [|reflexivity].
      destruct (String.eqb_spec k k0) as [->|]; [contradiction | reflexivity].
Qed.

Lemma mapIndex_absent (k : string) (m : list (string * string)) :
  ~ In k (map fst m) -> mapIndex k m = None.
Proof.
  induction m as [|[k' v'] m IH]; simpl; [reflexivity|]. intro H.
  destruct (String.eqb_spec k' k) as [->|Hne]; [exfalso; apply H; auto|].
  apply IH. intro Hin. apply H. auto.
Qed.

Lemma mapAssign_keys (k v : string) (m : list (string * string)) :
  NoDup (map fst m) ->
  NoDup (map fst (mapAssign k v m))
  /\ forall k0, In k0 (map fst (mapAssign k v m)) <-> k0 = k \/ In k0 (map fst m).
Proof.
  induction m as [|[k' v'] m IH]; simpl; intro Hnd.
  - split; [constructor; [tauto | constructor]|]. intro k0. intuition.
  - inversion Hnd as [|? ? Hnotin Hnd']; subst.
    destruct (String.eqb_spec k' k) as [->|Hne]; simpl.
    + split; [constructor; assumption|]. intro k0. intuition.
    + destruct (IH Hnd') as [IHnd IHin]. split.
      * constructor; [|exact IHnd]. rewrite IHin. intros [->|Hin]; contradiction.
      * intro k0. rewrite IHin. intuition.
Qed.

Lemma mapAssign_not_nil (k v : string) (m : list (string * string)) :
  mapAssign k v m <> [].
Proof. destruct m as [|[k' v'] m]; simpl; [|destruct (String.eqb k' k)]; discriminate. Qed.

Lemma SetAttributes_cons (k v : string) (rest : list (string * string)) (c : Conn) :
  attributes c <> [] ->
  SetAttributes ((k, v) :: rest) c
  = SetAttributes rest (set_attributes (mapAssign k v (attributes c)) c).
Proof.
  intro H. cbn [SetAttributes]. destruct (attributes c); [contradiction | reflexivity].
Qed.

(** X21. [SetAttributes] on a session whose attribute map was made (it is
    not the nil map of a zero [Conn]) merges the given attributes into it:
    afterwards a key of the argument maps to the argument's value, every
    other key maps to what it did, the keys stay distinct, and nothing else
    of the session changes.  On the nil map a non-empty argument panics. *)
Theorem SetAttributes_merges (attrs : list (string * string)) (c : Conn) :
  (attributes c <> [] ->
   NoDup (map fst attrs) ->
   exists c',
     SetAttributes attrs c = Done (tt, c')
     /\ (forall k, mapIndex k (attributes c')
                   = match mapIndex k attrs with
                     | Some v => Some v
                     | None => mapIndex k (attributes c)
                     end)
     /\ (NoDup (map fst (attributes c)) -> NoDup (map fst (attributes c')))
     /\ set_attributes [] c' = set_attributes [] c)
  /\ (attributes c = [] -> attrs <> [] ->
      SetAttributes attrs c = Panic "assignment to entry in nil map").
Proof.
  split.
  - revert c. induction attrs as [|[k v] rest IH]; intros c Hne Hnd.
    + exists c. repeat split. auto.
    + inversion Hnd as [|? ? Hnotin Hnd']; subst.
      rewrite (SetAttributes_cons k v rest c Hne).
      destruct (IH (set_attributes (mapAssign k v (attributes c)) c)
                   (mapAssign_not_nil _ _ _) Hnd')
        as (c' & Hrun & Hidx & Hkeys & Hrest).
      exists c'. split; [exact Hrun|]. split; [|split].
      * intro k0. rewrite Hidx. cbn [attributes set_attributes mapIndex].
        rewrite mapIndex_mapAssign.
        destruct (String.eqb_spec k k0) as [->|Hk].
        -- rewrite (mapIndex_absent k0 rest Hnotin). reflexivity.
        -- reflexivity.
      * intro Hc. apply Hkeys. cbn [attributes set_attributes].
        apply mapAssign_keys. exact Hc.
      * rewrite Hrest. reflexivity.
  - intros Hnil Hattrs. destruct attrs as [|[k v] rest]; [contradiction|].
    cbn [SetAttributes]. rewrite Hnil. reflexivity.
Qed.

(** The attributes of a session as [ConnectWithDialer] makes them, merged
    with a program name and another client name. *)
Lemma SetAttributes_merges_witness :
  let s := set_attributes [("_client_name", "go-mysql"); ("_os", "linux")] new_Conn in
  exists c',
    SetAttributes [("program_name", "billing"); ("_client_name", "billing-db")] s
    = Done (tt, c')
    /\ mapIndex "_client_name" (attributes c') = Some "billing-db"
    /\ mapIndex "_os" (attributes c') = Some "linux"
    /\ mapIndex "program_name" (attributes c') = Some "billing".
Proof.
  intro s.
  destruct (proj1 (SetAttributes_merges
                     [("program_name", "billing"); ("_client_name", "billing-db")] s))
    as (c' & Hrun & Hidx & _).
  - discriminate.
  - repeat constructor; simpl; intuition discriminate.
  - exists c'. split; [exact Hrun|]. rewrite !Hidx. repeat split.
Defined.
